(** * Storage engine core of the OLAP node (be/src/olap/storage_engine.cpp)

    A shallow embedding of the parts of [StorageEngine] that carry the
    engine's startup, scheduling and reclamation contracts:

    - [Compaction]  : [_find_best_tablet_to_compaction];
    - [DiskHealth]  : [_used_disk_not_enough], [_delete_tables_on_unused_root_path];
    - [ClusterId]   : [check_all_root_path_cluster_id], [set_cluster_id],
                      [_judge_and_update_effective_cluster_id];
    - [Gc]          : [start_delete_unused_index], [start_delete_unused_rowset];
    - [TaskExec]    : [execute_task];
    - [Trash]       : [start_trash_sweep], [_do_sweep], [get_all_data_dir_info];
    - [Loader]      : [_load_data_dir] and the conversion steps it gates.

    Classes whose code lives in other files of the repository (TabletManager,
    TxnManager, DataDir, OlapMeta, EngineTask, ...) appear as section
    variables: every theorem of a section holds for all of their behaviours. *)

From Stdlib Require Import ZArith NArith QArith Bool List Ascii String Lia.
From Stdlib Require PrimFloat Uint63.
From stdpp Require Import base decidable option list gmap.
Import ListNotations.

Local Open Scope Z_scope.
#[local] Set Warnings "-clear-no-such-hyp".

(** ** Status codes

    [OLAPStatus] is an integer enumeration (olap_define.h).  The constructors
    below are the values storage_engine.cpp names; every other code is
    [OLAP_ERR_OTHER]. *)
Inductive OLAPStatus : Type :=
  | OLAP_SUCCESS
  | OLAP_ERR_OS_ERROR
  | OLAP_ERR_IO_ERROR
  | OLAP_ERR_STL_ERROR
  | OLAP_ERR_INIT_FAILED
  | OLAP_ERR_INVALID_ROOT_PATH
  | OLAP_ERR_INVALID_CLUSTER_INFO
  | OLAP_ERR_PUSH_TRANSACTION_ALREADY_EXIST
  | OLAP_ERR_TABLE_NOT_FOUND
  | OLAP_ERR_OTHER (code : Z).

#[global] Instance OLAPStatus_eq_dec : EqDecision OLAPStatus.
Proof. solve_decision. Defined.

Definition is_success (s : OLAPStatus) : bool :=
  match s with OLAP_SUCCESS => true | _ => false end.

Lemma is_success_true s : is_success s = true <-> s = OLAP_SUCCESS.
Proof. destruct s; simpl; split; congruence. Qed.

Lemma is_success_false s : is_success s = false <-> s <> OLAP_SUCCESS.
Proof. destruct s; simpl; split; congruence. Qed.

(** ** Compaction scheduler: candidate selection *)
Module Compaction.

Inductive CompactionType : Type := BASE_COMPACTION | CUMULATIVE_COMPACTION.

(** What [_find_best_tablet_to_compaction] reads from a tablet.  Times are
    [int64_t] milliseconds, scores are [uint32_t]; the two compaction locks
    are try-locks, held or free. *)
Record Tablet : Type := mkTablet {
  tablet_id : Z;
  schema_hash : Z;
  store_path_hash : Z;
  is_used : bool;
  is_loaded : bool;
  last_compaction_failure_time : Z;
  cumulative_lock_held : bool;
  base_compaction_lock_held : bool;
  base_compaction_score : N;
  cumulative_compaction_score : N
}.

(** [try_cumulative_lock]: takes the lock when it is free. *)
Definition try_cumulative_lock (t : Tablet) : bool * Tablet :=
  if cumulative_lock_held t then (false, t)
  else (true,
        mkTablet (tablet_id t) (schema_hash t) (store_path_hash t) (is_used t)
                 (is_loaded t) (last_compaction_failure_time t) true
                 (base_compaction_lock_held t) (base_compaction_score t)
                 (cumulative_compaction_score t)).

Definition release_cumulative_lock (t : Tablet) : Tablet :=
  mkTablet (tablet_id t) (schema_hash t) (store_path_hash t) (is_used t)
           (is_loaded t) (last_compaction_failure_time t) false
           (base_compaction_lock_held t) (base_compaction_score t)
           (cumulative_compaction_score t).

Definition try_base_compaction_lock (t : Tablet) : bool * Tablet :=
  if base_compaction_lock_held t then (false, t)
  else (true,
        mkTablet (tablet_id t) (schema_hash t) (store_path_hash t) (is_used t)
                 (is_loaded t) (last_compaction_failure_time t)
                 (cumulative_lock_held t) true (base_compaction_score t)
                 (cumulative_compaction_score t)).

Definition release_base_compaction_lock (t : Tablet) : Tablet :=
  mkTablet (tablet_id t) (schema_hash t) (store_path_hash t) (is_used t)
           (is_loaded t) (last_compaction_failure_time t)
           (cumulative_lock_held t) false (base_compaction_score t)
           (cumulative_compaction_score t).

(** [tablet_map_t]: tablet id to its [table_arr], visited in key order. *)
Definition tablet_map_t : Type := list (Z * list Tablet).

Section Select.

(** [StorageEngine::_can_do_compaction], defined outside this file. *)
Variable _can_do_compaction : Tablet -> bool.
(** [config::min_compaction_failure_interval_sec]. *)
Variable min_compaction_failure_interval_sec : Z.

(** The first [continue]: wrong store, unusable, not loaded, or not
    eligible. *)
Definition not_eligible (store : Z) (t : Tablet) : bool :=
  negb (store_path_hash t =? store)
  || negb (is_used t) || negb (is_loaded t) || negb (_can_do_compaction t).

(** The second [continue]: the failure back-off window is still open.  Both
    times are [int64_t] milliseconds since the epoch, for which the
    subtraction is exact. *)
Definition in_failure_backoff (now : Z) (t : Tablet) : bool :=
  now - last_compaction_failure_time t
    <=? min_compaction_failure_interval_sec * 1000.

(** The try-then-release probe of the lock of the requested kind: [None]
    when the lock is taken, otherwise the tablet after the release. *)
Definition probe_lock (ct : CompactionType) (t : Tablet) : option Tablet :=
  match ct with
  | CUMULATIVE_COMPACTION =>
      let '(ok, t1) := try_cumulative_lock t in
      if ok then Some (release_cumulative_lock t1) else None
  | BASE_COMPACTION =>
      let '(ok, t1) := try_base_compaction_lock t in
      if ok then Some (release_base_compaction_lock t1) else None
  end.

Definition table_score (ct : CompactionType) (t : Tablet) : N :=
  match ct with
  | BASE_COMPACTION => base_compaction_score t
  | CUMULATIVE_COMPACTION => cumulative_compaction_score t
  end.

(** Body of the inner loop; the accumulator is
    [(highest_score, best_tablet)]. *)
Definition visit (ct : CompactionType) (store now : Z)
    (acc : N * option Tablet) (t : Tablet) : N * option Tablet :=
  if not_eligible store t then acc
  else if in_failure_backoff now t then acc
  else match probe_lock ct t with
       | None => acc
       | Some t' =>
           if (fst acc <? table_score ct t')%N
           then (table_score ct t', Some t')
           else acc
       end.

Definition visit_instances (ct : CompactionType) (store now : Z)
    (acc : N * option Tablet) (table_ins : Z * list Tablet)
    : N * option Tablet :=
  fold_left (visit ct store now) (snd table_ins) acc.

Definition _find_best_tablet_to_compaction (ct : CompactionType)
    (store now : Z) (_tablet_map : tablet_map_t) : option Tablet :=
  snd (fold_left (visit_instances ct store now) _tablet_map (0%N, None)).

(** *** Vocabulary of the selection contract *)

(** The tablets in visiting order. *)
Definition all_tablets (m : tablet_map_t) : list Tablet :=
  concat (map snd m).

Definition lock_taken (ct : CompactionType) (t : Tablet) : bool :=
  match ct with
  | BASE_COMPACTION => base_compaction_lock_held t
  | CUMULATIVE_COMPACTION => cumulative_lock_held t
  end.

Definition excluded (ct : CompactionType) (store now : Z) (t : Tablet)
    : bool :=
  not_eligible store t || in_failure_backoff now t || lock_taken ct t.

(** The candidates that survive the three exclusions, in visiting order. *)
Definition candidates (ct : CompactionType) (store now : Z)
    (m : tablet_map_t) : list Tablet :=
  List.filter (fun t => negb (excluded ct store now t)) (all_tablets m).

(** The selection as the contract words it: the candidate of greatest
    score, the earliest one among equals; [None] only without candidates. *)
Fixpoint first_greatest (ct : CompactionType) (l : list Tablet)
    : option Tablet :=
  match l with
  | [] => None
  | t :: rest =>
      match first_greatest ct rest with
      | None => Some t
      | Some u =>
          if (table_score ct t <? table_score ct u)%N then Some u else Some t
      end
  end.


(** *** The loop, reduced to a scan of the candidates *)

Lemma probe_lock_spec ct t :
  probe_lock ct t = if lock_taken ct t then None else Some t.
Proof.
  destruct t as [i h p u l f c b sb sc], ct; cbn;
    [destruct b | destruct c]; reflexivity.
Qed.

(** One iteration on a candidate: the strict comparison with the running
    maximum. *)
Definition keep_greater (ct : CompactionType) (acc : N * option Tablet)
    (t : Tablet) : N * option Tablet :=
  if (fst acc <? table_score ct t)%N then (table_score ct t, Some t) else acc.

Lemma visit_spec ct store now acc t :
  visit ct store now acc t =
  if excluded ct store now t then acc else keep_greater ct acc t.
Proof.
  unfold visit, excluded, keep_greater. rewrite probe_lock_spec.
  destruct (not_eligible store t), (in_failure_backoff now t),
    (lock_taken ct t); reflexivity.
Qed.

Lemma fold_visit_filter ct store now l acc :
  fold_left (visit ct store now) l acc =
  fold_left (keep_greater ct)
    (List.filter (fun t => negb (excluded ct store now t)) l) acc.
Proof.
  revert acc. induction l as [|t l IH]; intros acc; [reflexivity|].
  cbn [fold_left List.filter]. rewrite visit_spec.
  destruct (excluded ct store now t); cbn [negb]; apply IH.
Qed.

Lemma fold_instances_flat ct store now m acc :
  fold_left (visit_instances ct store now) m acc =
  fold_left (visit ct store now) (all_tablets m) acc.
Proof.
  revert acc. induction m as [|[k arr] m IH]; intros acc; [reflexivity|].
  unfold all_tablets in *. cbn [map concat fold_left].
  rewrite fold_left_app. apply IH.
Qed.

Lemma find_best_scan ct store now m :
  _find_best_tablet_to_compaction ct store now m =
  snd (fold_left (keep_greater ct) (candidates ct store now m) (0%N, None)).
Proof.
  unfold _find_best_tablet_to_compaction, candidates.
  now rewrite fold_instances_flat, fold_visit_filter.
Qed.

(** What a scan started at [(h, b)] ends with: either nothing beat [h], or
    the winner is the first tablet of a score that nothing later exceeds. *)
Lemma keep_greater_scan ct l h b :
  let r := fold_left (keep_greater ct) l (h, b) in
  (r = (h, b) /\ forall c, In c l -> (table_score ct c <= h)%N)
  \/ exists l1 t l2,
       l = l1 ++ t :: l2 /\ r = (table_score ct t, Some t)
       /\ (h < table_score ct t)%N
       /\ (forall c, In c l1 -> (table_score ct c < table_score ct t)%N)
       /\ (forall c, In c l2 -> (table_score ct c <= table_score ct t)%N).
Proof.
  revert h b. induction l as [|a l IH]; intros h b; cbn zeta.
  - left. split; [reflexivity | intros c []].
  - cbn [fold_left].
    replace (keep_greater ct (h, b) a)
      with (if (h <? table_score ct a)%N
            then (table_score ct a, Some a) else (h, b)) by reflexivity.
    destruct (N.ltb_spec h (table_score ct a)) as [Hlt|Hge].
    + right. destruct (IH (table_score ct a) (Some a))
        as [[Hr Hall]|(l1 & t & l2 & Hl & Hr & Hh & H1 & H2)].
      * exists [], a, l.
        split; [reflexivity|]. split; [exact Hr|]. split; [exact Hlt|].
        split; [intros c []|exact Hall].
      * exists (a :: l1), t, l2. subst l.
        split; [reflexivity|]. split; [exact Hr|]. split; [lia|].
        split; [|exact H2]. intros c [<-|Hc]; auto.
    + destruct (IH h b)
        as [[Hr Hall]|(l1 & t & l2 & Hl & Hr & Hh & H1 & H2)].
      * left. split; [exact Hr|]. intros c [<-|Hc]; auto.
      * right. exists (a :: l1), t, l2. subst l.
        split; [reflexivity|]. split; [exact Hr|]. split; [exact Hh|].
        split; [|exact H2]. intros c [<-|Hc]; auto. lia.
Qed.

(** The selection, characterised on the candidate list. *)
Lemma find_best_char ct store now m :
  match _find_best_tablet_to_compaction ct store now m with
  | Some t =>
      exists l1 l2,
        candidates ct store now m = l1 ++ t :: l2
        /\ (0 < table_score ct t)%N
        /\ (forall c, In c l1 -> (table_score ct c < table_score ct t)%N)
        /\ (forall c, In c l2 -> (table_score ct c <= table_score ct t)%N)
  | None =>
      forall c, In c (candidates ct store now m) -> table_score ct c = 0%N
  end.
Proof.
  rewrite find_best_scan.
  destruct (keep_greater_scan ct (candidates ct store now m) 0%N None)
    as [[Hr Hall]|(l1 & t & l2 & Hl & Hr & Hh & H1 & H2)]; cbn zeta in *.
  - rewrite Hr. cbn. intros c Hc. specialize (Hall c Hc). lia.
  - rewrite Hr. cbn. exists l1, l2. auto.
Qed.

Lemma candidate_not_excluded ct store now m t :
  In t (candidates ct store now m) -> excluded ct store now t = false.
Proof.
  unfold candidates. rewrite filter_In. intros [_ H].
  now apply negb_true_iff in H.
Qed.

Lemma find_best_is_candidate ct store now m t :
  _find_best_tablet_to_compaction ct store now m = Some t ->
  In t (candidates ct store now m).
Proof.
  intros H. pose proof (find_best_char ct store now m) as Hc.
  rewrite H in Hc. destruct Hc as (l1 & l2 & -> & _).
  apply in_or_app. right. now left.
Qed.

Lemma first_greatest_cons ct t l :
  first_greatest ct (t :: l) =
  match first_greatest ct l with
  | None => Some t
  | Some u =>
      if (table_score ct t <? table_score ct u)%N then Some u else Some t
  end.
Proof. reflexivity. Qed.

Lemma first_greatest_In ct l u : first_greatest ct l = Some u -> In u l.
Proof.
  revert u. induction l as [|x l IH]; intros u Hu; [discriminate|].
  rewrite first_greatest_cons in Hu.
  destruct (first_greatest ct l) as [v|].
  - destruct (table_score ct x <? table_score ct v)%N;
      injection Hu as <-; [right; now apply IH | now left].
  - injection Hu as <-. now left.
Qed.

(** *** The contracts *)

(** C6. Back-off is respected: a tablet whose last compaction failure lies
    within the configured back-off window, that is
    [now - last_compaction_failure_time <= min_compaction_failure_interval_sec * 1000],
    is never the tablet that best-tablet selection returns, for either
    compaction kind. *)
Theorem backoff_tablet_never_selected ct store now m t :
  now - last_compaction_failure_time t
    <= min_compaction_failure_interval_sec * 1000 ->
  _find_best_tablet_to_compaction ct store now m <> Some t.
Proof.
  intros Hwin Hsel.
  apply find_best_is_candidate, candidate_not_excluded in Hsel.
  unfold excluded in Hsel.
  apply orb_false_iff in Hsel as [Hsel _].
  apply orb_false_iff in Hsel as [_ Hoff].
  unfold in_failure_backoff in Hoff. apply Z.leb_gt in Hoff. lia.
Qed.

(** C7, as amended. Selection returns the first-seen candidate of greatest
    score provided that score is positive: every earlier candidate scores
    strictly less, every later one at most as much.  When every candidate
    scores zero (or there is none), nothing is returned. *)
Theorem find_best_first_positive_maximum ct store now m :
  match _find_best_tablet_to_compaction ct store now m with
  | Some t =>
      first_greatest ct (candidates ct store now m) = Some t
      /\ (0 < table_score ct t)%N
      /\ exists l1 l2,
           candidates ct store now m = l1 ++ t :: l2
           /\ (forall c, In c l1 -> (table_score ct c < table_score ct t)%N)
           /\ (forall c, In c l2 -> (table_score ct c <= table_score ct t)%N)
  | None =>
      forall c, In c (candidates ct store now m) -> table_score ct c = 0%N
  end.
Proof.
  pose proof (find_best_char ct store now m) as H.
  destruct (_find_best_tablet_to_compaction ct store now m) as [t|];
    [|exact H].
  destruct H as (l1 & l2 & Hl & Hpos & H1 & H2).
  split; [|split; [exact Hpos | exists l1, l2; auto]].
  rewrite Hl. clear Hl Hpos.
  assert (Htail : first_greatest ct (t :: l2) = Some t).
  { rewrite first_greatest_cons.
    destruct (first_greatest ct l2) as [u|] eqn:Hu; [|reflexivity].
    apply first_greatest_In, H2 in Hu.
    destruct (N.ltb_spec (table_score ct t) (table_score ct u));
      [lia | reflexivity]. }
  clear H2. induction l1 as [|a l1 IH]; [exact Htail|].
  rewrite <- app_comm_cons, first_greatest_cons.
  rewrite IH by (intros c Hc; apply H1; now right).
  destruct (N.ltb_spec (table_score ct a) (table_score ct t)) as [|Hge];
    [reflexivity|].
  specialize (H1 a (or_introl eq_refl)). lia.
Qed.

End Select.

(** *** Concrete runs *)

Definition tablet_example (id : Z) (last_failure : Z) (score : N) : Tablet :=
  mkTablet id 1 7 true true last_failure false false score score.

(** The witness of C6: tablet 1 failed one second ago and carries the
    highest score; tablet 2 is selected instead. *)
Lemma backoff_tablet_never_selected_witness :
  10000000 - last_compaction_failure_time (tablet_example 1 9999000 90)
    <= 600 * 1000
  /\ _find_best_tablet_to_compaction (fun _ => true) 600
       CUMULATIVE_COMPACTION 7 10000000
       [(1, [tablet_example 1 9999000 90]); (2, [tablet_example 2 0 5])]
     <> Some (tablet_example 1 9999000 90).
Proof.
  split; [vm_compute; discriminate|].
  apply backoff_tablet_never_selected. vm_compute. discriminate.
Defined.

(** The counterexample of C7 as worded: a volume whose only candidate scores
    zero.  The candidate of greatest score exists, yet nothing is
    returned. *)
Lemma zero_score_candidate_not_returned :
  candidates (fun _ => true) 600 CUMULATIVE_COMPACTION 7 10000000
    [(1, [tablet_example 1 0 0])] = [tablet_example 1 0 0]
  /\ first_greatest CUMULATIVE_COMPACTION [tablet_example 1 0 0]
     = Some (tablet_example 1 0 0)
  /\ _find_best_tablet_to_compaction (fun _ => true) 600
       CUMULATIVE_COMPACTION 7 10000000 [(1, [tablet_example 1 0 0])]
     = None.
Proof. repeat split. Qed.

End Compaction.

(** ** Disk-health pass *)
Module DiskHealth.

Definition TabletInfo : Type := (Z * Z)%type.

Record DataDir : Type := mkDataDir {
  path : string;
  is_used : bool;
  tablet_set : list TabletInfo
}.

(** Modelled from the spec: [DataDir::clear_tablets] is defined in data_dir.cpp;
    it hands the tablets the volume owned to the caller's vector and leaves
    the volume without tablets. *)
Definition clear_tablets (d : DataDir) (tablet_info_vec : list TabletInfo)
    : DataDir * list TabletInfo :=
  (mkDataDir (path d) (is_used d) [], tablet_info_vec ++ tablet_set d).

(** [uint32_t] arithmetic. *)
Definition wrap32 (z : Z) : Z := z mod 2 ^ 32.

Record Engine : Type := mkEngine {
  _store_map : list DataDir;
  _is_drop_tables : bool
}.

(** How the pass ends: [exit(0)] after the fatal log line, or a normal
    return with the tablets handed to
    [TabletManager::drop_tablets_on_error_root_path]. *)
Inductive Outcome : Type :=
  | ProcessExit (total_disks error_disks : Z)
  | Returned (e : Engine) (dropped : list TabletInfo).

Section Pass.

(** The configured error-disk percentage, a 32-bit member of the engine. *)
Variable _min_percentage_of_error_disk : Z.

Definition _used_disk_not_enough (unused_num total_num : Z) : bool :=
  (total_num =? 0)
  || (wrap32 (unused_num * 100) / total_num
        >? wrap32 _min_percentage_of_error_disk).

(** The loop over [_store_map]: [total_root_path_num] is incremented for
    every volume; a volume that is not used is cleared into
    [tablet_info_vec]. *)
Fixpoint scan_stores (stores : list DataDir) (total_root_path_num : Z)
    (tablet_info_vec : list TabletInfo)
    : list DataDir * Z * list TabletInfo :=
  match stores with
  | [] => ([], total_root_path_num, tablet_info_vec)
  | d :: rest =>
      let total := wrap32 (total_root_path_num + 1) in
      if is_used d then
        let '(ds, n, v) := scan_stores rest total tablet_info_vec in
        (d :: ds, n, v)
      else
        let '(d', vec) := clear_tablets d tablet_info_vec in
        let '(ds, n, v) := scan_stores rest total vec in
        (d' :: ds, n, v)
  end.

Definition _delete_tables_on_unused_root_path (e : Engine) : Outcome :=
  let unused_root_path_num := 0 in
  let '(stores, total_root_path_num, tablet_info_vec) :=
    scan_stores (_store_map e) 0 [] in
  if _used_disk_not_enough unused_root_path_num total_root_path_num
  then ProcessExit total_root_path_num unused_root_path_num
  else Returned
         (mkEngine stores
            (match tablet_info_vec with
             | [] => _is_drop_tables e
             | _ :: _ => true
             end))
         tablet_info_vec.

(** The number of volumes that are not used. *)
Definition unused_count (stores : list DataDir) : Z :=
  Z.of_nat (length (List.filter (fun d => negb (is_used d)) stores)).

Lemma wrap32_range z : 0 <= wrap32 z < 2 ^ 32.
Proof. unfold wrap32. apply Z.mod_pos_bound. lia. Qed.

Lemma wrap32_small z : 0 <= z < 2 ^ 32 -> wrap32 z = z.
Proof. unfold wrap32. intros H. now apply Z.mod_small. Qed.

Lemma scan_stores_total stores n v :
  snd (fst (scan_stores stores n v))
  = wrap32 (wrap32 n + Z.of_nat (length stores)) \/ stores = [].
Proof.
  revert n v. induction stores as [|d rest IH]; intros n v; [now right|].
  left. cbn [scan_stores]. unfold clear_tablets.
  assert (Hstep : forall v',
    snd (fst (scan_stores rest (wrap32 (n + 1)) v'))
    = wrap32 (wrap32 n + Z.of_nat (length (d :: rest)))).
  { intros v'. destruct (IH (wrap32 (n + 1)) v') as [-> | ->].
    - unfold wrap32. cbn [length]. rewrite Nat2Z.inj_succ.
      rewrite Z.mod_mod by lia.
      rewrite Zplus_mod_idemp_l, (Zplus_mod_idemp_l n).
      f_equal. lia.
    - cbn. unfold wrap32. rewrite Zplus_mod_idemp_l. reflexivity. }
  destruct (is_used d).
  - specialize (Hstep v).
    destruct (scan_stores rest (wrap32 (n + 1)) v) as [[ds k] w]. exact Hstep.
  - specialize (Hstep (v ++ tablet_set d)).
    destruct (scan_stores rest (wrap32 (n + 1)) (v ++ tablet_set d))
      as [[ds k] w]. exact Hstep.
Qed.

(** The error-disk counter is never advanced, so the comparison is made with
    zero unused volumes: whenever there is a volume at all (and fewer than
    2^32 of them) the pass returns normally, whatever the threshold and
    however many volumes are unused. *)
Lemma health_pass_returns_when_stores_exist e :
  _store_map e <> [] ->
  Z.of_nat (length (_store_map e)) < 2 ^ 32 ->
  exists e' dropped, _delete_tables_on_unused_root_path e = Returned e' dropped.
Proof.
  intros Hne Hlen. unfold _delete_tables_on_unused_root_path.
  pose proof (scan_stores_total (_store_map e) 0 []) as Ht.
  destruct (scan_stores (_store_map e) 0 []) as [[ds n] v]. cbn [fst snd] in Ht.
  destruct Ht as [Ht|Ht]; [|contradiction].
  rewrite (wrap32_small 0), Z.add_0_l, wrap32_small in Ht by lia.
  assert (Hpos : 0 < n).
  { subst n. destruct (_store_map e); [contradiction|cbn; lia]. }
  unfold _used_disk_not_enough.
  replace (n =? 0) with false by (symmetry; apply Z.eqb_neq; lia).
  cbn [orb]. replace (wrap32 (0 * 100)) with 0 by reflexivity.
  rewrite Z.div_0_l by lia.
  pose proof (wrap32_range _min_percentage_of_error_disk).
  replace (0 >? wrap32 _min_percentage_of_error_disk) with false
    by (symmetry; rewrite Z.gtb_ltb; apply Z.ltb_ge; lia).
  eauto.
Qed.

End Pass.

(** *** The failing run *)

Definition broken_volume (p : string) (tablets : list TabletInfo) : DataDir :=
  mkDataDir p false tablets.

Definition both_volumes_broken : Engine :=
  mkEngine [broken_volume "/disk1" [(10, 1)]; broken_volume "/disk2" [(11, 1)]]
           false.

(** C4 at the failing input.  Two volumes, both unusable, error-disk
    percentage 50: the unusable fraction is 100 percent and
    [_used_disk_not_enough] applied to the true counts says so, yet the pass
    compares with an error-disk count that is still zero and returns
    normally instead of reaching the fatal branch. *)
Theorem all_volumes_unused_pass_does_not_exit :
  unused_count (_store_map both_volumes_broken) = 2
  /\ _used_disk_not_enough 50
       (unused_count (_store_map both_volumes_broken))
       (Z.of_nat (length (_store_map both_volumes_broken))) = true
  /\ _delete_tables_on_unused_root_path 50 both_volumes_broken
     = Returned
         (mkEngine [broken_volume "/disk1" []; broken_volume "/disk2" []] true)
         [(10, 1); (11, 1)].
Proof. repeat split. Qed.

End DiskHealth.

(** ** Cluster-id reconciliation *)
Module ClusterId.

(** [doris::Status] as far as this code inspects it. *)
Inductive Status : Type := Status_OK | Status_Error (msg : string).

Record DataDir : Type := mkDataDir {
  path : string;
  cluster_id : Z
}.

(** Modelled from the spec: [DataDir::set_cluster_id] is defined in
    data_dir.cpp; it writes the id into the volume's cluster-id record. *)
Definition DataDir_set_cluster_id (d : DataDir) (id : Z) : Status * DataDir :=
  (Status_OK, mkDataDir (path d) id).

(** [_store_map] in iteration order (by path). *)
Record Engine : Type := mkEngine {
  _store_map : list DataDir;
  _effective_cluster_id : Z;
  _is_all_cluster_id_exist : bool
}.

Definition _judge_and_update_effective_cluster_id (e : Engine) (cluster_id : Z)
    : OLAPStatus * Engine :=
  if (cluster_id =? -1) && (_effective_cluster_id e =? -1) then
    (OLAP_SUCCESS, e)
  else if negb (cluster_id =? -1) && (_effective_cluster_id e =? -1) then
    (OLAP_SUCCESS,
     mkEngine (_store_map e) cluster_id (_is_all_cluster_id_exist e))
  else if (cluster_id =? -1) && negb (_effective_cluster_id e =? -1) then
    (OLAP_SUCCESS, e)
  else if negb (cluster_id =? _effective_cluster_id e) then
    (OLAP_ERR_INVALID_CLUSTER_INFO, e)
  else (OLAP_SUCCESS, e).

(** The loop of [set_cluster_id]; [RETURN_IF_ERROR] leaves at the first
    volume whose write fails. *)
Fixpoint set_each (stores : list DataDir) (id : Z) : Status * list DataDir :=
  match stores with
  | [] => (Status_OK, [])
  | d :: rest =>
      match DataDir_set_cluster_id d id with
      | (Status_OK, d') =>
          let '(st, rest') := set_each rest id in (st, d' :: rest')
      | (err, d') => (err, d' :: rest)
      end
  end.

Definition set_cluster_id (e : Engine) (id : Z) : Status * Engine :=
  match set_each (_store_map e) id with
  | (Status_OK, stores) => (Status_OK, mkEngine stores id true)
  | (err, stores) =>
      (err,
       mkEngine stores (_effective_cluster_id e) (_is_all_cluster_id_exist e))
  end.

(** The loop of [check_all_root_path_cluster_id] over the local
    [cluster_id] and the member [_is_all_cluster_id_exist]. *)
Fixpoint collect_cluster_id (stores : list DataDir) (cid : Z)
    (all_exist : bool) : OLAPStatus * Z * bool :=
  match stores with
  | [] => (OLAP_SUCCESS, cid, all_exist)
  | d :: rest =>
      let tmp_cluster_id := cluster_id d in
      if tmp_cluster_id =? -1 then collect_cluster_id rest cid false
      else if tmp_cluster_id =? cid then collect_cluster_id rest cid all_exist
      else if cid =? -1 then collect_cluster_id rest tmp_cluster_id all_exist
      else (OLAP_ERR_INVALID_CLUSTER_INFO, cid, all_exist)
  end.

Definition check_all_root_path_cluster_id (e : Engine) : OLAPStatus * Engine :=
  let '(st, cid, all_exist) :=
    collect_cluster_id (_store_map e) (-1) (_is_all_cluster_id_exist e) in
  let e1 := mkEngine (_store_map e) (_effective_cluster_id e) all_exist in
  if is_success st then
    let '(res, e2) := _judge_and_update_effective_cluster_id e1 cid in
    if is_success res then
      if negb (_effective_cluster_id e2 =? -1)
         && negb (_is_all_cluster_id_exist e2)
      then (res, snd (set_cluster_id e2 (_effective_cluster_id e2)))
      else (res, e2)
    else (res, e2)
  else (st, e1).

(** *** The scan of the stored ids *)

Lemma collect_conflict_with stores cid all_exist :
  cid <> -1 ->
  (exists d, In d stores /\ cluster_id d <> -1 /\ cluster_id d <> cid) ->
  fst (fst (collect_cluster_id stores cid all_exist))
  = OLAP_ERR_INVALID_CLUSTER_INFO.
Proof.
  intros Hcid. revert all_exist.
  induction stores as [|d rest IH]; intros all_exist (x & Hin & H1 & H2).
  - destruct Hin.
  - cbn [collect_cluster_id].
    destruct (Z.eqb_spec (cluster_id d) (-1)) as [E1|N1].
    + apply IH. exists x. destruct Hin as [-> |Hin]; [congruence|auto].
    + destruct (Z.eqb_spec (cluster_id d) cid) as [E2|N2].
      * apply IH. exists x. destruct Hin as [-> |Hin]; [congruence|auto].
      * destruct (Z.eqb_spec cid (-1)); [congruence|reflexivity].
Qed.

Lemma collect_conflict stores all_exist :
  (exists d1 d2, In d1 stores /\ In d2 stores
                 /\ cluster_id d1 <> -1 /\ cluster_id d2 <> -1
                 /\ cluster_id d1 <> cluster_id d2) ->
  fst (fst (collect_cluster_id stores (-1) all_exist))
  = OLAP_ERR_INVALID_CLUSTER_INFO.
Proof.
  revert all_exist. induction stores as [|d rest IH];
    intros all_exist (d1 & d2 & I1 & I2 & H1 & H2 & Hne).
  - destruct I1.
  - cbn [collect_cluster_id].
    destruct (Z.eqb_spec (cluster_id d) (-1)) as [E1|N1].
    + apply IH. exists d1, d2.
      destruct I1 as [-> |I1]; [congruence|].
      destruct I2 as [-> |I2]; [congruence|]. auto.
    + destruct (Z.eqb_spec (cluster_id d) (-1)); [contradiction|].
      cbn [Z.eqb]. apply collect_conflict_with; [exact N1|].
      destruct (Z.eq_dec (cluster_id d1) (cluster_id d)) as [E|N].
      * exists d2. destruct I2 as [-> |I2]; [congruence|].
        repeat split; auto. congruence.
      * exists d1. destruct I1 as [-> |I1]; [congruence|]. auto.
Qed.

(** With every stored id either unset or [c], the scan succeeds; it ends on
    [c] as soon as some volume carries it, and clears the all-exist flag as
    soon as some volume is unset. *)
Lemma collect_agreeing stores c cid all_exist :
  c <> -1 -> (cid = -1 \/ cid = c) ->
  (forall d, In d stores -> cluster_id d = -1 \/ cluster_id d = c) ->
  exists cid' all_exist',
    collect_cluster_id stores cid all_exist = (OLAP_SUCCESS, cid', all_exist')
    /\ (cid' = -1 \/ cid' = c)
    /\ (cid = c -> cid' = c)
    /\ ((exists d, In d stores /\ cluster_id d = c) -> cid' = c)
    /\ (all_exist' = true ->
        all_exist = true /\ forall d, In d stores -> cluster_id d = c).
Proof.
  intros Hc. revert cid all_exist.
  induction stores as [|d rest IH]; intros cid all_exist Hcid Hall.
  - exists cid, all_exist. cbn. split_and!.
    + reflexivity.
    + exact Hcid.
    + auto.
    + intros (d & [] & _).
    + intros E. split; [exact E | intros d []].
  - cbn [collect_cluster_id].
    assert (Hrest : forall x, In x rest -> cluster_id x = -1 \/ cluster_id x = c)
      by (intros x Hx; apply Hall; now right).
    destruct (Hall d (or_introl eq_refl)) as [Hd|Hd].
    + rewrite Hd. cbn [Z.eqb].
      destruct (IH cid false Hcid Hrest)
        as (cid' & ae' & R0 & R1 & R2 & R3 & R4).
      rewrite R0. exists cid', ae'. split_and!.
      * reflexivity.
      * exact R1.
      * exact R2.
      * intros (x & [-> |Hx] & E); [congruence|]. apply R3. eauto.
      * intros E. destruct (R4 E) as [? _]. discriminate.
    + destruct (Z.eqb_spec (cluster_id d) (-1)); [congruence|].
      destruct (Z.eqb_spec (cluster_id d) cid) as [E2|N2].
      * destruct (IH cid all_exist Hcid Hrest)
          as (cid' & ae' & R0 & R1 & R2 & R3 & R4).
        rewrite R0. exists cid', ae'. split_and!.
        -- reflexivity.
        -- exact R1.
        -- exact R2.
        -- intros _. apply R2. congruence.
        -- intros E. destruct (R4 E) as [? R5]. split; [assumption|].
           intros x [<-|Hx]; [exact Hd|]. now apply R5.
      * destruct Hcid as [-> | ->]; [|congruence]. cbn [Z.eqb].
        destruct (IH (cluster_id d) all_exist (or_intror Hd) Hrest)
          as (cid' & ae' & R0 & R1 & R2 & R3 & R4).
        rewrite R0. exists cid', ae'. split_and!.
        -- reflexivity.
        -- exact R1.
        -- intros E. exfalso. lia.
        -- intros _. now apply R2.
        -- intros E. destruct (R4 E) as [? R5]. split; [assumption|].
           intros x [<-|Hx]; [exact Hd|]. now apply R5.
Qed.

Lemma set_each_spec stores id :
  set_each stores id
  = (Status_OK, map (fun d => mkDataDir (path d) id) stores).
Proof.
  induction stores as [|d rest IH]; [reflexivity|].
  cbn [set_each DataDir_set_cluster_id map]. now rewrite IH.
Qed.

Lemma check_conflict e :
  (exists d1 d2, In d1 (_store_map e) /\ In d2 (_store_map e)
                 /\ cluster_id d1 <> -1 /\ cluster_id d2 <> -1
                 /\ cluster_id d1 <> cluster_id d2) ->
  exists e',
    check_all_root_path_cluster_id e = (OLAP_ERR_INVALID_CLUSTER_INFO, e')
    /\ _store_map e' = _store_map e
    /\ _effective_cluster_id e' = _effective_cluster_id e.
Proof.
  intros H. unfold check_all_root_path_cluster_id.
  pose proof (collect_conflict _ (_is_all_cluster_id_exist e) H) as Hc.
  destruct (collect_cluster_id (_store_map e) (-1) (_is_all_cluster_id_exist e))
    as [[st cid] ae]. cbn [fst] in Hc. subst st. cbn [is_success].
  eexists. split; [reflexivity|]. split; reflexivity.
Qed.

Lemma check_agreeing e c :
  c <> -1 ->
  (forall d, In d (_store_map e) -> cluster_id d = -1 \/ cluster_id d = c) ->
  (exists d, In d (_store_map e) /\ cluster_id d = c) ->
  _effective_cluster_id e = -1 \/ _effective_cluster_id e = c ->
  exists e',
    check_all_root_path_cluster_id e = (OLAP_SUCCESS, e')
    /\ _effective_cluster_id e' = c
    /\ (forall d, In d (_store_map e') -> cluster_id d = c)
    /\ map path (_store_map e') = map path (_store_map e).
Proof.
  intros Hc Hall Hsome Heff. unfold check_all_root_path_cluster_id.
  destruct (collect_agreeing (_store_map e) c (-1) (_is_all_cluster_id_exist e)
              Hc (or_introl eq_refl) Hall)
    as (cid & ae & R0 & _ & _ & R3 & R4).
  rewrite R0. specialize (R3 Hsome). subst cid. cbn [is_success].
  unfold _judge_and_update_effective_cluster_id.
  cbn [_effective_cluster_id _store_map _is_all_cluster_id_exist].
  destruct (Z.eqb_spec c (-1)); [contradiction|]. cbn [andb negb].
  assert (Hwrite : forall stores b,
    let e2 := mkEngine stores c b in
    (forall d, In d stores -> b = true -> cluster_id d = c) ->
    exists e',
      (if negb (_effective_cluster_id e2 =? -1)
          && negb (_is_all_cluster_id_exist e2)
       then (OLAP_SUCCESS, snd (set_cluster_id e2 (_effective_cluster_id e2)))
       else (OLAP_SUCCESS, e2)) = (OLAP_SUCCESS, e')
      /\ _effective_cluster_id e' = c
      /\ (forall d, In d (_store_map e') -> cluster_id d = c)
      /\ map path (_store_map e') = map path stores).
  { intros stores b e2 Hb. subst e2.
    cbn [_effective_cluster_id _is_all_cluster_id_exist].
    destruct (Z.eqb_spec c (-1)); [contradiction|]. cbn [negb andb].
    destruct b; cbn [negb].
    - eexists. split; [reflexivity|]. cbn. split_and!; auto.
    - unfold set_cluster_id. cbn [_store_map]. rewrite set_each_spec.
      eexists. split; [reflexivity|]. cbn [snd _effective_cluster_id _store_map].
      split_and!.
      + reflexivity.
      + intros d Hd. apply in_map_iff in Hd as (x & <- & _). reflexivity.
      + rewrite map_map. reflexivity. }
  assert (Hae : forall d, In d (_store_map e) -> ae = true -> cluster_id d = c).
  { intros d Hd E. destruct (R4 E) as [_ R5]. now apply R5. }
  destruct (Z.eqb_spec (_effective_cluster_id e) (-1)) as [E|N].
  - cbn [is_success]. apply (Hwrite (_store_map e) ae Hae).
  - cbn [andb]. destruct Heff as [?|Heff]; [contradiction|].
    destruct (Z.eqb_spec c (_effective_cluster_id e)); [|congruence].
    cbn [negb is_success]. rewrite Heff.
    apply (Hwrite (_store_map e) ae Hae).
Qed.

(** *** The contract *)

(** C3, as amended.  (1) When two volumes hold distinct cluster ids, both
    different from -1, the check fails with the invalid-cluster-info error
    and leaves every volume's stored id (and the effective id) as it was.
    (2) When every stored id is -1 or [c], some volume holds [c], and the
    engine's effective id before the check is unset (-1) or already [c]
    -- which covers the volumes (-1, 5, -1) -- the check succeeds, the
    effective id is [c], and afterwards every volume reports [c]. *)
Theorem cluster_id_check_contract e :
  ((exists d1 d2, In d1 (_store_map e) /\ In d2 (_store_map e)
                  /\ cluster_id d1 <> -1 /\ cluster_id d2 <> -1
                  /\ cluster_id d1 <> cluster_id d2) ->
   exists e',
     check_all_root_path_cluster_id e = (OLAP_ERR_INVALID_CLUSTER_INFO, e')
     /\ _store_map e' = _store_map e
     /\ _effective_cluster_id e' = _effective_cluster_id e)
  /\ (forall c,
        c <> -1 ->
        (forall d, In d (_store_map e) -> cluster_id d = -1 \/ cluster_id d = c) ->
        (exists d, In d (_store_map e) /\ cluster_id d = c) ->
        _effective_cluster_id e = -1 \/ _effective_cluster_id e = c ->
        exists e',
          check_all_root_path_cluster_id e = (OLAP_SUCCESS, e')
          /\ _effective_cluster_id e' = c
          /\ (forall d, In d (_store_map e') -> cluster_id d = c)
          /\ map path (_store_map e') = map path (_store_map e)).
Proof.
  split; [apply check_conflict | intros c; apply check_agreeing].
Qed.

(** *** Concrete runs *)

Fixpoint volumes_from (n : nat) (ids : list Z) : list DataDir :=
  match ids with
  | [] => []
  | id :: rest =>
      mkDataDir (String (Ascii.ascii_of_nat (97 + n)) EmptyString) id
        :: volumes_from (S n) rest
  end.

(** Volumes at the paths "a", "b", ... holding the given ids. *)
Definition volumes (ids : list Z) : list DataDir := volumes_from 0 ids.

(** The two scenarios of the contract: ids (5, 7) and ids (-1, 5, -1) with
    no configured id. *)
Lemma cluster_id_check_contract_witness :
  (exists e',
     check_all_root_path_cluster_id (mkEngine (volumes [5; 7]) (-1) true)
     = (OLAP_ERR_INVALID_CLUSTER_INFO, e')
     /\ _store_map e' = volumes [5; 7]
     /\ _effective_cluster_id e' = -1)
  /\ (exists e',
        check_all_root_path_cluster_id (mkEngine (volumes [-1; 5; -1]) (-1) true)
        = (OLAP_SUCCESS, e')
        /\ _effective_cluster_id e' = 5
        /\ (forall d, In d (_store_map e') -> cluster_id d = 5)
        /\ map path (_store_map e') = map path (volumes [-1; 5; -1])).
Proof.
  split.
  - apply (proj1 (cluster_id_check_contract
                    (mkEngine (volumes [5; 7]) (-1) true))).
    exists (mkDataDir "a" 5), (mkDataDir "b" 7). cbn.
    split_and!; auto; discriminate.
  - apply (proj2 (cluster_id_check_contract
                    (mkEngine (volumes [-1; 5; -1]) (-1) true)) 5).
    + discriminate.
    + cbn. intros d [<-|[<-|[<-|[]]]]; cbn; auto.
    + exists (mkDataDir "b" 5). cbn. auto.
    + cbn. auto.
Defined.

(** The counterexample of C3 as worded: the volumes hold (-1, 5, -1) but the
    engine was configured with cluster id 7 ([open] copies
    [config::cluster_id] into [_effective_cluster_id] before the check).  The
    check fails and nothing is written back. *)
Lemma configured_id_makes_check_fail :
  check_all_root_path_cluster_id (mkEngine (volumes [-1; 5; -1]) 7 true)
  = (OLAP_ERR_INVALID_CLUSTER_INFO, mkEngine (volumes [-1; 5; -1]) 7 false).
Proof. reflexivity. Qed.

End ClusterId.

(** ** Garbage collection of retired artifacts *)
Module Gc.

(** A retired index object: its address (the key of [_gc_files]) and what
    [is_in_use] reports when the sweep asks. *)
Record SegmentGroup : Type := mkSegmentGroup {
  sg_addr : Z;
  is_in_use : bool
}.

(** A retired rowset and what [in_use] reports when the sweep asks. *)
Record Rowset : Type := mkRowset {
  rowset_id : Z;
  in_use : bool
}.

(** What a sweep of [_gc_files] leaves: the registry, the index objects it
    freed ([delete it->first]) and the paths it passed to [remove_files]. *)
Record IndexSweep : Type := mkIndexSweep {
  gc_files_after : list (SegmentGroup * list string);
  deleted_groups : list SegmentGroup;
  removed_files : list string
}.

(** [start_delete_unused_index]: the loop advances with [++it] over an entry
    in use and with [it = _gc_files.erase(it)] over one that is not. *)
Fixpoint start_delete_unused_index (_gc_files : list (SegmentGroup * list string))
    : IndexSweep :=
  match _gc_files with
  | [] => mkIndexSweep [] [] []
  | (sg, files) :: rest =>
      let r := start_delete_unused_index rest in
      if is_in_use sg then
        mkIndexSweep ((sg, files) :: gc_files_after r)
                     (deleted_groups r) (removed_files r)
      else
        mkIndexSweep (gc_files_after r) (sg :: deleted_groups r)
                     (files ++ removed_files r)
  end.

(** How a sweep of [_unused_rowsets] ends.  The loop erases with
    [_unused_rowsets.erase(it)] and keeps using [it]: the iterator is
    invalid from then on, and the next evaluation of
    [it != _unused_rowsets.end()] has no defined behaviour. *)
Inductive RowsetSweep : Type :=
  | SweepFinished (registry : list (Z * Rowset))
  | IteratorInvalidated (registry : list (Z * Rowset)) (removed : Rowset).

(** [start_delete_unused_rowset]: entries in use are stepped over; at the
    first entry not in use the rowset's [remove] runs, the entry is erased,
    and the defined part of the run ends. *)
Fixpoint start_delete_unused_rowset (_unused_rowsets : list (Z * Rowset))
    : RowsetSweep :=
  match _unused_rowsets with
  | [] => SweepFinished []
  | (id, r) :: rest =>
      if in_use r then
        match start_delete_unused_rowset rest with
        | SweepFinished reg => SweepFinished ((id, r) :: reg)
        | IteratorInvalidated reg x => IteratorInvalidated ((id, r) :: reg) x
        end
      else IteratorInvalidated rest r
  end.

(** *** The index sweep *)

Lemma index_sweep_registry reg :
  gc_files_after (start_delete_unused_index reg)
  = List.filter (fun e => is_in_use (fst e)) reg.
Proof.
  induction reg as [|[sg files] rest IH]; [reflexivity|].
  cbn [start_delete_unused_index List.filter fst].
  destruct (is_in_use sg); cbn [gc_files_after]; now rewrite IH.
Qed.

Lemma index_sweep_files reg :
  removed_files (start_delete_unused_index reg)
  = concat (map snd (List.filter (fun e => negb (is_in_use (fst e))) reg)).
Proof.
  induction reg as [|[sg files] rest IH]; [reflexivity|].
  cbn [start_delete_unused_index List.filter fst].
  destruct (is_in_use sg); cbn [removed_files negb map concat snd];
    now rewrite IH.
Qed.

(** The index registry obeys the sweep contract: an entry stays tracked
    exactly when its artifact is in use, and a path is removed exactly when
    an artifact that is not in use recorded it. *)
Lemma index_sweep_contract reg :
  (forall sg files,
     In (sg, files) (gc_files_after (start_delete_unused_index reg))
     <-> In (sg, files) reg /\ is_in_use sg = true)
  /\ (forall f,
        In f (removed_files (start_delete_unused_index reg))
        <-> exists sg files,
              In (sg, files) reg /\ is_in_use sg = false /\ In f files).
Proof.
  split.
  - intros sg files. rewrite index_sweep_registry, filter_In. reflexivity.
  - intros f. rewrite index_sweep_files, in_concat. split.
    + intros (files & Hin & Hf). apply in_map_iff in Hin as ([sg fs] & <- & Hin).
      apply filter_In in Hin as [Hin Hu]. cbn in Hu.
      exists sg, fs. apply negb_true_iff in Hu. auto.
    + intros (sg & files & Hin & Hu & Hf). exists files. split; [|exact Hf].
      apply in_map_iff. exists (sg, files). split; [reflexivity|].
      apply filter_In. split; [exact Hin|]. cbn. now rewrite Hu.
Qed.

(** *** The rowset sweep *)

(** The rowset sweep finishes only over a registry in which every rowset is
    in use, and then changes nothing. *)
Lemma rowset_sweep_finishes_iff reg :
  (forall id r, In (id, r) reg -> in_use r = true)
  <-> start_delete_unused_rowset reg = SweepFinished reg.
Proof.
  induction reg as [|[id r] rest IH]; cbn [start_delete_unused_rowset].
  - split; [reflexivity | intros _ id r []].
  - split.
    + intros H. rewrite (H id r (or_introl eq_refl)).
      destruct IH as [IH _]. rewrite IH; [reflexivity|].
      intros id' r' Hin. apply (H id' r'). now right.
    + intros H id' r' Hin. destruct (in_use r) eqn:Hu; [|discriminate].
      destruct (start_delete_unused_rowset rest) as [reg'|] eqn:Hs;
        [|discriminate].
      injection H as ->. destruct Hin as [E|Hin].
      * injection E as <- <-. exact Hu.
      * destruct IH as [_ IH]. apply (IH eq_refl id' r' Hin).
Qed.

(** C5 at the failing input.  Two tracked rowsets, neither in use.  The
    sweep removes the first and erases it without taking the iterator that
    [erase] returns (the index sweep does take it); the run is undefined
    from there, with the second rowset still tracked and its [remove] not
    invoked. *)
Theorem rowset_sweep_stops_after_first_removal :
  start_delete_unused_rowset [(1, mkRowset 1 false); (2, mkRowset 2 false)]
  = IteratorInvalidated [(2, mkRowset 2 false)] (mkRowset 1 false).
Proof. reflexivity. Qed.

End Gc.

(** ** Task executor *)
Module TaskExec.

Definition TabletInfo : Type := (Z * Z)%type.

(** Modelled from the spec: [TabletInfo::operator<] is declared in
    olap_common.h; the order is by tablet id, then by schema hash. *)
Definition tablet_info_lt (a b : TabletInfo) : bool :=
  if fst a =? fst b then snd a <? snd b else fst a <? fst b.

Fixpoint insert_sorted (x : TabletInfo) (l : list TabletInfo)
    : list TabletInfo :=
  match l with
  | [] => [x]
  | y :: rest =>
      if tablet_info_lt y x then y :: insert_sorted x rest else x :: y :: rest
  end.

(** [sort(tablet_infos.begin(), tablet_infos.end())]. *)
Definition sort_tablet_infos (l : list TabletInfo) : list TabletInfo :=
  fold_right insert_sorted [] l.

(** A tablet object is named by its address. *)
Definition TabletPtr : Type := positive.

(** The calls the executor makes, in order. *)
Inductive Event : Type :=
  | EvObtainHeaderWrlock (t : TabletPtr)
  | EvReleaseHeaderLock (t : TabletPtr)
  | EvPrepare
  | EvExecute
  | EvFinish.

(** What a run that returns leaves behind. *)
Record Run (Env : Type) : Type := mkRun {
  status : OLAPStatus;
  env_after : Env;
  held_after : gset TabletPtr;
  trace : list Event
}.
Arguments mkRun {Env}.
Arguments status {Env}.
Arguments env_after {Env}.
Arguments held_after {Env}.
Arguments trace {Env}.

Section Exec.

(** Everything the task and the tablet directory can read and change. *)
Variable Env : Type.
(** [TabletManager::get_tablet(tablet_id, schema_hash, false)]. *)
Variable get_tablet : Env -> Z -> Z -> option TabletPtr.
(** The virtual methods of [EngineTask]. *)
Variable get_related_tablets : Env -> list TabletInfo.
Variable prepare : Env -> OLAPStatus * Env.
Variable execute : Env -> OLAPStatus * Env.
Variable finish : Env -> OLAPStatus * Env.

(** The first loop of a locked block: resolve each tablet and take its
    header write-lock.  [held] is the set of header write-locks taken and not
    yet released; [obtain_header_wrlock] on a lock of that set does not
    return, which is [None]. *)
Fixpoint lock_related (env : Env) (tablet_infos : list TabletInfo)
    (held : gset TabletPtr) : option (list TabletPtr * gset TabletPtr) :=
  match tablet_infos with
  | [] => Some ([], held)
  | tablet_info :: rest =>
      match get_tablet env (fst tablet_info) (snd tablet_info) with
      | Some tablet =>
          if decide (tablet ∈ held) then None
          else
            match lock_related env rest ({[tablet]} ∪ held) with
            | Some (related_tablets, held') =>
                Some (tablet :: related_tablets, held')
            | None => None
            end
      | None => lock_related env rest held
      end
  end.

(** The second loop: [release_header_lock] on every tablet of
    [related_tablets]. *)
Definition release_related (related_tablets : list TabletPtr)
    (held : gset TabletPtr) : gset TabletPtr :=
  fold_left (fun h tablet => h ∖ {[tablet]}) related_tablets held.

(** One locked block: lock, run [step] (prepare or finish), release. *)
Definition locked_block (step : Env -> OLAPStatus * Env) (ev : Event)
    (env : Env) (held : gset TabletPtr)
    : option (OLAPStatus * Env * gset TabletPtr * list Event) :=
  match lock_related env (sort_tablet_infos (get_related_tablets env)) held with
  | None => None
  | Some (related_tablets, held1) =>
      let '(st, env1) := step env in
      Some (st, env1, release_related related_tablets held1,
            map EvObtainHeaderWrlock related_tablets
              ++ ev :: map EvReleaseHeaderLock related_tablets)
  end.

Definition execute_task (env : Env) (held : gset TabletPtr)
    : option (Run Env) :=
  match locked_block prepare EvPrepare env held with
  | None => None
  | Some (prepare_status, env1, held1, tr1) =>
      if is_success prepare_status then
        let '(exec_status, env2) := execute env1 in
        if is_success exec_status then
          match locked_block finish EvFinish env2 held1 with
          | None => None
          | Some (fin_status, env3, held3, tr3) =>
              Some (mkRun fin_status env3 held3 (tr1 ++ EvExecute :: tr3))
          end
        else Some (mkRun exec_status env2 held1 (tr1 ++ [EvExecute]))
      else Some (mkRun prepare_status env1 held1 tr1)
  end.

(** The tablets a list of infos resolves to, in order. *)
Definition resolved (env : Env) (tablet_infos : list TabletInfo)
    : list TabletPtr :=
  omap (fun ti => get_tablet env (fst ti) (snd ti)) tablet_infos.

(** *** The sort *)

Lemma insert_sorted_perm x l : Permutation (insert_sorted x l) (x :: l).
Proof.
  induction l as [|y rest IH]; cbn [insert_sorted]; [reflexivity|].
  destruct (tablet_info_lt y x); [|reflexivity].
  rewrite IH. apply perm_swap.
Qed.

(** Sorting keeps the related tablets, each as often as it was listed. *)
Lemma sort_tablet_infos_perm l : Permutation (sort_tablet_infos l) l.
Proof.
  induction l as [|x l IH]; [reflexivity|].
  unfold sort_tablet_infos in *. cbn [fold_right].
  now rewrite insert_sorted_perm, IH.
Qed.

(** *** Locks taken are locks released *)

Lemma resolved_cons env ti rest :
  resolved env (ti :: rest)
  = match get_tablet env (fst ti) (snd ti) with
    | Some t => t :: resolved env rest
    | None => resolved env rest
    end.
Proof. reflexivity. Qed.

Lemma lock_related_spec env tablet_infos held related held1 :
  lock_related env tablet_infos held = Some (related, held1) ->
  related = resolved env tablet_infos
  /\ held1 = list_to_set related ∪ held
  /\ NoDup related
  /\ (forall t, t ∈ related -> t ∉ held).
Proof.
  revert held related held1.
  induction tablet_infos as [|ti rest IH]; intros held related held1 H.
  - cbn in H. injection H as <- <-.
    split_and!; [done|set_solver|constructor|set_solver].
  - cbn [lock_related] in H. rewrite resolved_cons.
    destruct (get_tablet env ti.1 ti.2) as [t|]; [|by apply IH].
    destruct (decide (t ∈ held)) as [|Hfree]; [discriminate|].
    destruct (lock_related env rest ({[t]} ∪ held)) as [[ts h]|] eqn:Hrest;
      [|discriminate].
    injection H as <- <-.
    destruct (IH _ _ _ Hrest) as (-> & -> & Hnd & Hdisj).
    split_and!.
    + done.
    + set_solver.
    + constructor; [|done]. intros Hin. apply Hdisj in Hin. set_solver.
    + intros x Hx. apply elem_of_cons in Hx as [-> |Hx]; [done|].
      apply Hdisj in Hx. set_solver.
Qed.

Lemma release_related_spec related held :
  release_related related held = held ∖ list_to_set related.
Proof.
  unfold release_related. revert held.
  induction related as [|t ts IH]; intros held; cbn [fold_left].
  - set_solver.
  - rewrite IH. set_solver.
Qed.

Lemma lock_then_release env tablet_infos held related held1 :
  lock_related env tablet_infos held = Some (related, held1) ->
  release_related related held1 = held.
Proof.
  intros H. apply lock_related_spec in H as (_ & -> & _ & Hdisj).
  rewrite release_related_spec. set_solver.
Qed.

(** Locking goes through whenever the related tablets resolve to distinct
    objects none of whose header locks is held. *)
Lemma lock_related_total env tablet_infos held :
  NoDup (resolved env tablet_infos) ->
  (forall t, t ∈ resolved env tablet_infos -> t ∉ held) ->
  lock_related env tablet_infos held
  = Some (resolved env tablet_infos,
          list_to_set (resolved env tablet_infos) ∪ held).
Proof.
  revert held. induction tablet_infos as [|ti rest IH]; intros held Hnd Hfree.
  - cbn. f_equal. f_equal. set_solver.
  - rewrite resolved_cons in *. cbn [lock_related].
    destruct (get_tablet env ti.1 ti.2) as [t|]; [|by apply IH].
    apply NoDup_cons in Hnd as [Hnotin Hnd].
    destruct (decide (t ∈ held)) as [Hin|_].
    { exfalso. apply (Hfree t); [apply elem_of_cons; by left|done]. }
    rewrite IH; [|done|].
    + f_equal. f_equal. set_solver.
    + intros x Hx. assert (x ∉ held) by (apply Hfree, elem_of_cons; by right).
      set_solver.
Qed.

Lemma block_trace_events ev related e :
  In e (map EvObtainHeaderWrlock related
          ++ ev :: map EvReleaseHeaderLock related)
  <-> (exists t, In t related /\ e = EvObtainHeaderWrlock t)
      \/ e = ev
      \/ (exists t, In t related /\ e = EvReleaseHeaderLock t).
Proof.
  rewrite in_app_iff. cbn [In]. rewrite !in_map_iff.
  split.
  - intros [(t & <- & Hin)|[<-|(t & <- & Hin)]]; eauto.
  - intros [(t & Hin & ->)|[->|(t & Hin & ->)]]; eauto.
Qed.

(** *** The contract *)

(** C2. Task atomicity under failure.  Take a task whose header locks were
    all obtained (so [prepare] is called) and whose [prepare] returns a
    status other than success.  Then [execute_task] returns exactly that
    status; the calls it made are the lock acquisitions, [prepare], and one
    release per acquired lock -- [execute] and [finish] are not among them
    and the state is the one [prepare] left; and the set of held header
    write-locks is what it was on entry. *)
Theorem failed_prepare_returns_and_unlocks env held related held1 st env1 :
  lock_related env (sort_tablet_infos (get_related_tablets env)) held
    = Some (related, held1) ->
  prepare env = (st, env1) ->
  st <> OLAP_SUCCESS ->
  exists r,
    execute_task env held = Some r
    /\ status r = st
    /\ env_after r = env1
    /\ held_after r = held
    /\ trace r = map EvObtainHeaderWrlock related
                   ++ EvPrepare :: map EvReleaseHeaderLock related
    /\ ~ In EvExecute (trace r)
    /\ ~ In EvFinish (trace r)
    /\ (forall t, In (EvObtainHeaderWrlock t) (trace r) ->
                  In (EvReleaseHeaderLock t) (trace r)).
Proof.
  intros Hlock Hprep Hfail.
  unfold execute_task, locked_block. rewrite Hlock, Hprep.
  apply is_success_false in Hfail. rewrite Hfail.
  eexists. split; [reflexivity|]. cbn [status env_after held_after trace].
  split_and!; try reflexivity.
  - eapply lock_then_release, Hlock.
  - intros H. apply block_trace_events in H as [(t & _ & H)|[H|(t & _ & H)]];
      discriminate.
  - intros H. apply block_trace_events in H as [(t & _ & H)|[H|(t & _ & H)]];
      discriminate.
  - intros t H. apply block_trace_events.
    apply block_trace_events in H as [(x & Hin & H)|[H|(x & _ & H)]];
      try discriminate.
    injection H as ->. right. right. eauto.
Qed.

End Exec.

(** *** A concrete task *)

(** A task over tablets 7, 3 and 9; tablet 3 is not in the directory.  The
    state counts the calls made to the task. *)
Definition directory_without_3 (_ : Z) (tablet_id _ : Z) : option TabletPtr :=
  if tablet_id =? 3 then None else Some (Z.to_pos tablet_id).

Definition three_tablets (_ : Z) : list TabletInfo := [(7, 1); (3, 1); (9, 1)].

Definition failing_prepare (calls : Z) : OLAPStatus * Z :=
  (OLAP_ERR_OTHER (-1), calls + 1).

Definition counting_step (calls : Z) : OLAPStatus * Z :=
  (OLAP_SUCCESS, calls + 1).

Lemma failed_prepare_returns_and_unlocks_witness :
  OLAP_ERR_OTHER (-1) <> OLAP_SUCCESS
  /\ exists r,
       execute_task Z directory_without_3 three_tablets failing_prepare
         counting_step counting_step 0 ∅ = Some r
       /\ status r = OLAP_ERR_OTHER (-1)
       /\ env_after r = 1
       /\ held_after r = ∅
       /\ trace r = map EvObtainHeaderWrlock [7; 9]%positive
                      ++ EvPrepare :: map EvReleaseHeaderLock [7; 9]%positive
       /\ ~ In EvExecute (trace r)
       /\ ~ In EvFinish (trace r)
       /\ (forall t, In (EvObtainHeaderWrlock t) (trace r) ->
                     In (EvReleaseHeaderLock t) (trace r)).
Proof.
  split; [discriminate|].
  apply (failed_prepare_returns_and_unlocks Z directory_without_3
           three_tablets failing_prepare counting_step counting_step
           0 ∅ [7; 9]%positive ({[7%positive; 9%positive]})
           (OLAP_ERR_OTHER (-1)) 1).
  - reflexivity.
  - reflexivity.
  - discriminate.
Defined.

End TaskExec.

(** ** Trash and snapshot sweeper *)
Module Trash.

Inductive TStorageMedium : Type := HDD | SSD.

(** [DataDirInfo] (olap_common.h); capacities are [int64_t] byte counts. *)
Record DataDirInfo : Type := mkDataDirInfo {
  path : string;
  capacity : Z;
  data_used_capacity : Z;
  available : Z;
  storage_medium : TStorageMedium;
  is_used : bool
}.

(** What [get_all_data_dir_info] asks of a store: [get_dir_info()] and
    [storage_medium()]. *)
Record DataDir : Type := mkDataDir {
  get_dir_info : DataDirInfo;
  dir_storage_medium : TStorageMedium
}.

(** An item of a [directory_iterator]: [item->path().string()] and
    [item->path().filename().string()]. *)
Record DirEntry : Type := mkDirEntry {
  path_name : string;
  dir_name : string
}.

(** [dir_name.substr(0, dir_name.find('.'))]: the name up to its first dot,
    the whole name when it has none. *)
Fixpoint before_dot (s : string) : string :=
  match s with
  | EmptyString => EmptyString
  | String c rest =>
      if Ascii.eqb c "."%char then EmptyString else String c (before_dot rest)
  end.

(** [uint32_t] conversion of the expiry settings. *)
Definition wrap32 (z : Z) : Z := z mod 2 ^ 32.

(** The state of a run of the sweep loop, and what it did: every
    [_do_sweep] call with its expiry argument, and every path handed to
    [remove_all_dir]. *)
Record Sweep (double FS : Type) : Type := mkSweep {
  res : OLAPStatus;
  usage : double;
  fs : FS;
  sweeps : list (string * Z);
  removals : list string
}.
Arguments mkSweep {double FS}.
Arguments res {double FS}.
Arguments usage {double FS}.
Arguments fs {double FS}.
Arguments sweeps {double FS}.
Arguments removals {double FS}.

Section Sweeper.

(** IEEE doubles: conversion from an integer, division, and [>]. *)
Variable double : Type.
Variable d_of_int : Z -> double.
Variable ddiv : double -> double -> double.
Variable dgt : double -> double -> bool.

(** The file system: [check_dir_existed], the items a [directory_iterator]
    over a directory yields together with whether the iteration ends
    normally ([false]: it throws), and [remove_all_dir]. *)
Variable FS : Type.
Variable check_dir_existed : FS -> string -> bool.
Variable directory_entries : FS -> string -> list DirEntry * bool.
Variable remove_all_dir : FS -> string -> OLAPStatus * FS.

(** The C library: broken-down time, [localtime_r], [mktime], and
    [strptime] with the format "%Y%m%d%H%M%S". *)
Variable tm : Type.
Variable localtime_r : Z -> option tm.
Variable mktime : tm -> Z.
Variable strptime : string -> option tm.

(** Settings and constants declared in config.h and olap_define.h. *)
Variable snapshot_expire_time_sec : Z.
Variable trash_file_expire_time_sec : Z.
Variable disk_capacity_insufficient_percentage : Z.
Variable SNAPSHOT_PREFIX : string.
Variable TRASH_PREFIX : string.

(** [TabletManager::update_root_path_info] and the disk-space query
    [boost::filesystem::space(path).available] ([None]: it throws). *)
Variable update_root_path_info :
  list (string * DataDirInfo) -> list (string * DataDirInfo).
Variable space_available : string -> option Z.

Definition _get_path_available_capacity (root_path : string)
    (disk_available : Z) : OLAPStatus * Z :=
  match space_available root_path with
  | Some a => (OLAP_SUCCESS, a)
  | None => (OLAP_ERR_STL_ERROR, disk_available)
  end.

(** The entry [get_all_data_dir_info] puts in [path_map] for a store. *)
Definition path_map_entry (d : DataDir) : DataDirInfo :=
  let i := get_dir_info d in
  if is_used i then
    mkDataDirInfo (path i) (capacity i) (data_used_capacity i) (available i)
                  (dir_storage_medium d) (is_used i)
  else mkDataDirInfo (path i) 1 0 0 HDD (is_used i).

Definition refresh_available (info : DataDirInfo) : DataDirInfo :=
  if is_used info then
    mkDataDirInfo (path info) (capacity info) (data_used_capacity info)
                  (snd (_get_path_available_capacity (path info)
                                                     (available info)))
                  (storage_medium info) (is_used info)
  else info.

Definition get_all_data_dir_info (_store_map : list (string * DataDir))
    : OLAPStatus * list DataDirInfo :=
  let path_map := map (fun kv => (fst kv, path_map_entry (snd kv))) _store_map in
  let path_map := update_root_path_info path_map in
  (OLAP_SUCCESS, map (fun kv => refresh_available (snd kv)) path_map).

(** The loop of [_do_sweep] over the items of the directory. *)
Fixpoint sweep_entries (f : FS) (items : list DirEntry) (local_now expire : Z)
    (r : OLAPStatus) : OLAPStatus * FS * list string :=
  match items with
  | [] => (r, f, [])
  | item :: rest =>
      let str_time := before_dot (dir_name item) in
      match strptime str_time with
      | None => sweep_entries f rest local_now expire OLAP_ERR_OS_ERROR
      | Some local_tm_create =>
          if local_now - mktime local_tm_create >=? expire then
            let '(st, f1) := remove_all_dir f (path_name item) in
            let '(r', f2, removed) :=
              sweep_entries f1 rest local_now expire
                (if is_success st then r else OLAP_ERR_OS_ERROR) in
            (r', f2, path_name item :: removed)
          else sweep_entries f rest local_now expire r
      end
  end.

Definition _do_sweep (f : FS) (scan_root : string) (local_now expire : Z)
    : OLAPStatus * FS * list string :=
  if check_dir_existed f scan_root then
    let '(items, completes) := directory_entries f scan_root in
    let '(r, f', removed) :=
      sweep_entries f items local_now expire OLAP_SUCCESS in
    (if completes then r else OLAP_ERR_IO_ERROR, f', removed)
  else (OLAP_SUCCESS, f, []).

Definition snapshot_expire : Z := wrap32 snapshot_expire_time_sec.
Definition trash_expire : Z := wrap32 trash_file_expire_time_sec.
Definition guard_space : double :=
  ddiv (d_of_int disk_capacity_insufficient_percentage) (d_of_int 100).

(** [(info.capacity - info.available) / (double) info.capacity]; the
    subtraction is the exact one of two [int64_t] byte counts. *)
Definition curr_usage (info : DataDirInfo) : double :=
  ddiv (d_of_int (capacity info - available info)) (d_of_int (capacity info)).

(** The expiry the trash directory of a volume is swept with. *)
Definition trash_expire_for (info : DataDirInfo) : Z :=
  if dgt (curr_usage info) guard_space then 0 else trash_expire.

(** Body of the loop of [start_trash_sweep]. *)
Definition sweep_volume (local_now : Z) (s : Sweep double FS)
    (info : DataDirInfo) : Sweep double FS :=
  if is_used info then
    let u := curr_usage info in
    let usage' := if dgt (usage s) u then usage s else u in
    let snapshot_path := String.append (path info) SNAPSHOT_PREFIX in
    let '(curr_res, f1, removed1) :=
      _do_sweep (fs s) snapshot_path local_now snapshot_expire in
    let res1 := if is_success curr_res then res s else curr_res in
    let trash_path := String.append (path info) TRASH_PREFIX in
    let '(curr_res2, f2, removed2) :=
      _do_sweep f1 trash_path local_now (trash_expire_for info) in
    let res2 := if is_success curr_res2 then res1 else curr_res2 in
    mkSweep res2 usage' f2
            (sweeps s ++ [(snapshot_path, snapshot_expire);
                          (trash_path, trash_expire_for info)])
            (removals s ++ removed1 ++ removed2)
  else s.

(** [start_trash_sweep(double* usage)]: [usage0] is the value behind the
    pointer on entry, [now] is [time(NULL)].  The closing call of
    [TabletManager::start_trash_sweep] works on the tablet directory and is
    not part of this state. *)
Definition start_trash_sweep (_store_map : list (string * DataDir))
    (usage0 : double) (f : FS) (now : Z) : Sweep double FS :=
  let '(r, data_dir_infos) := get_all_data_dir_info _store_map in
  if is_success r then
    match localtime_r now with
    | None => mkSweep OLAP_ERR_OS_ERROR usage0 f [] []
    | Some local_tm_now =>
        let local_now := mktime local_tm_now in
        fold_left (sweep_volume local_now) data_dir_infos
                  (mkSweep OLAP_SUCCESS usage0 f [] [])
    end
  else mkSweep r usage0 f [] [].

(** *** What a directory sweep removes *)

(** The age test of [_do_sweep]: the timestamp parses and lies at least
    [expire] seconds before [local_now]. *)
Definition aged_at_least (local_now expire : Z) (item : DirEntry) : bool :=
  match strptime (before_dot (dir_name item)) with
  | Some local_tm_create => local_now - mktime local_tm_create >=? expire
  | None => false
  end.

Lemma sweep_entries_removed f items local_now expire r :
  snd (sweep_entries f items local_now expire r)
  = map path_name (List.filter (aged_at_least local_now expire) items).
Proof.
  revert f r. induction items as [|item rest IH]; intros f r; [reflexivity|].
  cbn [sweep_entries List.filter]. unfold aged_at_least at 1.
  destruct (strptime (before_dot (dir_name item))) as [c|]; [|apply IH].
  destruct (local_now - mktime c >=? expire); [|apply IH].
  destruct (remove_all_dir f (path_name item)) as [st f1].
  specialize (IH f1 (if is_success st then r else OLAP_ERR_OS_ERROR)).
  destruct (sweep_entries f1 rest local_now expire
              (if is_success st then r else OLAP_ERR_OS_ERROR))
    as [[r' f2] removed].
  cbn [snd map] in *. now rewrite IH.
Qed.

Lemma do_sweep_removed f scan_root local_now expire :
  snd (_do_sweep f scan_root local_now expire)
  = if check_dir_existed f scan_root
    then map path_name
           (List.filter (aged_at_least local_now expire)
                        (fst (directory_entries f scan_root)))
    else [].
Proof.
  unfold _do_sweep. destruct (check_dir_existed f scan_root); [|reflexivity].
  destruct (directory_entries f scan_root) as [items completes].
  pose proof (sweep_entries_removed f items local_now expire OLAP_SUCCESS) as H.
  destruct (sweep_entries f items local_now expire OLAP_SUCCESS)
    as [[r f'] removed]. exact H.
Qed.

(** *** The loop over the volumes *)

(** The two sweeps made for a used volume. *)
Definition volume_sweeps (info : DataDirInfo) : list (string * Z) :=
  [(String.append (path info) SNAPSHOT_PREFIX, snapshot_expire);
   (String.append (path info) TRASH_PREFIX, trash_expire_for info)].

Lemma sweep_volume_sweeps local_now s info :
  sweeps (sweep_volume local_now s info)
  = sweeps s ++ (if is_used info then volume_sweeps info else []).
Proof.
  unfold sweep_volume. destruct (is_used info); [|now rewrite app_nil_r].
  destruct (_do_sweep (fs s) _ local_now snapshot_expire) as [[r1 f1] rm1].
  destruct (_do_sweep f1 _ local_now (trash_expire_for info)) as [[r2 f2] rm2].
  reflexivity.
Qed.

Lemma sweep_volume_usage local_now s info :
  usage (sweep_volume local_now s info)
  = if is_used info
    then if dgt (usage s) (curr_usage info) then usage s else curr_usage info
    else usage s.
Proof.
  unfold sweep_volume. destruct (is_used info); [|reflexivity].
  destruct (_do_sweep (fs s) _ local_now snapshot_expire) as [[r1 f1] rm1].
  destruct (_do_sweep f1 _ local_now (trash_expire_for info)) as [[r2 f2] rm2].
  reflexivity.
Qed.

Lemma loop_sweeps local_now infos s :
  sweeps (fold_left (sweep_volume local_now) infos s)
  = sweeps s ++ flat_map volume_sweeps (List.filter is_used infos).
Proof.
  revert s. induction infos as [|info rest IH]; intros s.
  - cbn. now rewrite app_nil_r.
  - cbn [fold_left List.filter]. rewrite IH, sweep_volume_sweeps.
    destruct (is_used info).
    + cbn [flat_map]. now rewrite <- app_assoc.
    + now rewrite app_nil_r.
Qed.

(** The running maximum as the loop computes it. *)
Definition keep_larger (u v : double) : double := if dgt u v then u else v.

Lemma loop_usage local_now infos s :
  usage (fold_left (sweep_volume local_now) infos s)
  = fold_left keep_larger (map curr_usage (List.filter is_used infos))
              (usage s).
Proof.
  revert s. induction infos as [|info rest IH]; intros s; [reflexivity|].
  cbn [fold_left List.filter]. rewrite IH, sweep_volume_usage.
  destruct (is_used info); reflexivity.
Qed.

Lemma start_trash_sweep_loop _store_map usage0 f now local_tm_now :
  localtime_r now = Some local_tm_now ->
  start_trash_sweep _store_map usage0 f now
  = fold_left (sweep_volume (mktime local_tm_now))
              (snd (get_all_data_dir_info _store_map))
              (mkSweep OLAP_SUCCESS usage0 f [] []).
Proof. intros H. unfold start_trash_sweep. cbn. now rewrite H. Qed.

End Sweeper.

(** *** A concrete disk and clock *)

(** Seconds since the epoch of a civil date and time (UTC). *)
Definition civil_seconds (y m d hh mm ss : Z) : Z :=
  let y' := if m <=? 2 then y - 1 else y in
  let era := y' / 400 in
  let yoe := y' - era * 400 in
  let doy := (153 * (if m <=? 2 then m + 9 else m - 3) + 2) / 5 + d - 1 in
  let doe := yoe * 365 + yoe / 4 - yoe / 100 + doy in
  (era * 146097 + doe - 719468) * 86400 + hh * 3600 + mm * 60 + ss.

Definition digit_of (c : ascii) : option Z :=
  let n := Z.of_nat (nat_of_ascii c) in
  if (48 <=? n) && (n <=? 57) then Some (n - 48) else None.

(** Reads [n] decimal digits off the front of [s]. *)
Fixpoint read_digits (n : nat) (s : string) (acc : Z) : option (Z * string) :=
  match n with
  | O => Some (acc, s)
  | S k =>
      match s with
      | EmptyString => None
      | String c rest =>
          match digit_of c with
          | Some d => read_digits k rest (acc * 10 + d)
          | None => None
          end
      end
  end.

(** [strptime] with "%Y%m%d%H%M%S" followed by [mktime], in UTC. *)
Definition parse_stamp (s : string) : option Z :=
  match read_digits 4 s 0 with
  | Some (y, s1) =>
      match read_digits 2 s1 0 with
      | Some (m, s2) =>
          match read_digits 2 s2 0 with
          | Some (d, s3) =>
              match read_digits 2 s3 0 with
              | Some (hh, s4) =>
                  match read_digits 2 s4 0 with
                  | Some (mm, s5) =>
                      match read_digits 2 s5 0 with
                      | Some (ss, _) => Some (civil_seconds y m d hh mm ss)
                      | None => None
                      end
                  | None => None
                  end
              | None => None
              end
          | None => None
          end
      | None => None
      end
  | None => None
  end.

(** Directories as lists of items; removal always succeeds. *)
Definition Disk : Type := list (string * list DirEntry).

Definition disk_has_dir (f : Disk) (p : string) : bool :=
  existsb (fun kv => String.eqb (fst kv) p) f.

Definition disk_items (f : Disk) (p : string) : list DirEntry * bool :=
  (concat (map snd (List.filter (fun kv => String.eqb (fst kv) p) f)), true).

Definition disk_remove (f : Disk) (p : string) : OLAPStatus * Disk :=
  (OLAP_SUCCESS,
   map (fun kv =>
          (fst kv,
           List.filter (fun i => negb (String.eqb (path_name i) p)) (snd kv)))
       f).

Definition volume (p : string) (cap avail : Z) (used : bool)
    : string * DataDir :=
  (p, mkDataDir (mkDataDirInfo p cap 0 avail HDD used) HDD).

(** 2019-01-04 00:00:00. *)
Definition jan_4 : Z := civil_seconds 2019 1 4 0 0 0.

End Trash.

(** ** Recovery: loading a volume *)
Module Loader.

(** [RowsetStatePB] (olap_file.proto). *)
Inductive RowsetStatePB : Type := PREPARED | COMMITTED | VISIBLE.

(** What the loader reads from a deserialized rowset meta. *)
Record RowsetMeta : Type := mkRowsetMeta {
  rowset_id : Z;
  tablet_id : Z;
  tablet_schema_hash : Z;
  partition_id : Z;
  txn_id : Z;
  load_id : Z * Z;
  rowset_state : RowsetStatePB;
  rowset_path : string
}.

(** The two key prefixes of the tablet-meta column family. *)
Inductive HeaderPrefix : Type := HEADER_PREFIX | OLD_HEADER_PREFIX.

(** A traversal of the meta store hands every entry to [func] until [func]
    returns [false]. *)
Fixpoint visit_until_stop {K S : Type} (func : K -> S -> bool * S)
    (entries : list K) (s : S) : S :=
  match entries with
  | [] => s
  | e :: rest =>
      let '(go_on, s') := func e s in
      if go_on then visit_until_stop func rest s' else s'
  end.

(** The state a volume load works on is the volume's meta store
    ([OlapMeta], on disk), the tablet directory ([TabletManager]) and the
    transaction reconciler ([TxnManager]).  These classes, and the other
    collaborators of the loader, are defined in other files; the interface
    below lists the operations the loader calls, each typed by the state the
    loader's contract lets it change. *)
Class Collaborators : Type := {
  (** the meta store, the tablet directory, the transaction reconciler *)
  M : Type;
  TM : Type;
  XM : Type;
  (** [TabletSharedPtr] and [RowsetSharedPtr] *)
  Tablet : Type;
  Rowset : Type;
  (** the protobuf messages of the conversion *)
  OLAPHeaderMessage : Type;
  TabletMetaPB : Type;
  RowsetMetaPB : Type;
  (** [OlapMeta] *)
  get_tablet_convert_finished : M -> OLAPStatus * bool;
  set_tablet_convert_finished : M -> OLAPStatus * M;
  (** [TabletMetaManager]: the entries a traversal under a prefix yields,
      the status the traversal returns, [save] and [remove] *)
  header_entries : M -> HeaderPrefix -> list (Z * Z * string);
  headers_status : M -> HeaderPrefix -> OLAPStatus;
  TabletMetaManager_save : M -> Z -> Z -> string -> OLAPStatus * M;
  TabletMetaManager_remove : M -> Z -> Z -> HeaderPrefix -> OLAPStatus * M;
  (** [RowsetMetaManager] *)
  rowset_meta_entries : M -> list (Z * string);
  rowset_metas_status : M -> OLAPStatus;
  RowsetMetaManager_save : M -> Z -> string -> OLAPStatus * M;
  RowsetMetaManager_remove : M -> Z -> OLAPStatus * M;
  (** parsing and serialization of the messages, and
      [OlapSnapshotConverter::to_new_snapshot], which links the converted
      files on the volume *)
  parse_olap_header : string -> option OLAPHeaderMessage;
  to_new_snapshot :
    M -> OLAPHeaderMessage -> OLAPStatus * M * TabletMetaPB * list RowsetMetaPB;
  rowset_pb_id : RowsetMetaPB -> Z;
  serialize_rowset_pb : RowsetMetaPB -> string;
  tablet_pb_id : TabletMetaPB -> Z * Z;
  serialize_tablet_pb : TabletMetaPB -> string;
  parse_rowset_meta : string -> option RowsetMeta;
  (** [TabletManager], [RowsetFactory], [TxnManager] and [Tablet] *)
  load_tablet_from_meta : M -> TM -> Z -> Z -> string -> OLAPStatus * TM;
  get_tablet : TM -> Z -> Z -> option Tablet;
  load_rowset : M -> Tablet -> RowsetMeta -> OLAPStatus * Rowset;
  commit_txn :
    M -> XM -> Z -> Z -> Z -> Z -> Z * Z -> Rowset -> bool -> OLAPStatus * XM;
  add_inc_rowset : TM -> Tablet -> Rowset -> OLAPStatus * TM
}.

Section Load.

Context {C : Collaborators}.

Record World : Type := mkWorld {
  meta : M;
  tablet_mgr : TM;
  txn_mgr : XM
}.

(** The calls a load makes to the steps and collaborators the contracts
    speak about. *)
Inductive Event : Type :=
  | EvCleanUnfinishedConvertingData
  | EvConvertOldTablet
  | EvSetTabletConvertFinished
  | EvLoadTabletFromMeta (tablet_id schema_hash : Z)
  | EvCommitTxn (partition_id txn_id tablet_id schema_hash : Z)
                (load_id : Z * Z) (rowset : Rowset) (is_recovery : bool)
  | EvAddIncRowset (tablet : Tablet) (rowset : Rowset).

Definition traverse_headers {S : Type} (m : M)
    (func : Z * Z * string -> S -> bool * S) (prefix : HeaderPrefix) (s : S)
    : OLAPStatus * S :=
  (headers_status m prefix, visit_until_stop func (header_entries m prefix) s).

Definition traverse_rowset_metas {S : Type} (m : M)
    (func : Z * string -> S -> bool * S) (s : S) : OLAPStatus * S :=
  (rowset_metas_status m, visit_until_stop func (rowset_meta_entries m) s).

(** The loop of [convert_tablet_func] that writes the pending rowsets;
    [false] as soon as a save fails. *)
Fixpoint save_pending_rowsets (pending_rowsets : list RowsetMetaPB) (m : M)
    : bool * M :=
  match pending_rowsets with
  | [] => (true, m)
  | rowset_pb :: rest =>
      let '(status, m') :=
        RowsetMetaManager_save m (rowset_pb_id rowset_pb)
                               (serialize_rowset_pb rowset_pb) in
      if is_success status then save_pending_rowsets rest m' else (false, m')
  end.

Definition convert_tablet_func (entry : Z * Z * string) (m : M) : bool * M :=
  match parse_olap_header (snd entry) with
  | None => (false, m)
  | Some olap_header_msg =>
      let '(status, m1, tablet_meta_pb, pending_rowsets) :=
        to_new_snapshot m olap_header_msg in
      if is_success status then
        let '(saved, m2) := save_pending_rowsets pending_rowsets m1 in
        if saved then
          let '(st, m3) :=
            TabletMetaManager_save m2 (fst (tablet_pb_id tablet_meta_pb))
              (snd (tablet_pb_id tablet_meta_pb))
              (serialize_tablet_pb tablet_meta_pb) in
          (is_success st, m3)
        else (false, m2)
      else (false, m1)
  end.

Definition _convert_old_tablet (m : M) : OLAPStatus * M :=
  traverse_headers m convert_tablet_func OLD_HEADER_PREFIX m.

Definition _clean_unfinished_converting_data (m : M) : OLAPStatus * M :=
  let '(_, m1) :=
    traverse_headers m
      (fun entry s =>
         (true, snd (TabletMetaManager_remove s (fst (fst entry))
                                              (snd (fst entry)) HEADER_PREFIX)))
      HEADER_PREFIX m in
  let '(_, m2) :=
    traverse_rowset_metas m1
      (fun entry s => (true, snd (RowsetMetaManager_remove s (fst entry))))
      m1 in
  (OLAP_SUCCESS, m2).

(** [load_rowset_func]: a meta that does not parse is skipped. *)
Definition load_rowset_func (entry : Z * string)
    (dir_rowset_metas : list RowsetMeta) : bool * list RowsetMeta :=
  match parse_rowset_meta (snd entry) with
  | None => (true, dir_rowset_metas)
  | Some rowset_meta => (true, dir_rowset_metas ++ [rowset_meta])
  end.

(** [load_tablet_func]: a tablet that fails to load is skipped. *)
Definition load_tablet_func (m : M) (entry : Z * Z * string)
    (s : TM * list Event) : bool * (TM * list Event) :=
  let '(tablet_id, schema_hash, value) := entry in
  let '(_, t') := load_tablet_from_meta m (fst s) tablet_id schema_hash value in
  (true, (t', snd s ++ [EvLoadTabletFromMeta tablet_id schema_hash])).

(** Body of the reconciliation loop over [dir_rowset_metas]. *)
Definition reconcile_one (w : World) (rowset_meta : RowsetMeta)
    : World * list Event :=
  match get_tablet (tablet_mgr w) (tablet_id rowset_meta)
                   (tablet_schema_hash rowset_meta) with
  | None => (w, [])
  | Some tablet =>
      let '(create_status, rowset) := load_rowset (meta w) tablet rowset_meta in
      if is_success create_status then
        match rowset_state rowset_meta with
        | COMMITTED =>
            let '(_, x') :=
              commit_txn (meta w) (txn_mgr w) (partition_id rowset_meta)
                (txn_id rowset_meta) (tablet_id rowset_meta)
                (tablet_schema_hash rowset_meta) (load_id rowset_meta)
                rowset true in
            (mkWorld (meta w) (tablet_mgr w) x',
             [EvCommitTxn (partition_id rowset_meta) (txn_id rowset_meta)
                (tablet_id rowset_meta) (tablet_schema_hash rowset_meta)
                (load_id rowset_meta) rowset true])
        | VISIBLE =>
            let '(_, t') := add_inc_rowset (tablet_mgr w) tablet rowset in
            (mkWorld (meta w) t' (txn_mgr w), [EvAddIncRowset tablet rowset])
        | PREPARED => (w, [])
        end
      else (w, [])
  end.

Fixpoint reconcile (w : World) (dir_rowset_metas : list RowsetMeta)
    : World * list Event :=
  match dir_rowset_metas with
  | [] => (w, [])
  | rowset_meta :: rest =>
      let '(w1, evs1) := reconcile_one w rowset_meta in
      let '(w2, evs2) := reconcile w1 rest in
      (w2, evs1 ++ evs2)
  end.

(** The rowset metas the second step of the load collects. *)
Definition collect_rowset_metas (m : M) : list RowsetMeta :=
  snd (traverse_rowset_metas m load_rowset_func []).

(** The third step: every tablet meta is loaded into the directory. *)
Definition load_tablets (w : World) : TM * list Event :=
  snd (traverse_headers (meta w) (load_tablet_func (meta w)) HEADER_PREFIX
                        (tablet_mgr w, [])).

(** The state the reconciliation loop starts from. *)
Definition tablets_loaded (w : World) : World :=
  mkWorld (meta w) (fst (load_tablets w)) (txn_mgr w).

(** The part of [_load_data_dir] after the conversion gate. *)
Definition load_from_meta (w : World) : OLAPStatus * World * list Event :=
  let dir_rowset_metas := collect_rowset_metas (meta w) in
  let '(w2, evs2) := reconcile (tablets_loaded w) dir_rowset_metas in
  (OLAP_SUCCESS, w2, snd (load_tablets w) ++ evs2).

Definition _load_data_dir (w : World) : OLAPStatus * World * list Event :=
  let '(res, is_tablet_convert_finished) :=
    get_tablet_convert_finished (meta w) in
  if is_success res then
    if is_tablet_convert_finished then load_from_meta w
    else
      let '(_, m1) := _clean_unfinished_converting_data (meta w) in
      let '(res2, m2) := _convert_old_tablet m1 in
      if is_success res2 then
        let '(res3, m3) := set_tablet_convert_finished m2 in
        if is_success res3 then
          let '(st, w', evs) :=
            load_from_meta (mkWorld m3 (tablet_mgr w) (txn_mgr w)) in
          (st, w',
           EvCleanUnfinishedConvertingData :: EvConvertOldTablet
             :: EvSetTabletConvertFinished :: evs)
        else (res3, mkWorld m3 (tablet_mgr w) (txn_mgr w),
              [EvCleanUnfinishedConvertingData; EvConvertOldTablet;
               EvSetTabletConvertFinished])
      else (res2, mkWorld m2 (tablet_mgr w) (txn_mgr w),
            [EvCleanUnfinishedConvertingData; EvConvertOldTablet])
  else (res, w, []).

(** The events of the conversion phase. *)
Definition conversion_event (e : Event) : bool :=
  match e with
  | EvCleanUnfinishedConvertingData | EvConvertOldTablet
  | EvSetTabletConvertFinished => true
  | _ => false
  end.

(** *** The reconciliation loop *)

Lemma reconcile_one_meta w rowset_meta :
  meta (fst (reconcile_one w rowset_meta)) = meta w.
Proof.
  unfold reconcile_one.
  destruct (get_tablet _ _ _) as [tablet|]; [|reflexivity].
  destruct (load_rowset _ _ _) as [st rowset].
  destruct (is_success st); [|reflexivity].
  destruct (rowset_state rowset_meta); [reflexivity| |].
  - destruct (commit_txn _ _ _ _ _ _ _ _ _). reflexivity.
  - destruct (add_inc_rowset _ _ _). reflexivity.
Qed.

Lemma reconcile_one_events w rowset_meta e :
  In e (snd (reconcile_one w rowset_meta)) -> conversion_event e = false.
Proof.
  unfold reconcile_one.
  destruct (get_tablet _ _ _) as [tablet|]; [|intros []].
  destruct (load_rowset _ _ _) as [st rowset].
  destruct (is_success st); [|intros []].
  destruct (rowset_state rowset_meta); [intros []| |].
  - destruct (commit_txn _ _ _ _ _ _ _ _ _). intros [<-|[]]. reflexivity.
  - destruct (add_inc_rowset _ _ _). intros [<-|[]]. reflexivity.
Qed.

Lemma reconcile_cons w rowset_meta rest :
  reconcile w (rowset_meta :: rest)
  = (fst (reconcile (fst (reconcile_one w rowset_meta)) rest),
     snd (reconcile_one w rowset_meta)
       ++ snd (reconcile (fst (reconcile_one w rowset_meta)) rest)).
Proof.
  cbn [reconcile]. destruct (reconcile_one w rowset_meta) as [w1 evs1].
  cbn [fst snd]. destruct (reconcile w1 rest). reflexivity.
Qed.

Lemma reconcile_app w before after :
  reconcile w (before ++ after)
  = (fst (reconcile (fst (reconcile w before)) after),
     snd (reconcile w before)
       ++ snd (reconcile (fst (reconcile w before)) after)).
Proof.
  revert w. induction before as [|rm before IH]; intros w.
  - cbn [app reconcile fst snd]. now destruct (reconcile w after).
  - rewrite <- app_comm_cons, !reconcile_cons, IH. cbn [fst snd].
    now rewrite app_assoc.
Qed.

Lemma reconcile_meta w metas : meta (fst (reconcile w metas)) = meta w.
Proof.
  revert w. induction metas as [|rm rest IH]; intros w; [reflexivity|].
  rewrite reconcile_cons. cbn [fst]. now rewrite IH, reconcile_one_meta.
Qed.

Lemma reconcile_events w metas e :
  In e (snd (reconcile w metas)) -> conversion_event e = false.
Proof.
  revert w. induction metas as [|rm rest IH]; intros w; [intros []|].
  rewrite reconcile_cons. cbn [snd]. rewrite in_app_iff.
  intros [H|H]; [eapply reconcile_one_events, H | eapply IH, H].
Qed.

(** *** Loading the tablets *)

Lemma load_tablets_events_from m entries t evs e :
  (forall x, In x evs -> conversion_event x = false) ->
  In e (snd (visit_until_stop (load_tablet_func m) entries (t, evs))) ->
  conversion_event e = false.
Proof.
  revert t evs. induction entries as [|[[id sh] value] rest IH];
    intros t evs Hevs; cbn [visit_until_stop]; [apply Hevs|].
  unfold load_tablet_func at 1. cbn [fst snd].
  destruct (load_tablet_from_meta m t id sh value) as [st t'].
  apply IH. intros x Hx. apply in_app_iff in Hx as [Hx|[<-|[]]];
    [now apply Hevs | reflexivity].
Qed.

Lemma load_tablets_events w e :
  In e (snd (load_tablets w)) -> conversion_event e = false.
Proof.
  unfold load_tablets, traverse_headers. cbn [snd].
  apply load_tablets_events_from. intros x [].
Qed.

(** *** The load after the gate *)

Lemma load_from_meta_spec w :
  load_from_meta w
  = (OLAP_SUCCESS,
     fst (reconcile (tablets_loaded w) (collect_rowset_metas (meta w))),
     snd (load_tablets w)
       ++ snd (reconcile (tablets_loaded w) (collect_rowset_metas (meta w)))).
Proof.
  unfold load_from_meta.
  now destruct (reconcile (tablets_loaded w) (collect_rowset_metas (meta w))).
Qed.

Lemma load_from_meta_keeps_meta w :
  meta (snd (fst (load_from_meta w))) = meta w.
Proof.
  rewrite load_from_meta_spec. cbn [fst snd]. now rewrite reconcile_meta.
Qed.

Lemma load_from_meta_events w e :
  In e (snd (load_from_meta w)) -> conversion_event e = false.
Proof.
  rewrite load_from_meta_spec. cbn [snd]. rewrite in_app_iff.
  intros [H|H]; [eapply load_tablets_events, H | eapply reconcile_events, H].
Qed.

(** A load that finds the flag set is the load after the gate. *)
Lemma load_data_dir_converted w :
  get_tablet_convert_finished (meta w) = (OLAP_SUCCESS, true) ->
  _load_data_dir w = load_from_meta w.
Proof. intros H. unfold _load_data_dir. now rewrite H. Qed.


(** Every registration comes from a COMMITTED meta and carries its keys;
    every attachment comes from a VISIBLE meta. *)
Lemma reconcile_event_origin w metas e :
  In e (snd (reconcile w metas)) ->
  exists rowset_meta,
    In rowset_meta metas
    /\ match e with
       | EvCommitTxn p t tid sh lid _ rec =>
           rowset_state rowset_meta = COMMITTED
           /\ p = partition_id rowset_meta /\ t = txn_id rowset_meta
           /\ tid = tablet_id rowset_meta
           /\ sh = tablet_schema_hash rowset_meta
           /\ lid = load_id rowset_meta /\ rec = true
       | EvAddIncRowset _ _ => rowset_state rowset_meta = VISIBLE
       | _ => False
       end.
Proof.
  revert w. induction metas as [|rm rest IH]; intros w; [intros []|].
  rewrite reconcile_cons. cbn [snd]. rewrite in_app_iff. intros [H|H].
  - exists rm. split; [now left|]. revert H. unfold reconcile_one.
    destruct (get_tablet _ _ _) as [tablet|]; [|intros []].
    destruct (load_rowset _ _ _) as [st rowset].
    destruct (is_success st); [|intros []].
    destruct (rowset_state rm) eqn:Hst; [intros []| |].
    + destruct (commit_txn _ _ _ _ _ _ _ _ _). intros [<-|[]].
      split_and!; reflexivity.
    + destruct (add_inc_rowset _ _ _). intros [<-|[]]. reflexivity.
  - destruct (IH _ H) as (x & Hx & He). exists x. split; [now right|exact He].
Qed.

(** *** The contracts *)

(** C1, as amended.  Take the load of a volume after the conversion gate and
    any rowset meta it collected, at its place in [dir_rowset_metas].  The
    calls of the load are those of the tablet loading, of the metas before
    it, its own, and those of the metas after it; its own are decided by
    the state the loop has reached:
    - owning tablet absent from the directory: no call, state unchanged
      (the rowset meta is not deleted);
    - tablet present but [RowsetFactory::load_rowset] fails: no call, state
      unchanged;
    - rowset created, state COMMITTED: exactly one [commit_txn], keyed by
      the meta's own (partition_id, txn_id), in recovery mode; the directory
      is unchanged;
    - rowset created, state VISIBLE: exactly one [add_inc_rowset] on the
      owning tablet; the reconciler is unchanged;
    - any other state: no call, state unchanged.
    The meta store is the same after every step, and no registration or
    attachment is made for a meta of another state. *)
Theorem reconciliation_by_state w before rowset_meta after :
  collect_rowset_metas (meta w) = before ++ rowset_meta :: after ->
  let w0 := fst (reconcile (tablets_loaded w) before) in
  let step := reconcile_one w0 rowset_meta in
  snd (load_from_meta w)
  = snd (load_tablets w) ++ snd (reconcile (tablets_loaded w) before)
      ++ snd step ++ snd (reconcile (fst step) after)
  /\ meta (fst step) = meta w
  /\ match get_tablet (tablet_mgr w0) (tablet_id rowset_meta)
                      (tablet_schema_hash rowset_meta) with
     | None => step = (w0, [])
     | Some tablet =>
         let created := load_rowset (meta w) tablet rowset_meta in
         if is_success (fst created) then
           match rowset_state rowset_meta with
           | COMMITTED =>
               snd step
               = [EvCommitTxn (partition_id rowset_meta) (txn_id rowset_meta)
                    (tablet_id rowset_meta) (tablet_schema_hash rowset_meta)
                    (load_id rowset_meta) (snd created) true]
               /\ tablet_mgr (fst step) = tablet_mgr w0
               /\ txn_mgr (fst step)
                  = snd (commit_txn (meta w) (txn_mgr w0)
                           (partition_id rowset_meta) (txn_id rowset_meta)
                           (tablet_id rowset_meta)
                           (tablet_schema_hash rowset_meta)
                           (load_id rowset_meta) (snd created) true)
           | VISIBLE =>
               snd step = [EvAddIncRowset tablet (snd created)]
               /\ txn_mgr (fst step) = txn_mgr w0
               /\ tablet_mgr (fst step)
                  = snd (add_inc_rowset (tablet_mgr w0) tablet (snd created))
           | PREPARED => step = (w0, [])
           end
         else step = (w0, [])
     end
  /\ forall e,
       In e (snd (reconcile (tablets_loaded w) (collect_rowset_metas (meta w)))) ->
       exists rm,
         In rm (collect_rowset_metas (meta w))
         /\ match e with
            | EvCommitTxn p t tid sh lid _ rec =>
                rowset_state rm = COMMITTED
                /\ p = partition_id rm /\ t = txn_id rm
                /\ tid = tablet_id rm /\ sh = tablet_schema_hash rm
                /\ lid = load_id rm /\ rec = true
            | EvAddIncRowset _ _ => rowset_state rm = VISIBLE
            | _ => False
            end.
Proof.
  intros Hsplit. cbn zeta.
  set (w0 := fst (reconcile (tablets_loaded w) before)).
  assert (Hm0 : meta w0 = meta w) by (unfold w0; now rewrite reconcile_meta).
  split_and!.
  - rewrite load_from_meta_spec, Hsplit, reconcile_app, reconcile_cons.
    reflexivity.
  - now rewrite reconcile_one_meta.
  - unfold reconcile_one. rewrite Hm0.
    destruct (get_tablet _ _ _) as [tablet|]; [|reflexivity].
    cbn zeta. destruct (load_rowset _ _ _) as [st rowset]. cbn [fst snd].
    destruct (is_success st); [|reflexivity].
    destruct (rowset_state rowset_meta); [reflexivity| |].
    + destruct (commit_txn _ _ _ _ _ _ _ _ _). cbn. auto.
    + destruct (add_inc_rowset _ _ _). cbn. auto.
  - intros e. apply reconcile_event_origin.
Qed.

(** A load that succeeds ends with the load after the gate, entered with
    the directory and the reconciler it was given. *)
Lemma load_data_dir_tail w :
  fst (fst (_load_data_dir w)) = OLAP_SUCCESS ->
  exists w1 evs,
    tablet_mgr w1 = tablet_mgr w /\ txn_mgr w1 = txn_mgr w
    /\ _load_data_dir w
       = (OLAP_SUCCESS, snd (fst (load_from_meta w1)),
          evs ++ snd (load_from_meta w1)).
Proof.
  unfold _load_data_dir.
  destruct (get_tablet_convert_finished (meta w)) as [res finished].
  destruct (is_success res) eqn:Hres;
    [|cbn; intros ->; discriminate].
  destruct finished.
  - intros _. exists w, []. split_and!; try reflexivity.
    rewrite load_from_meta_spec. reflexivity.
  - destruct (_clean_unfinished_converting_data (meta w)) as [? m1].
    destruct (_convert_old_tablet m1) as [res2 m2].
    destruct (is_success res2) eqn:H2; [|cbn; intros ->; discriminate].
    destruct (set_tablet_convert_finished m2) as [res3 m3].
    destruct (is_success res3) eqn:H3; [|cbn; intros ->; discriminate].
    intros _. exists (mkWorld m3 (tablet_mgr w) (txn_mgr w)).
    exists [EvCleanUnfinishedConvertingData; EvConvertOldTablet;
            EvSetTabletConvertFinished].
    split_and!; try reflexivity.
    rewrite load_from_meta_spec. reflexivity.
Qed.

(** A load that finds the flag unset does run the conversion steps. *)
Lemma unconverted_volume_load_converts w :
  get_tablet_convert_finished (meta w) = (OLAP_SUCCESS, false) ->
  In EvCleanUnfinishedConvertingData (snd (_load_data_dir w))
  /\ In EvConvertOldTablet (snd (_load_data_dir w)).
Proof.
  intros H. unfold _load_data_dir. rewrite H. cbn [is_success].
  destruct (_clean_unfinished_converting_data (meta w)) as [? m1].
  destruct (_convert_old_tablet m1) as [res2 m2].
  destruct (is_success res2); [|cbn; auto].
  destruct (set_tablet_convert_finished m2) as [res3 m3].
  destruct (is_success res3); [|cbn; auto].
  destruct (load_from_meta _) as [[st w'] evs]. cbn. auto.
Qed.

End Load.

(** *** A small concrete engine *)

(** A meta store as four tables. *)
Record SimpleMeta : Type := mkSimpleMeta {
  convert_finished : bool;
  old_headers : list (Z * Z * string);
  headers : list (Z * Z * string);
  rowset_metas : list (Z * string)
}.

Definition same_tablet (id sh : Z) (e : Z * Z * string) : bool :=
  (fst (fst e) =? id) && (snd (fst e) =? sh).

(** The serialized rowset metas of the examples. *)
Definition meta_table : list (string * RowsetMeta) :=
  [("committed, files missing"%string,
    mkRowsetMeta 1 10 1 100 1000 (0, 1) COMMITTED "");
   ("visible"%string,
    mkRowsetMeta 2 10 1 100 1001 (0, 2) VISIBLE "/data/10/1");
   ("committed"%string,
    mkRowsetMeta 3 10 1 100 1002 (0, 3) COMMITTED "/data/10/1");
   ("prepared"%string,
    mkRowsetMeta 4 10 1 100 1003 (0, 4) PREPARED "/data/10/1");
   ("committed, tablet dropped"%string,
    mkRowsetMeta 5 77 1 100 1004 (0, 5) COMMITTED "/data/77/1")].

Definition lookup_meta (text : string) : option RowsetMeta :=
  option_map snd (find (fun kv => String.eqb (fst kv) text) meta_table).

(** The directory: tablet identity and the rowsets attached to it.  The
    reconciler: (partition, transaction), tablet identity, rowset. *)
Definition SimpleDirectory : Type := list (Z * Z * list Z).
Definition SimpleTxns : Type := list (Z * Z * (Z * Z) * Z).

Definition directory_has (t : SimpleDirectory) (id sh : Z) : bool :=
  existsb (fun e => (fst (fst e) =? id) && (snd (fst e) =? sh)) t.

(** Modelled from the spec: the collaborators of the loader are defined in
    other files.  The meta store keeps its four tables; a tablet meta
    registers its tablet once; the factory fails on a meta without files; a
    commit registers the rowset under (partition, transaction) and reports a
    duplicate; an attachment adds the rowset to its tablet. *)
Definition simple : Collaborators := {|
  M := SimpleMeta;
  TM := SimpleDirectory;
  XM := SimpleTxns;
  Tablet := Z * Z;
  Rowset := Z;
  OLAPHeaderMessage := string;
  TabletMetaPB := string;
  RowsetMetaPB := Z * string;
  get_tablet_convert_finished := fun m => (OLAP_SUCCESS, convert_finished m);
  set_tablet_convert_finished := fun m =>
    (OLAP_SUCCESS,
     mkSimpleMeta true (old_headers m) (headers m) (rowset_metas m));
  header_entries := fun m prefix =>
    match prefix with
    | HEADER_PREFIX => headers m
    | OLD_HEADER_PREFIX => old_headers m
    end;
  headers_status := fun _ _ => OLAP_SUCCESS;
  TabletMetaManager_save := fun m id sh text =>
    (OLAP_SUCCESS,
     mkSimpleMeta (convert_finished m) (old_headers m)
                  (headers m ++ [(id, sh, text)]) (rowset_metas m));
  TabletMetaManager_remove := fun m id sh prefix =>
    (OLAP_SUCCESS,
     match prefix with
     | HEADER_PREFIX =>
         mkSimpleMeta (convert_finished m) (old_headers m)
           (List.filter (fun e => negb (same_tablet id sh e)) (headers m))
           (rowset_metas m)
     | OLD_HEADER_PREFIX =>
         mkSimpleMeta (convert_finished m)
           (List.filter (fun e => negb (same_tablet id sh e)) (old_headers m))
           (headers m) (rowset_metas m)
     end);
  rowset_meta_entries := rowset_metas;
  rowset_metas_status := fun _ => OLAP_SUCCESS;
  RowsetMetaManager_save := fun m id text =>
    (OLAP_SUCCESS,
     mkSimpleMeta (convert_finished m) (old_headers m) (headers m)
                  (rowset_metas m ++ [(id, text)]));
  RowsetMetaManager_remove := fun m id =>
    (OLAP_SUCCESS,
     mkSimpleMeta (convert_finished m) (old_headers m) (headers m)
       (List.filter (fun e => negb (fst e =? id)) (rowset_metas m)));
  parse_olap_header := fun text =>
    match text with EmptyString => None | _ => Some text end;
  to_new_snapshot := fun m header => (OLAP_SUCCESS, m, header, []);
  rowset_pb_id := fst;
  serialize_rowset_pb := snd;
  tablet_pb_id := fun text => (Z.of_nat (String.length text), 1);
  serialize_tablet_pb := fun text => text;
  parse_rowset_meta := lookup_meta;
  load_tablet_from_meta := fun _ t id sh _ =>
    if directory_has t id sh then (OLAP_ERR_OTHER (-1), t)
    else (OLAP_SUCCESS, t ++ [(id, sh, [])]);
  get_tablet := fun t id sh =>
    if directory_has t id sh then Some (id, sh) else None;
  load_rowset := fun _ _ rowset_meta =>
    match rowset_path rowset_meta with
    | EmptyString => (OLAP_ERR_OTHER (-1), 0)
    | _ => (OLAP_SUCCESS, rowset_id rowset_meta)
    end;
  commit_txn := fun _ x partition txn id sh _ rowset _ =>
    if existsb (fun e => (fst (fst (fst e)) =? partition)
                         && (snd (fst (fst e)) =? txn)
                         && (fst (snd (fst e)) =? id)
                         && (snd (snd (fst e)) =? sh)) x
    then (OLAP_ERR_PUSH_TRANSACTION_ALREADY_EXIST, x)
    else (OLAP_SUCCESS, x ++ [(partition, txn, (id, sh), rowset)]);
  add_inc_rowset := fun t tablet rowset =>
    (OLAP_SUCCESS,
     map (fun e =>
            if (fst (fst e) =? fst tablet) && (snd (fst e) =? snd tablet)
            then (fst e, snd e ++ [rowset]) else e) t)
|}.

(** A converted volume holding tablet (10, 1) and the given rowset metas;
    the directory and the reconciler start empty. *)
Definition converted_volume (texts : list string) : @World simple :=
  @mkWorld simple
    (mkSimpleMeta true [] [(10, 1, "tablet 10"%string)]
       (combine (map Z.of_nat (seq 1 (length texts))) texts))
    [] [].

Definition five_metas : list string :=
  ["committed, files missing"; "visible"; "committed"; "prepared";
   "committed, tablet dropped"]%string.

(** The witness of C1: the third of five collected metas, COMMITTED with
    its files in place, on a volume whose tablet (10, 1) is in the
    directory.  The load makes one tablet load, one attachment (the VISIBLE
    meta) and one registration keyed (100, 1002). *)
Lemma reconciliation_by_state_witness :
  @collect_rowset_metas simple (meta (converted_volume five_metas))
  = map snd (firstn 2 meta_table) ++ mkRowsetMeta 3 10 1 100 1002 (0, 3)
      COMMITTED "/data/10/1" :: map snd (skipn 3 meta_table)
  /\ snd (@load_from_meta simple (converted_volume five_metas))
     = [@EvLoadTabletFromMeta simple 10 1; @EvAddIncRowset simple (10, 1) 2;
        @EvCommitTxn simple 100 1002 10 1 (0, 3) 3 true].
Proof.
  split; [reflexivity|].
  destruct (@reconciliation_by_state simple (converted_volume five_metas)
              (map snd (firstn 2 meta_table))
              (mkRowsetMeta 3 10 1 100 1002 (0, 3) COMMITTED "/data/10/1")
              (map snd (skipn 3 meta_table)) eq_refl) as [H _].
  rewrite H. reflexivity.
Defined.

(** The counterexample of C1 as worded: a COMMITTED rowset meta whose owning
    tablet (10, 1) is in the directory, but whose rowset cannot be created
    (its files are missing).  The load registers nothing: no [commit_txn]
    is made and the reconciler stays empty. *)
Lemma committed_meta_without_rowset_is_not_registered :
  @collect_rowset_metas simple
     (meta (converted_volume ["committed, files missing"%string]))
  = [mkRowsetMeta 1 10 1 100 1000 (0, 1) COMMITTED ""]
  /\ @get_tablet simple
       (tablet_mgr
          (@tablets_loaded simple
             (converted_volume ["committed, files missing"%string])))
       10 1 = Some (10, 1)
  /\ @_load_data_dir simple
       (converted_volume ["committed, files missing"%string])
     = (OLAP_SUCCESS,
        @mkWorld simple
          (meta (converted_volume ["committed, files missing"%string]))
          [(10, 1, [])] [],
        [@EvLoadTabletFromMeta simple 10 1]).
Proof. split_and!; reflexivity. Qed.

End Loader.

(** * Further properties of the engine

    The modules below cover functions of storage_engine.cpp around the
    contracts above: what a selection may return, the two compaction passes,
    the arithmetic of the disk-health test and the monitor round, the
    effects of the cluster-id check, the retirement registries, the
    remaining paths of the task executor, the directory sweep, the steps of
    the volume load, and the store map with its lock.  The contracts of the
    trash sweeper and of the repeated load are stated there as well, next to
    the lemmas they rest on. *)

(** ** Compaction passes *)
Module CompactionRun.

Import Compaction.

(** The four counters of [DorisMetrics] the passes touch. *)
Record Metrics : Type := mkMetrics {
  cumulative_compaction_request_total : N;
  cumulative_compaction_request_failed : N;
  base_compaction_request_total : N;
  base_compaction_request_failed : N
}.

Definition set_last_compaction_failure_time (t : Tablet) (ms : Z) : Tablet :=
  mkTablet (tablet_id t) (schema_hash t) (store_path_hash t) (is_used t)
           (is_loaded t) ms (cumulative_lock_held t)
           (base_compaction_lock_held t) (base_compaction_score t)
           (cumulative_compaction_score t).

Section Perform.

Variable _can_do_compaction : Tablet -> bool.
Variable min_compaction_failure_interval_sec : Z.

(** Status codes of olap_define.h. *)
Variable OLAP_ERR_CUMULATIVE_REPEAT_INIT : OLAPStatus.
Variable OLAP_ERR_CE_TRY_CE_LOCK_ERROR : OLAPStatus.
Variable OLAP_ERR_CUMULATIVE_NO_SUITABLE_VERSIONS : OLAPStatus.
Variable OLAP_ERR_BE_TRY_BE_LOCK_ERROR : OLAPStatus.
Variable OLAP_ERR_BE_NO_SUITABLE_VERSION : OLAPStatus.

(** [CumulativeCompaction] and [BaseCompaction]: [init] and [run], each
    with the tablet as it leaves it. *)
Variable cumulative_init : Tablet -> OLAPStatus * Tablet.
Variable cumulative_run : Tablet -> OLAPStatus * Tablet.
Variable base_init : Tablet -> OLAPStatus * Tablet.
Variable base_run : Tablet -> OLAPStatus * Tablet.

(** [perform_cumulative_compaction(store)]: [now] is the clock reading of
    the selection, [fail_now] the reading taken when a failure is recorded.
    The result is the counters and the selected tablet as the pass leaves
    it ([None]: no tablet was selected). *)
Definition perform_cumulative_compaction (metrics : Metrics)
    (store now fail_now : Z) (_tablet_map : tablet_map_t)
    : Metrics * option Tablet :=
  match _find_best_tablet_to_compaction _can_do_compaction
          min_compaction_failure_interval_sec CUMULATIVE_COMPACTION
          store now _tablet_map with
  | None => (metrics, None)
  | Some best_tablet =>
      let m1 :=
        mkMetrics (cumulative_compaction_request_total metrics + 1)
                  (cumulative_compaction_request_failed metrics)
                  (base_compaction_request_total metrics)
                  (base_compaction_request_failed metrics) in
      let failed m :=
        mkMetrics (cumulative_compaction_request_total m)
                  (cumulative_compaction_request_failed m + 1)
                  (base_compaction_request_total m)
                  (base_compaction_request_failed m) in
      let '(res, t1) := cumulative_init best_tablet in
      if is_success res then
        let '(res2, t2) := cumulative_run t1 in
        if is_success res2
        then (m1, Some (set_last_compaction_failure_time t2 0))
        else (failed m1, Some (set_last_compaction_failure_time t2 fail_now))
      else if decide (res <> OLAP_ERR_CUMULATIVE_REPEAT_INIT
                      /\ res <> OLAP_ERR_CE_TRY_CE_LOCK_ERROR) then
        (if decide (res <> OLAP_ERR_CUMULATIVE_NO_SUITABLE_VERSIONS)
         then failed m1 else m1,
         Some (set_last_compaction_failure_time t1 fail_now))
      else (m1, Some t1)
  end.

(** [perform_base_compaction(store)]. *)
Definition perform_base_compaction (metrics : Metrics)
    (store now fail_now : Z) (_tablet_map : tablet_map_t)
    : Metrics * option Tablet :=
  match _find_best_tablet_to_compaction _can_do_compaction
          min_compaction_failure_interval_sec BASE_COMPACTION
          store now _tablet_map with
  | None => (metrics, None)
  | Some best_tablet =>
      let m1 :=
        mkMetrics (cumulative_compaction_request_total metrics)
                  (cumulative_compaction_request_failed metrics)
                  (base_compaction_request_total metrics + 1)
                  (base_compaction_request_failed metrics) in
      let failed m :=
        mkMetrics (cumulative_compaction_request_total m)
                  (cumulative_compaction_request_failed m)
                  (base_compaction_request_total m)
                  (base_compaction_request_failed m + 1) in
      let '(res, t1) := base_init best_tablet in
      if is_success res then
        let '(res2, t2) := base_run t1 in
        if is_success res2
        then (m1, Some (set_last_compaction_failure_time t2 0))
        else (failed m1, Some (set_last_compaction_failure_time t2 fail_now))
      else if decide (res <> OLAP_ERR_BE_TRY_BE_LOCK_ERROR
                      /\ res <> OLAP_ERR_BE_NO_SUITABLE_VERSION) then
        (failed m1, Some (set_last_compaction_failure_time t1 fail_now))
      else (m1, Some t1)
  end.

(** *** What a selection may return *)

(** X1.  The tablet a selection returns is one of the map, on the requested
    store, usable, loaded, allowed to compact, with the lock of the
    requested kind free, out of its back-off window and of positive score;
    its two compaction locks are as they were before the probe. *)
Theorem selected_tablet_is_eligible ct store now m t :
  _find_best_tablet_to_compaction _can_do_compaction
    min_compaction_failure_interval_sec ct store now m = Some t ->
  In t (all_tablets m)
  /\ store_path_hash t = store
  /\ is_used t = true /\ is_loaded t = true /\ _can_do_compaction t = true
  /\ lock_taken ct t = false
  /\ min_compaction_failure_interval_sec * 1000
       < now - last_compaction_failure_time t
  /\ (0 < table_score ct t)%N.
Proof.
  intros Hsel.
  pose proof (find_best_is_candidate _ _ _ _ _ _ _ Hsel) as Hc.
  pose proof (candidate_not_excluded _ _ _ _ _ _ _ Hc) as Hex.
  unfold candidates in Hc. apply filter_In in Hc as [Hin _].
  unfold excluded, not_eligible, in_failure_backoff in Hex.
  repeat (apply orb_false_iff in Hex as [Hex ?]).
  pose proof (find_best_char _can_do_compaction
                min_compaction_failure_interval_sec ct store now m) as Hchar.
  rewrite Hsel in Hchar. destruct Hchar as (l1 & l2 & _ & Hpos & _).
  split_and!; auto.
  - apply negb_false_iff in Hex. now apply Z.eqb_eq.
  - now apply negb_false_iff.
  - now apply negb_false_iff.
  - now apply negb_false_iff.
  - apply Z.leb_gt. assumption.
Qed.

(** *** Failures and the back-off *)

Lemma recent_failure_not_selected ct store now m t :
  now - last_compaction_failure_time t
    <= min_compaction_failure_interval_sec * 1000 ->
  _find_best_tablet_to_compaction _can_do_compaction
    min_compaction_failure_interval_sec ct store now m <> Some t.
Proof.
  intros Hwin Hsel.
  apply find_best_is_candidate, candidate_not_excluded in Hsel.
  unfold excluded, in_failure_backoff in Hsel.
  apply orb_false_iff in Hsel as [Hsel _].
  apply orb_false_iff in Hsel as [_ Hoff].
  apply Z.leb_gt in Hoff. lia.
Qed.

(** X2.  Whenever a cumulative pass counts a failure, the tablet it worked
    on carries the time of that failure, and no selection of either kind, on
    any store and map, returns that tablet until the back-off interval has
    passed. *)
Theorem cumulative_failure_arms_backoff metrics store now fail_now m
    metrics' t' :
  perform_cumulative_compaction metrics store now fail_now m
    = (metrics', Some t') ->
  cumulative_compaction_request_failed metrics'
    <> cumulative_compaction_request_failed metrics ->
  last_compaction_failure_time t' = fail_now
  /\ forall ct store' now' m',
       now' - fail_now <= min_compaction_failure_interval_sec * 1000 ->
       _find_best_tablet_to_compaction _can_do_compaction
         min_compaction_failure_interval_sec ct store' now' m' <> Some t'.
Proof.
  intros Hrun Hcount.
  assert (Hlast : last_compaction_failure_time t' = fail_now).
  { revert Hrun. unfold perform_cumulative_compaction.
    destruct (_find_best_tablet_to_compaction _ _ _ _ _ _) as [best|];
      [|discriminate].
    destruct (cumulative_init best) as [res t1].
    destruct (is_success res).
    - destruct (cumulative_run t1) as [res2 t2].
      destruct (is_success res2); intros H; injection H as <- <-;
        [now contradict Hcount | reflexivity].
    - destruct (decide _); [|intros H; injection H as <- <-;
                              now contradict Hcount].
      intros H; injection H as <- <-. reflexivity. }
  split; [exact Hlast|].
  intros ct store' now' m' Hwin. apply recent_failure_not_selected.
  now rewrite Hlast.
Qed.

(** X3.  Whenever a base pass counts a failure, the tablet it worked on
    carries the time of that failure, and no selection of either kind, on
    any store and map, returns that tablet until the back-off interval has
    passed. *)
Theorem base_failure_arms_backoff metrics store now fail_now m metrics' t' :
  perform_base_compaction metrics store now fail_now m = (metrics', Some t') ->
  base_compaction_request_failed metrics'
    <> base_compaction_request_failed metrics ->
  last_compaction_failure_time t' = fail_now
  /\ forall ct store' now' m',
       now' - fail_now <= min_compaction_failure_interval_sec * 1000 ->
       _find_best_tablet_to_compaction _can_do_compaction
         min_compaction_failure_interval_sec ct store' now' m' <> Some t'.
Proof.
  intros Hrun Hcount.
  assert (Hlast : last_compaction_failure_time t' = fail_now).
  { revert Hrun. unfold perform_base_compaction.
    destruct (_find_best_tablet_to_compaction _ _ _ _ _ _) as [best|];
      [|discriminate].
    destruct (base_init best) as [res t1].
    destruct (is_success res).
    - destruct (base_run t1) as [res2 t2].
      destruct (is_success res2); intros H; injection H as <- <-;
        [now contradict Hcount | reflexivity].
    - destruct (decide _); intros H; injection H as <- <-;
        [reflexivity | now contradict Hcount]. }
  split; [exact Hlast|].
  intros ct store' now' m' Hwin. apply recent_failure_not_selected.
  now rewrite Hlast.
Qed.

(** X4.  The counters of a pass.  A cumulative pass adds one to its request
    counter exactly when a tablet is selected, adds at most one to its
    failure counter and only then, and never touches the counters of the
    base pass; and the other way round. *)
Theorem compaction_pass_counters metrics store now fail_now m :
  (let r := perform_cumulative_compaction metrics store now fail_now m in
   let selected :=
     _find_best_tablet_to_compaction _can_do_compaction
       min_compaction_failure_interval_sec CUMULATIVE_COMPACTION store now m in
   (cumulative_compaction_request_total (fst r)
    = cumulative_compaction_request_total metrics
      + match selected with Some _ => 1 | None => 0 end)%N
   /\ (cumulative_compaction_request_failed metrics
       <= cumulative_compaction_request_failed (fst r)
       <= cumulative_compaction_request_failed metrics
          + match selected with Some _ => 1 | None => 0 end)%N
   /\ base_compaction_request_total (fst r)
      = base_compaction_request_total metrics
   /\ base_compaction_request_failed (fst r)
      = base_compaction_request_failed metrics
   /\ (snd r = None <-> selected = None))
  /\ (let r := perform_base_compaction metrics store now fail_now m in
      let selected :=
        _find_best_tablet_to_compaction _can_do_compaction
          min_compaction_failure_interval_sec BASE_COMPACTION store now m in
      (base_compaction_request_total (fst r)
       = base_compaction_request_total metrics
         + match selected with Some _ => 1 | None => 0 end)%N
      /\ (base_compaction_request_failed metrics
          <= base_compaction_request_failed (fst r)
          <= base_compaction_request_failed metrics
             + match selected with Some _ => 1 | None => 0 end)%N
      /\ cumulative_compaction_request_total (fst r)
         = cumulative_compaction_request_total metrics
      /\ cumulative_compaction_request_failed (fst r)
         = cumulative_compaction_request_failed metrics
      /\ (snd r = None <-> selected = None)).
Proof.
  split; cbn zeta.
  - unfold perform_cumulative_compaction.
    destruct (_find_best_tablet_to_compaction _ _ _ _ _ _) as [best|].
    + destruct (cumulative_init best) as [res t1].
      destruct (is_success res).
      * destruct (cumulative_run t1) as [res2 t2].
        destruct (is_success res2); cbn; split_and!; try lia; try reflexivity;
          split; discriminate.
      * repeat destruct (decide _); cbn; split_and!; try lia;
          try reflexivity; split; discriminate.
    + cbn. split_and!; try lia; try reflexivity.
  - unfold perform_base_compaction.
    destruct (_find_best_tablet_to_compaction _ _ _ _ _ _) as [best|].
    + destruct (base_init best) as [res t1].
      destruct (is_success res).
      * destruct (base_run t1) as [res2 t2].
        destruct (is_success res2); cbn; split_and!; try lia; try reflexivity;
          split; discriminate.
      * repeat destruct (decide _); cbn; split_and!; try lia;
          try reflexivity; split; discriminate.
    + cbn. split_and!; try lia; try reflexivity.
Qed.

End Perform.

(** *** Concrete passes *)

(** A pass whose [init] succeeds and whose [run] fails with code -1. *)
Definition init_ok (t : Tablet) : OLAPStatus * Tablet := (OLAP_SUCCESS, t).
Definition run_fails (t : Tablet) : OLAPStatus * Tablet :=
  (OLAP_ERR_OTHER (-1), t).

Definition one_tablet_map : tablet_map_t := [(1, [tablet_example 1 0 5])].

Lemma selected_tablet_is_eligible_witness :
  _find_best_tablet_to_compaction (fun _ => true) 600 BASE_COMPACTION 7
    10000000 one_tablet_map = Some (tablet_example 1 0 5)
  /\ store_path_hash (tablet_example 1 0 5) = 7
  /\ 600 * 1000 < 10000000 - last_compaction_failure_time (tablet_example 1 0 5).
Proof.
  split; [reflexivity|].
  destruct (selected_tablet_is_eligible (fun _ => true) 600 BASE_COMPACTION 7
              10000000 one_tablet_map (tablet_example 1 0 5) eq_refl)
    as (_ & H1 & _ & _ & _ & _ & H2 & _).
  split; [exact H1 | exact H2].
Defined.

Lemma cumulative_failure_arms_backoff_witness :
  perform_cumulative_compaction (fun _ => true) 600 (OLAP_ERR_OTHER (-2001))
    (OLAP_ERR_OTHER (-303)) (OLAP_ERR_OTHER (-2000)) init_ok run_fails
    (mkMetrics 0 0 0 0) 7 10000000 10000005 one_tablet_map
  = (mkMetrics 1 1 0 0, Some (tablet_example 1 10000005 5))
  /\ _find_best_tablet_to_compaction (fun _ => true) 600 BASE_COMPACTION 7
       10600005 [(1, [tablet_example 1 10000005 5])]
     <> Some (tablet_example 1 10000005 5).
Proof.
  split; [reflexivity|].
  apply (proj2 (cumulative_failure_arms_backoff (fun _ => true) 600
                  (OLAP_ERR_OTHER (-2001)) (OLAP_ERR_OTHER (-303))
                  (OLAP_ERR_OTHER (-2000)) init_ok run_fails
                  (mkMetrics 0 0 0 0) 7 10000000 10000005 one_tablet_map
                  (mkMetrics 1 1 0 0) (tablet_example 1 10000005 5)
                  eq_refl ltac:(discriminate))).
  vm_compute. discriminate.
Defined.

Lemma base_failure_arms_backoff_witness :
  perform_base_compaction (fun _ => true) 600 (OLAP_ERR_OTHER (-805))
    (OLAP_ERR_OTHER (-808)) init_ok run_fails
    (mkMetrics 0 0 0 0) 7 10000000 10000005 one_tablet_map
  = (mkMetrics 0 0 1 1, Some (tablet_example 1 10000005 5))
  /\ _find_best_tablet_to_compaction (fun _ => true) 600 CUMULATIVE_COMPACTION
       7 10600005 [(1, [tablet_example 1 10000005 5])]
     <> Some (tablet_example 1 10000005 5).
Proof.
  split; [reflexivity|].
  apply (proj2 (base_failure_arms_backoff (fun _ => true) 600
                  (OLAP_ERR_OTHER (-805)) (OLAP_ERR_OTHER (-808))
                  init_ok run_fails
                  (mkMetrics 0 0 0 0) 7 10000000 10000005 one_tablet_map
                  (mkMetrics 0 0 1 1) (tablet_example 1 10000005 5)
                  eq_refl ltac:(discriminate))).
  vm_compute. discriminate.
Defined.

End CompactionRun.

(** ** Disk-health pass: arithmetic and effects *)
Module DiskHealthFacts.

Import DiskHealth.

(** The volume as the pass leaves it. *)
Definition after_pass (d : DataDir) : DataDir :=
  if is_used d then d else mkDataDir (path d) (is_used d) [].

Lemma scan_stores_spec stores n v :
  scan_stores stores n v
  = (map after_pass stores,
     snd (fst (scan_stores stores n v)),
     v ++ concat (map tablet_set
                      (List.filter (fun d => negb (is_used d)) stores))).
Proof.
  revert n v. induction stores as [|d rest IH]; intros n v.
  - cbn. now rewrite app_nil_r.
  - cbn [scan_stores map List.filter]. unfold after_pass at 1, clear_tablets.
    destruct (is_used d); cbn [negb].
    + rewrite (IH (wrap32 (n + 1)) v).
      destruct (scan_stores rest (wrap32 (n + 1)) v) as [[ds k] w].
      reflexivity.
    + rewrite (IH (wrap32 (n + 1)) (v ++ tablet_set d)).
      destruct (scan_stores rest (wrap32 (n + 1)) (v ++ tablet_set d))
        as [[ds k] w].
      cbn [fst snd map concat]. now rewrite app_assoc.
Qed.

(** X5.  The threshold test, without wrap-around.  With no volume at all
    the disks are "not enough".  Otherwise they are so exactly when
    [100 * unused >= (threshold + 1) * total]: the integer percentage is
    rounded down before it is compared, so a share of exactly the threshold,
    or of less than one point above it, still passes. *)
Theorem used_disk_not_enough_iff threshold unused total :
  0 <= threshold < 2 ^ 32 ->
  0 <= unused -> unused * 100 < 2 ^ 32 -> 0 <= total < 2 ^ 32 ->
  _used_disk_not_enough threshold unused total = true
  <-> total = 0 \/ (threshold + 1) * total <= unused * 100.
Proof.
  intros Ht Hu Hu100 Htot. unfold _used_disk_not_enough.
  rewrite orb_true_iff, Z.eqb_eq, Z.gtb_ltb, Z.ltb_lt.
  rewrite !wrap32_small by lia.
  destruct (Z.eq_dec total 0) as [->|Hne]; [tauto|].
  split; intros [H|H]; try tauto; right.
  - assert (threshold + 1 <= unused * 100 / total) by lia.
    pose proof (Z.mul_div_le (unused * 100) total ltac:(lia)). nia.
  - assert (threshold + 1 <= unused * 100 / total)
      by (apply Z.div_le_lower_bound; lia).
    lia.
Qed.

Lemma returned_pass_spec threshold e e' dropped :
  _delete_tables_on_unused_root_path threshold e = Returned e' dropped ->
  _store_map e' = map after_pass (_store_map e)
  /\ dropped
     = concat (map tablet_set
                   (List.filter (fun d => negb (is_used d)) (_store_map e)))
  /\ _is_drop_tables e'
     = _is_drop_tables e || negb (Nat.eqb (length dropped) 0).
Proof.
  unfold _delete_tables_on_unused_root_path.
  rewrite scan_stores_spec. cbn [app].
  destruct (_used_disk_not_enough _ _ _); [discriminate|].
  intros H. injection H as <- <-. cbn [_store_map _is_drop_tables].
  split_and!; try reflexivity.
  destruct (concat _); cbn [length Nat.eqb negb];
    [now rewrite orb_false_r | now rewrite orb_true_r].
Qed.

(** X6.  What a pass that returns has done.  Used volumes are as they were;
    every unused volume keeps its path and has no tablet left; the tablets
    handed to [drop_tablets_on_error_root_path] are those the unused
    volumes owned, in store order, so no tablet of a used volume is ever
    dropped; and [_is_drop_tables] is raised when there is at least one of
    them and is never lowered. *)
Theorem health_pass_effects threshold e e' dropped :
  _delete_tables_on_unused_root_path threshold e = Returned e' dropped ->
  map path (_store_map e') = map path (_store_map e)
  /\ (forall d, In d (_store_map e) -> is_used d = true ->
        In d (_store_map e'))
  /\ (forall d', In d' (_store_map e') ->
        is_used d' = false -> tablet_set d' = [])
  /\ (forall t, In t dropped <->
        exists d, In d (_store_map e) /\ is_used d = false
                  /\ In t (tablet_set d))
  /\ dropped
     = concat (map tablet_set
                   (List.filter (fun d => negb (is_used d)) (_store_map e)))
  /\ _is_drop_tables e'
     = _is_drop_tables e || negb (Nat.eqb (length dropped) 0).
Proof.
  intros H. apply returned_pass_spec in H as (Hs & Hd & Hf).
  split_and!; try assumption.
  - rewrite Hs, map_map. apply map_ext. intros d. unfold after_pass.
    now destruct (is_used d).
  - intros d Hd' Hu. rewrite Hs. apply in_map_iff. exists d.
    unfold after_pass. now rewrite Hu.
  - intros d' Hd' Hu. rewrite Hs in Hd'.
    apply in_map_iff in Hd' as (d & <- & _). unfold after_pass in *.
    destruct (is_used d) eqn:E; [congruence | reflexivity].
  - intros t. rewrite Hd, in_concat. split.
    + intros (l & Hl & Ht). apply in_map_iff in Hl as (d & <- & Hd0).
      apply filter_In in Hd0 as (Hd0 & Hu). exists d.
      destruct (is_used d); [discriminate | auto].
    + intros (d & Hd0 & Hu & Ht). exists (tablet_set d). split; [|exact Ht].
      apply in_map_iff. exists d. split; [reflexivity|].
      apply filter_In. now rewrite Hu.
Qed.

(** *** The monitor round *)

(** The engine with the two flags the reporters raise
    ([_is_report_disk_state_already], [_is_report_tablet_already]). *)
Record Monitor : Type := mkMonitor {
  engine : Engine;
  report_disk_state_already : bool;
  report_tablet_already : bool
}.

(** How a monitor round ends. *)
Inductive RoundOutcome : Type :=
  | RoundExit
  | RoundDone (m : Monitor) (dropped : list TabletInfo) (notified : bool).

(** [start_disk_stat_monitor]: [health_check] is [DataDir::health_check]
    (data_dir.cpp); [notified] records the call of [report_notify(true)].
    The refresh of the medium count between the health checks and the pass
    works on a member that is not part of this state.
    A [compare_exchange_strong(expected = true, false)] succeeds exactly on
    a flag that is set, and clears it. *)
Definition start_disk_stat_monitor (threshold : Z)
    (health_check : DataDir -> DataDir) (m : Monitor) : RoundOutcome :=
  let checked :=
    mkEngine (map health_check (_store_map (engine m)))
             (_is_drop_tables (engine m)) in
  match _delete_tables_on_unused_root_path threshold checked with
  | ProcessExit _ _ => RoundExit
  | Returned e dropped =>
      if _is_drop_tables e then
        let is_report_disk_state_exchanged := report_disk_state_already m in
        let is_report_tablet_exchanged := report_tablet_already m in
        RoundDone
          (mkMonitor
             (mkEngine (_store_map e)
                (negb (is_report_disk_state_exchanged
                       && is_report_tablet_exchanged)))
             false false)
          dropped true
      else RoundDone (mkMonitor e (report_disk_state_already m)
                                (report_tablet_already m))
                     dropped false
  end.

(** X7.  A monitor round that returns.  Every volume the health check
    found unusable has lost its tablets, and these are the tablets dropped
    from the directory.  While a drop is pending the reporters are notified
    and both report flags are consumed; the pending mark is cleared only in
    a round that finds both flags raised at once, so a single raised flag is
    consumed without clearing it. *)
Theorem monitor_round_effects threshold health_check m m' dropped notified :
  start_disk_stat_monitor threshold health_check m
    = RoundDone m' dropped notified ->
  _store_map (engine m')
    = map (fun d => after_pass (health_check d)) (_store_map (engine m))
  /\ dropped
     = concat (map tablet_set
                 (List.filter (fun d => negb (is_used d))
                    (map health_check (_store_map (engine m)))))
  /\ notified
     = _is_drop_tables (engine m) || negb (Nat.eqb (length dropped) 0)
  /\ (notified = true ->
      report_disk_state_already m' = false
      /\ report_tablet_already m' = false
      /\ _is_drop_tables (engine m')
         = negb (report_disk_state_already m && report_tablet_already m))
  /\ (notified = false ->
      report_disk_state_already m' = report_disk_state_already m
      /\ report_tablet_already m' = report_tablet_already m
      /\ _is_drop_tables (engine m') = false).
Proof.
  unfold start_disk_stat_monitor.
  destruct (_delete_tables_on_unused_root_path _ _) as [|e d] eqn:Hpass;
    [discriminate|].
  apply returned_pass_spec in Hpass as (Hs & Hd & Hf).
  cbn [_store_map _is_drop_tables] in Hs, Hd, Hf. rewrite map_map in Hs.
  destruct (_is_drop_tables e) eqn:He; intros H; injection H as <- <- <-;
    cbn [engine _store_map _is_drop_tables report_disk_state_already
         report_tablet_already];
    (split_and!; [exact Hs | exact Hd | now rewrite <- Hf | | ]);
    intros E; try discriminate; split_and!; congruence.
Qed.

(** *** Concrete runs *)

Lemma monitor_round_effects_witness :
  start_disk_stat_monitor 50
    (fun d => if String.eqb (path d) "/disk2"
              then mkDataDir (path d) false (tablet_set d) else d)
    (mkMonitor (mkEngine [mkDataDir "/disk1" true [(10, 1)];
                          mkDataDir "/disk2" true [(11, 1)]] false)
               true false)
  = RoundDone
      (mkMonitor (mkEngine [mkDataDir "/disk1" true [(10, 1)];
                            mkDataDir "/disk2" false []] true)
                 false false)
      [(11, 1)] true
  /\ true = false || negb (Nat.eqb (length [(11, 1)]) 0).
Proof.
  split; [reflexivity|].
  exact (proj1 (proj2 (proj2 (monitor_round_effects 50
    (fun d => if String.eqb (path d) "/disk2"
              then mkDataDir (path d) false (tablet_set d) else d)
    (mkMonitor (mkEngine [mkDataDir "/disk1" true [(10, 1)];
                          mkDataDir "/disk2" true [(11, 1)]] false)
               true false)
    (mkMonitor (mkEngine [mkDataDir "/disk1" true [(10, 1)];
                          mkDataDir "/disk2" false []] true)
               false false)
    [(11, 1)] true eq_refl)))).
Defined.

Lemma used_disk_not_enough_iff_witness :
  (0 <= 50 < 2 ^ 32 /\ 0 <= 1 /\ 1 * 100 < 2 ^ 32 /\ 0 <= 2 < 2 ^ 32)
  /\ (_used_disk_not_enough 50 1 2 = true <-> 2 = 0 \/ (50 + 1) * 2 <= 1 * 100).
Proof.
  split; [lia|].
  apply used_disk_not_enough_iff; lia.
Defined.

Lemma health_pass_effects_witness :
  _delete_tables_on_unused_root_path 50
    (mkEngine [mkDataDir "/disk1" true [(10, 1)];
               mkDataDir "/disk2" false [(11, 1)]] false)
  = Returned (mkEngine [mkDataDir "/disk1" true [(10, 1)];
                        mkDataDir "/disk2" false []] true)
             [(11, 1)]
  /\ _is_drop_tables
       (mkEngine [mkDataDir "/disk1" true [(10, 1)];
                  mkDataDir "/disk2" false []] true)
     = false || negb (Nat.eqb (length [(11, 1)]) 0).
Proof.
  split; [reflexivity|].
  exact (proj2 (proj2 (proj2 (proj2 (proj2 (health_pass_effects 50
    (mkEngine [mkDataDir "/disk1" true [(10, 1)];
               mkDataDir "/disk2" false [(11, 1)]] false)
    (mkEngine [mkDataDir "/disk1" true [(10, 1)];
               mkDataDir "/disk2" false []] true)
    [(11, 1)] eq_refl)))))).
Defined.

(** X12.  With fewer than 2^32 volumes, the pass ends the process exactly
    when the engine has no volume at all, whatever the threshold and however
    many volumes are unused; it then reports zero disks and zero error
    disks. *)
Theorem health_pass_exits_iff_no_volume threshold e :
  Z.of_nat (length (_store_map e)) < 2 ^ 32 ->
  (_store_map e = [] ->
   _delete_tables_on_unused_root_path threshold e = ProcessExit 0 0)
  /\ (_store_map e <> [] ->
      exists e' dropped,
        _delete_tables_on_unused_root_path threshold e = Returned e' dropped).
Proof.
  intros Hlen. split.
  - intros E. unfold _delete_tables_on_unused_root_path. rewrite E.
    reflexivity.
  - intros Hne. now apply health_pass_returns_when_stores_exist.
Qed.

Lemma health_pass_exits_iff_no_volume_witness :
  Z.of_nat (length (_store_map both_volumes_broken)) < 2 ^ 32
  /\ exists e' dropped,
       _delete_tables_on_unused_root_path 0 both_volumes_broken
       = Returned e' dropped.
Proof.
  split; [reflexivity|].
  apply (health_pass_exits_iff_no_volume 0 both_volumes_broken);
    [reflexivity | discriminate].
Defined.

End DiskHealthFacts.

(** ** Cluster-id check: when it succeeds and what it leaves *)
Module ClusterIdFacts.

Import ClusterId.

Lemma engine_eta e :
  mkEngine (_store_map e) (_effective_cluster_id e) (_is_all_cluster_id_exist e)
  = e.
Proof. now destruct e. Qed.

(** The scan over volumes that are all unset. *)
Lemma collect_all_unset stores cid all_exist :
  (forall d, In d stores -> cluster_id d = -1) ->
  collect_cluster_id stores cid all_exist
  = (OLAP_SUCCESS, cid, match stores with [] => all_exist | _ => false end).
Proof.
  revert all_exist. induction stores as [|d rest IH]; intros all_exist H;
    [reflexivity|].
  cbn [collect_cluster_id]. rewrite (H d (or_introl eq_refl)). cbn [Z.eqb].
  rewrite IH by (intros x Hx; apply H; now right). now destruct rest.
Qed.

(** The scan over volumes that all carry [c]. *)
Lemma collect_all_equal stores c cid all_exist :
  c <> -1 -> cid = -1 \/ cid = c ->
  (forall d, In d stores -> cluster_id d = c) ->
  collect_cluster_id stores cid all_exist
  = (OLAP_SUCCESS, match stores with [] => cid | _ => c end, all_exist).
Proof.
  intros Hc. revert cid. induction stores as [|d rest IH]; intros cid Hcid H;
    [reflexivity|].
  cbn [collect_cluster_id]. rewrite (H d (or_introl eq_refl)).
  destruct (Z.eqb_spec c (-1)); [contradiction|].
  assert (Hrest : forall x, In x rest -> cluster_id x = c)
    by (intros x Hx; apply H; now right).
  destruct (Z.eqb_spec c cid) as [<-|Hne].
  - rewrite IH by auto. now destruct rest.
  - destruct Hcid as [-> | ->]; [|contradiction]. cbn [Z.eqb].
    rewrite IH by auto. now destruct rest.
Qed.

(** Some volume carries an id, or all are unset. *)
Lemma some_id_or_all_unset stores :
  (exists d, In d stores /\ cluster_id d <> -1)
  \/ (forall d, In d stores -> cluster_id d = -1).
Proof.
  induction stores as [|d rest [(x & Hx & Hne)|Hall]].
  - right. intros d [].
  - left. exists x. split; [now right | exact Hne].
  - destruct (Z.eq_dec (cluster_id d) (-1)) as [E|N].
    + right. intros x [<-|Hx]; auto.
    + left. exists d. split; [now left | exact N].
Qed.

(** The ids found on the volumes agree with one another and with the
    effective id the engine starts from. *)
Definition ids_agree (e : Engine) : Prop :=
  (forall d1 d2, In d1 (_store_map e) -> In d2 (_store_map e) ->
     cluster_id d1 <> -1 -> cluster_id d2 <> -1 ->
     cluster_id d1 = cluster_id d2)
  /\ (forall d, In d (_store_map e) -> cluster_id d <> -1 ->
        _effective_cluster_id e = -1
        \/ _effective_cluster_id e = cluster_id d).

Lemma check_status_cases e :
  fst (check_all_root_path_cluster_id e) = OLAP_SUCCESS
  \/ fst (check_all_root_path_cluster_id e) = OLAP_ERR_INVALID_CLUSTER_INFO.
Proof.
  unfold check_all_root_path_cluster_id.
  destruct (collect_cluster_id _ _ _) as [[st cid] ae] eqn:Hc.
  assert (Hst : st = OLAP_SUCCESS \/ st = OLAP_ERR_INVALID_CLUSTER_INFO).
  { clear -Hc. revert Hc. generalize (_is_all_cluster_id_exist e), (-1).
    induction (_store_map e) as [|d rest IH]; intros b z; cbn.
    - intros H. injection H as <- _ _. now left.
    - repeat destruct (_ =? _); try apply IH.
      intros H. injection H as <- _ _. now right. }
  destruct Hst as [-> | ->]; cbn [is_success fst]; [|now right].
  destruct (_judge_and_update_effective_cluster_id _ cid) as [res e2] eqn:Hj.
  assert (Hres : res = OLAP_SUCCESS \/ res = OLAP_ERR_INVALID_CLUSTER_INFO).
  { revert Hj. unfold _judge_and_update_effective_cluster_id.
    repeat destruct (_ && _); try destruct (negb _);
      intros H; injection H as <- _; auto. }
  destruct Hres as [-> | ->]; cbn [is_success fst]; [|now right].
  destruct (_ && _); now left.
Qed.

(** A successful check leaves either an engine without any cluster id, or
    one all of whose volumes report its effective id. *)
Lemma check_success_state e e' :
  check_all_root_path_cluster_id e = (OLAP_SUCCESS, e') ->
  ids_agree e
  /\ map path (_store_map e') = map path (_store_map e)
  /\ (_effective_cluster_id e <> -1 ->
      _effective_cluster_id e' = _effective_cluster_id e)
  /\ ((_effective_cluster_id e' = -1
       /\ _store_map e' = _store_map e
       /\ (forall d, In d (_store_map e) -> cluster_id d = -1)
       /\ _is_all_cluster_id_exist e'
          = match _store_map e with
            | [] => _is_all_cluster_id_exist e
            | _ => false
            end)
      \/ (_effective_cluster_id e' <> -1
          /\ _is_all_cluster_id_exist e' = true
          /\ forall d, In d (_store_map e') ->
               cluster_id d = _effective_cluster_id e')).
Proof.
  intros Hcheck.
  assert (Hpair : forall d1 d2, In d1 (_store_map e) -> In d2 (_store_map e) ->
            cluster_id d1 <> -1 -> cluster_id d2 <> -1 ->
            cluster_id d1 = cluster_id d2).
  { intros d1 d2 I1 I2 N1 N2.
    destruct (Z.eq_dec (cluster_id d1) (cluster_id d2)) as [|Hne]; [assumption|].
    destruct (check_conflict e) as (x & Hx & _); [exists d1, d2; auto|].
    rewrite Hx in Hcheck. discriminate. }
  revert Hcheck. unfold check_all_root_path_cluster_id.
  assert (Hwrite : forall stores c b e2,
    c <> -1 ->
    (b = true -> forall d, In d stores -> cluster_id d = c) ->
    (if negb (c =? -1) && negb b
     then (OLAP_SUCCESS, snd (set_cluster_id (mkEngine stores c b) c))
     else (OLAP_SUCCESS, mkEngine stores c b)) = (OLAP_SUCCESS, e2) ->
    map path (_store_map e2) = map path stores
    /\ _effective_cluster_id e2 = c
    /\ _is_all_cluster_id_exist e2 = true
    /\ forall d, In d (_store_map e2) -> cluster_id d = c).
  { intros stores c b e2 Hc Hb.
    destruct (Z.eqb_spec c (-1)); [contradiction|]. cbn [negb andb].
    destruct b; cbn [negb].
    - intros H. injection H as <-. cbn. auto.
    - unfold set_cluster_id. cbn [_store_map]. rewrite set_each_spec.
      intros H. injection H as <-. cbn [snd _store_map _effective_cluster_id
                                        _is_all_cluster_id_exist].
      split_and!; try reflexivity.
      + now rewrite map_map.
      + intros d Hd. apply in_map_iff in Hd as (x & <- & _). reflexivity. }
  destruct (some_id_or_all_unset (_store_map e)) as [(x & Hx & Hne)|Hall].
  - (* some volume carries the id [c] *)
    set (c := cluster_id x) in *.
    assert (Hin : forall d, In d (_store_map e) ->
                    cluster_id d = -1 \/ cluster_id d = c).
    { intros d Hd. destruct (Z.eq_dec (cluster_id d) (-1)); [now left|right].
      now apply Hpair. }
    destruct (collect_agreeing (_store_map e) c (-1)
                (_is_all_cluster_id_exist e) Hne (or_introl eq_refl) Hin)
      as (cid & ae & R0 & _ & _ & R3 & R4).
    rewrite R0. rewrite (R3 (ex_intro _ x (conj Hx eq_refl))) in *.
    cbn [is_success]. unfold _judge_and_update_effective_cluster_id.
    cbn [_effective_cluster_id _store_map _is_all_cluster_id_exist].
    destruct (Z.eqb_spec c (-1)); [contradiction|]. cbn [andb negb].
    assert (Hb : ae = true -> forall d, In d (_store_map e) -> cluster_id d = c)
      by (intros E; now destruct (R4 E)).
    destruct (Z.eqb_spec (_effective_cluster_id e) (-1)) as [E|N].
    + cbn [is_success _effective_cluster_id _is_all_cluster_id_exist
           _store_map].
      intros H. apply Hwrite in H as (P1 & P2 & P3 & P4); auto.
      split_and!; auto.
      * split; [exact Hpair|]. intros d _ _. now left.
      * intros Hcontra. contradiction.
      * right. rewrite P2. auto.
    + cbn [andb]. destruct (Z.eqb_spec c (_effective_cluster_id e)) as [E|N'];
        cbn [negb is_success]; [|discriminate].
      cbn [_effective_cluster_id _is_all_cluster_id_exist _store_map].
      rewrite <- E. intros H. apply Hwrite in H as (P1 & P2 & P3 & P4); auto.
      split_and!; auto.
      * split; [exact Hpair|]. intros d Hd Hd'. right.
        rewrite <- E. symmetry. now apply Hpair.
      * right. rewrite P2. auto.
  - (* all volumes are unset *)
    rewrite (collect_all_unset _ _ _ Hall). cbn [is_success].
    unfold _judge_and_update_effective_cluster_id.
    cbn [_effective_cluster_id _store_map _is_all_cluster_id_exist Z.eqb andb].
    assert (Hagree : ids_agree e).
    { split; [exact Hpair|]. intros d Hd Hd'. now rewrite Hall in Hd'. }
    destruct (Z.eqb_spec (_effective_cluster_id e) (-1)) as [E|N];
      cbn [negb is_success andb _effective_cluster_id
           _is_all_cluster_id_exist].
    + rewrite E. cbn [Z.eqb negb andb]. intros H. injection H as <-.
      cbn [_store_map _effective_cluster_id _is_all_cluster_id_exist].
      split_and!; auto.
    + replace (_effective_cluster_id e =? -1) with false
        by (symmetry; now apply Z.eqb_neq).
      cbn [negb andb]. intros H.
      apply (Hwrite (_store_map e) (_effective_cluster_id e)) in H
        as (P1 & P2 & P3 & P4); auto.
      * split_and!; auto. right. rewrite P2. auto.
      * intros E d Hd. destruct (_store_map e); [destruct Hd|discriminate].
Qed.

(** An engine whose volumes all report its effective id, with the flag set,
    passes the check unchanged. *)
Lemma check_uniform stores c :
  c <> -1 -> (forall d, In d stores -> cluster_id d = c) ->
  check_all_root_path_cluster_id (mkEngine stores c true)
  = (OLAP_SUCCESS, mkEngine stores c true).
Proof.
  intros Hc Hall. unfold check_all_root_path_cluster_id.
  cbn [_store_map _effective_cluster_id _is_all_cluster_id_exist].
  rewrite (collect_all_equal stores c (-1) true Hc (or_introl eq_refl) Hall).
  assert (E : (c =? -1) = false) by now apply Z.eqb_neq.
  unfold _judge_and_update_effective_cluster_id.
  destruct stores; cbn -[Z.eqb]; rewrite ?E, ?Z.eqb_refl; cbn -[Z.eqb];
    rewrite ?E; reflexivity.
Qed.

Lemma fst_of_branches {A B} (b : bool) (s : A) (x y : B) :
  fst (if b then (s, x) else (s, y)) = s.
Proof. now destruct b. Qed.

Ltac finish_check := apply fst_of_branches.

(** X8.  [check_all_root_path_cluster_id] returns [OLAP_SUCCESS] exactly
    when the ids stored on the volumes (unset ones apart) are pairwise equal
    and equal to the engine's effective id, should that be set; in every
    other case it returns [OLAP_ERR_INVALID_CLUSTER_INFO]. *)
Theorem check_succeeds_iff_ids_agree e :
  (fst (check_all_root_path_cluster_id e) = OLAP_SUCCESS <-> ids_agree e)
  /\ (fst (check_all_root_path_cluster_id e) <> OLAP_SUCCESS ->
      fst (check_all_root_path_cluster_id e) = OLAP_ERR_INVALID_CLUSTER_INFO).
Proof.
  split; [|destruct (check_status_cases e); tauto].
  split.
  - intros H. destruct (check_all_root_path_cluster_id e) as [st e'] eqn:Hc.
    cbn [fst] in H. subst st. now apply check_success_state in Hc.
  - intros [Hpair Heff]. unfold check_all_root_path_cluster_id.
    destruct (some_id_or_all_unset (_store_map e)) as [(x & Hx & Hne)|Hall].
    + set (c := cluster_id x) in *.
      assert (Hin : forall d, In d (_store_map e) ->
                      cluster_id d = -1 \/ cluster_id d = c).
      { intros d Hd. destruct (Z.eq_dec (cluster_id d) (-1)); [now left|right].
        now apply Hpair. }
      destruct (collect_agreeing (_store_map e) c (-1)
                  (_is_all_cluster_id_exist e) Hne (or_introl eq_refl) Hin)
        as (cid & ae & R0 & _ & _ & R3 & _).
      rewrite R0, (R3 (ex_intro _ x (conj Hx eq_refl))).
      cbn [is_success]. unfold _judge_and_update_effective_cluster_id.
      cbn [_effective_cluster_id _store_map _is_all_cluster_id_exist].
      destruct (Z.eqb_spec c (-1)); [contradiction|]. cbn [andb negb].
      destruct (Z.eqb_spec (_effective_cluster_id e) (-1)) as [E|N].
      * cbn [is_success]. finish_check.
      * cbn [andb]. destruct (Heff x Hx Hne) as [E|E]; [contradiction|].
        fold c in E. rewrite E, Z.eqb_refl. cbn [negb is_success].
        finish_check.
    + rewrite (collect_all_unset _ _ _ Hall). cbn [is_success].
      unfold _judge_and_update_effective_cluster_id.
      cbn [_effective_cluster_id _store_map _is_all_cluster_id_exist
           Z.eqb andb].
      destruct (_effective_cluster_id e =? -1); cbn [negb is_success];
        finish_check.
Qed.

(** X9.  After a successful check the engine is in one of two states:
    it has no effective id, no volume carries one and nothing was written;
    or it has an effective id, every volume reports that id and the
    all-exist flag is set.  The volumes' paths are kept, and an effective
    id set before the check is kept. *)
Theorem successful_check_leaves_consistent_ids e e' :
  check_all_root_path_cluster_id e = (OLAP_SUCCESS, e') ->
  map path (_store_map e') = map path (_store_map e)
  /\ (_effective_cluster_id e <> -1 ->
      _effective_cluster_id e' = _effective_cluster_id e)
  /\ ((_effective_cluster_id e' = -1
       /\ _store_map e' = _store_map e
       /\ forall d, In d (_store_map e) -> cluster_id d = -1)
      \/ (_effective_cluster_id e' <> -1
          /\ _is_all_cluster_id_exist e' = true
          /\ forall d, In d (_store_map e') ->
               cluster_id d = _effective_cluster_id e')).
Proof.
  intros H. apply check_success_state in H as (_ & P & K & [S|S]).
  - split_and!; auto. left. tauto.
  - split_and!; auto.
Qed.

(** X10.  A successful check is idempotent: checking the engine it left
    succeeds again and changes nothing. *)
Theorem successful_check_is_idempotent e e' :
  check_all_root_path_cluster_id e = (OLAP_SUCCESS, e') ->
  check_all_root_path_cluster_id e' = (OLAP_SUCCESS, e').
Proof.
  intros H. apply check_success_state in H as (_ & _ & _ & [S|S]).
  - destruct S as (E & Hs & Hall & Hflag).
    unfold check_all_root_path_cluster_id. rewrite Hs.
    rewrite (collect_all_unset _ _ _ Hall). cbn [is_success].
    unfold _judge_and_update_effective_cluster_id.
    cbn [_effective_cluster_id _store_map _is_all_cluster_id_exist
         Z.eqb andb].
    rewrite E. cbn [Z.eqb negb andb is_success _effective_cluster_id].
    f_equal. rewrite <- (engine_eta e'), Hs, E, Hflag. cbn.
    now destruct (_store_map e).
  - destruct S as (N & F & Hall).
    rewrite <- (engine_eta e'), F. now apply check_uniform.
Qed.

(** X11.  After [set_cluster_id] with an id other than -1 every volume
    reports that id, and the cluster-id check succeeds without changing the
    engine. *)
Theorem set_cluster_id_then_check e id :
  id <> -1 ->
  fst (set_cluster_id e id) = Status_OK
  /\ (forall d, In d (_store_map (snd (set_cluster_id e id))) ->
        cluster_id d = id)
  /\ map path (_store_map (snd (set_cluster_id e id)))
     = map path (_store_map e)
  /\ check_all_root_path_cluster_id (snd (set_cluster_id e id))
     = (OLAP_SUCCESS, snd (set_cluster_id e id)).
Proof.
  intros Hid. unfold set_cluster_id. rewrite set_each_spec.
  cbn [fst snd _store_map].
  assert (Hall : forall d,
            In d (map (fun d => mkDataDir (path d) id) (_store_map e)) ->
            cluster_id d = id).
  { intros d Hd. apply in_map_iff in Hd as (x & <- & _). reflexivity. }
  split_and!; auto.
  - now rewrite map_map.
  - now apply check_uniform.
Qed.

Definition agreeing_engine : Engine :=
  mkEngine [mkDataDir "/data1" 7; mkDataDir "/data2" (-1);
            mkDataDir "/data3" 7] (-1) true.

Definition agreeing_engine_checked : Engine :=
  mkEngine [mkDataDir "/data1" 7; mkDataDir "/data2" 7;
            mkDataDir "/data3" 7] 7 true.

Lemma successful_check_leaves_consistent_ids_witness :
  check_all_root_path_cluster_id agreeing_engine
  = (OLAP_SUCCESS, agreeing_engine_checked)
  /\ _effective_cluster_id agreeing_engine_checked <> -1
  /\ forall d, In d (_store_map agreeing_engine_checked) ->
       cluster_id d = _effective_cluster_id agreeing_engine_checked.
Proof.
  split; [reflexivity|].
  destruct (successful_check_leaves_consistent_ids agreeing_engine
              agreeing_engine_checked eq_refl) as (_ & _ & [S|S]).
  - destruct S as (E & _). discriminate E.
  - destruct S as (N & _ & Hall). split; [exact N | exact Hall].
Defined.

Lemma successful_check_is_idempotent_witness :
  check_all_root_path_cluster_id agreeing_engine
  = (OLAP_SUCCESS, agreeing_engine_checked)
  /\ check_all_root_path_cluster_id agreeing_engine_checked
     = (OLAP_SUCCESS, agreeing_engine_checked).
Proof.
  split; [reflexivity|].
  exact (successful_check_is_idempotent agreeing_engine
           agreeing_engine_checked eq_refl).
Defined.

Lemma set_cluster_id_then_check_witness :
  9 <> -1
  /\ check_all_root_path_cluster_id (snd (set_cluster_id agreeing_engine 9))
     = (OLAP_SUCCESS, snd (set_cluster_id agreeing_engine 9)).
Proof.
  assert (H : 9 <> -1) by lia.
  split; [exact H|].
  exact (proj2 (proj2 (proj2 (set_cluster_id_then_check agreeing_engine 9 H)))).
Defined.

End ClusterIdFacts.

(** ** Garbage collection: registration and sweeps *)
Module GcFacts.

Import Gc.

(** [_gc_files] is keyed by the address of the index object. *)
Definition tracked (_gc_files : list (SegmentGroup * list string))
    (segment_group : SegmentGroup) : bool :=
  existsb (fun e => sg_addr (fst e) =? sg_addr segment_group) _gc_files.

Section Registry.

(** [SegmentGroup::num_segments], [construct_index_file_path] and
    [construct_data_file_path] (segment_group.cpp). *)
Variable num_segments : SegmentGroup -> nat.
Variable construct_index_file_path : SegmentGroup -> nat -> string.
Variable construct_data_file_path : SegmentGroup -> nat -> string.

(** Where a new key lands in the iteration order of the hash map is not
    specified; [emplace] stands for any placement. *)
Variable emplace :
  SegmentGroup * list string -> list (SegmentGroup * list string)
  -> list (SegmentGroup * list string).
Hypothesis emplace_perm : forall e l, Permutation (emplace e l) (e :: l).

(** The loop [for (seg_id = 0; seg_id < num_segments(); ++seg_id)] of
    [add_unused_index], from [seg_id] with [count] rounds to go. *)
Fixpoint segment_files (segment_group : SegmentGroup) (seg_id count : nat)
    : list string :=
  match count with
  | O => []
  | S k =>
      construct_index_file_path segment_group seg_id
        :: construct_data_file_path segment_group seg_id
        :: segment_files segment_group (S seg_id) k
  end.

Definition add_unused_index (_gc_files : list (SegmentGroup * list string))
    (segment_group : SegmentGroup) : list (SegmentGroup * list string) :=
  if tracked _gc_files segment_group then _gc_files
  else
    emplace
      (segment_group,
       segment_files segment_group 0 (num_segments segment_group))
      _gc_files.

Lemma segment_files_In sg f start count :
  In f (segment_files sg start count)
  <-> exists seg_id,
        (start <= seg_id < start + count)%nat
        /\ (f = construct_index_file_path sg seg_id
            \/ f = construct_data_file_path sg seg_id).
Proof.
  revert start. induction count as [|k IH]; intros start; cbn [segment_files].
  - split; [intros [] | intros (i & Hi & _); lia].
  - cbn [In]. rewrite IH. split.
    + intros [<-|[<-|(i & Hi & Hf)]].
      * exists start. split; [lia | now left].
      * exists start. split; [lia | now right].
      * exists i. split; [lia | exact Hf].
    + intros (i & Hi & Hf).
      destruct (Nat.eq_dec i start) as [->|Hne].
      * destruct Hf as [-> | ->]; auto.
      * right. right. exists i. split; [lia | exact Hf].
Qed.

Lemma tracked_perm l l' sg :
  Permutation l l' -> tracked l sg = tracked l' sg.
Proof.
  intros H. unfold tracked.
  induction H as [|x l l' _ IH|x y l|l l' l'' _ IH1 _ IH2]; cbn [existsb].
  - reflexivity.
  - now rewrite IH.
  - now rewrite !orb_assoc, (orb_comm (sg_addr y.1 =? sg_addr sg)).
  - now rewrite IH1.
Qed.

(** X13.  Registering an index object and sweeping.  An object that is
    already tracked is not registered again and keeps its recorded files.
    For one that is not: the paths recorded are the index and the data file
    of each of its segments; a sweep then removes, besides what it would
    have removed anyway, exactly these paths when the object is not in use,
    and keeps the object tracked when it is; a second registration changes
    nothing. *)
Theorem add_unused_index_then_sweep _gc_files segment_group :
  (tracked _gc_files segment_group = true ->
   add_unused_index _gc_files segment_group = _gc_files)
  /\ (tracked _gc_files segment_group = false ->
      add_unused_index (add_unused_index _gc_files segment_group)
                       segment_group
      = add_unused_index _gc_files segment_group
      /\ (forall f,
            In f (removed_files
                    (start_delete_unused_index
                       (add_unused_index _gc_files segment_group)))
            <-> In f (removed_files (start_delete_unused_index _gc_files))
                \/ (is_in_use segment_group = false
                    /\ exists seg_id,
                         (seg_id < num_segments segment_group)%nat
                         /\ (f = construct_index_file_path segment_group seg_id
                             \/ f = construct_data_file_path segment_group
                                      seg_id)))
      /\ (forall sg files,
            In (sg, files)
               (gc_files_after
                  (start_delete_unused_index
                     (add_unused_index _gc_files segment_group)))
            <-> In (sg, files)
                   (gc_files_after (start_delete_unused_index _gc_files))
                \/ (is_in_use segment_group = true
                    /\ (sg, files)
                       = (segment_group,
                          segment_files segment_group 0
                            (num_segments segment_group))))).
Proof.
  split.
  - intros H. unfold add_unused_index. now rewrite H.
  - intros H.
    set (entry := (segment_group,
                   segment_files segment_group 0 (num_segments segment_group))).
    assert (Hadd : add_unused_index _gc_files segment_group
                   = emplace entry _gc_files).
    { unfold add_unused_index. now rewrite H. }
    assert (Hin : forall x, In x (emplace entry _gc_files)
                            <-> x = entry \/ In x _gc_files).
    { intros x. split.
      - intros Hx. apply (Permutation_in _ (emplace_perm entry _gc_files)) in Hx.
        destruct Hx as [<-|Hx]; auto.
      - intros Hx. apply (Permutation_in _
                            (Permutation_sym (emplace_perm entry _gc_files))).
        destruct Hx as [->|Hx]; [now left | now right]. }
    rewrite Hadd. split_and!.
    + unfold add_unused_index.
      rewrite (tracked_perm _ _ segment_group (emplace_perm entry _gc_files)).
      unfold tracked at 1. cbn [existsb fst entry]. now rewrite Z.eqb_refl.
    + intros f.
      destruct (index_sweep_contract (emplace entry _gc_files)) as [_ ->].
      destruct (index_sweep_contract _gc_files) as [_ ->].
      split.
      * intros (sg & files & Hx & Hu & Hf). apply Hin in Hx as [E|Hx].
        -- injection E as -> ->. right. split; [exact Hu|].
           apply segment_files_In in Hf as (i & Hi & Hf).
           exists i. split; [lia | exact Hf].
        -- left. eauto.
      * intros [(sg & files & Hx & Hu & Hf)|(Hu & i & Hi & Hf)].
        -- exists sg, files. split_and!; auto. apply Hin. now right.
        -- exists segment_group,
             (segment_files segment_group 0 (num_segments segment_group)).
           split_and!; auto.
           ++ apply Hin. now left.
           ++ apply segment_files_In. exists i. split; [lia | exact Hf].
    + intros sg files.
      destruct (index_sweep_contract (emplace entry _gc_files)) as [-> _].
      destruct (index_sweep_contract _gc_files) as [-> _].
      rewrite Hin. split.
      * intros [[E|Hx] Hu]; [right | left; auto].
        split; [|exact E]. injection E as -> _. exact Hu.
      * intros [[Hx Hu]|[Hu E]]; [auto|].
        split; [now left|]. injection E as -> _. exact Hu.
Qed.

End Registry.

(** The groups an index sweep frees. *)
Lemma index_sweep_deleted reg :
  deleted_groups (start_delete_unused_index reg)
  = map fst (List.filter (fun e => negb (is_in_use (fst e))) reg).
Proof.
  induction reg as [|[sg files] rest IH]; [reflexivity|].
  cbn [start_delete_unused_index List.filter fst].
  destruct (is_in_use sg); cbn [deleted_groups negb map fst]; now rewrite IH.
Qed.

Lemma index_sweep_lengths reg :
  (length (gc_files_after (start_delete_unused_index reg))
   + length (deleted_groups (start_delete_unused_index reg)) = length reg)%nat.
Proof.
  induction reg as [|[sg files] rest IH]; [reflexivity|].
  cbn [start_delete_unused_index].
  destruct (is_in_use sg); cbn [gc_files_after deleted_groups length]; lia.
Qed.

Lemma index_sweep_again reg :
  start_delete_unused_index (gc_files_after (start_delete_unused_index reg))
  = mkIndexSweep (gc_files_after (start_delete_unused_index reg)) [] [].
Proof.
  induction reg as [|[sg files] rest IH]; [reflexivity|].
  cbn [start_delete_unused_index].
  destruct (is_in_use sg) eqn:Hu; cbn [gc_files_after]; [|exact IH].
  cbn [start_delete_unused_index]. rewrite Hu, IH. reflexivity.
Qed.

(** X14.  An index sweep splits the registry: every tracked object is
    either kept, with its files untouched, or freed, with its files handed
    to [remove_files], never both; and a sweep of what it leaves frees and
    removes nothing. *)
Theorem index_sweep_splits_registry reg :
  let r := start_delete_unused_index reg in
  (forall sg files, In (sg, files) reg ->
     (is_in_use sg = true /\ In (sg, files) (gc_files_after r))
     \/ (is_in_use sg = false /\ In sg (deleted_groups r)
         /\ forall f, In f files -> In f (removed_files r)))
  /\ (forall sg, In sg (deleted_groups r) -> is_in_use sg = false)
  /\ (forall sg files, In (sg, files) (gc_files_after r) ->
        is_in_use sg = true)
  /\ (length (gc_files_after r) + length (deleted_groups r) = length reg)%nat
  /\ start_delete_unused_index (gc_files_after r)
     = mkIndexSweep (gc_files_after r) [] [].
Proof.
  cbn zeta. destruct (index_sweep_contract reg) as [Hkeep Hfiles].
  split_and!.
  - intros sg files Hin. destruct (is_in_use sg) eqn:Hu.
    + left. split; [reflexivity|]. apply Hkeep. auto.
    + right. split_and!; [reflexivity| |].
      * rewrite index_sweep_deleted. apply in_map_iff. exists (sg, files).
        split; [reflexivity|]. apply filter_In. cbn. now rewrite Hu.
      * intros f Hf. apply Hfiles. eauto.
  - intros sg. rewrite index_sweep_deleted, in_map_iff.
    intros ([sg' files] & <- & Hin). apply filter_In in Hin as [_ Hu].
    cbn in *. now apply negb_true_iff.
  - intros sg files Hin. now apply Hkeep in Hin.
  - apply index_sweep_lengths.
  - apply index_sweep_again.
Qed.

(** X15.  The rowset sweep over a registry with a rowset that is not in
    use: the first such rowset, in iteration order, is removed and erased,
    and that is all the defined part of the run does -- the entries before
    it and after it stay tracked, whether in use or not. *)
Theorem rowset_sweep_removes_first_unused before id r after :
  (forall x, In x before -> in_use (snd x) = true) ->
  in_use r = false ->
  start_delete_unused_rowset (before ++ (id, r) :: after)
  = IteratorInvalidated (before ++ after) r.
Proof.
  intros Hbefore Hr. induction before as [|[id' r'] rest IH].
  - cbn. now rewrite Hr.
  - cbn [app start_delete_unused_rowset].
    pose proof (Hbefore (id', r') (or_introl eq_refl)) as Hu. cbn [snd] in Hu.
    rewrite Hu, IH; [reflexivity|]. intros x Hx. apply Hbefore. now right.
Qed.

(** X16.  Every run of the rowset sweep, read the other way round.  If it
    finishes, every tracked rowset was in use and the registry is unchanged.
    If it does not, exactly one rowset was removed: it was not in use, all
    entries before it were, and the registry has lost that entry and no
    other.  So a rowset in use is never removed, and one sweep never
    removes two rowsets. *)
Theorem rowset_sweep_outcome reg :
  match start_delete_unused_rowset reg with
  | SweepFinished reg' =>
      reg' = reg /\ forall x, In x reg -> in_use (snd x) = true
  | IteratorInvalidated reg' r =>
      in_use r = false
      /\ exists before id after,
           reg = before ++ (id, r) :: after
           /\ reg' = before ++ after
           /\ forall x, In x before -> in_use (snd x) = true
  end.
Proof.
  induction reg as [|[id r] rest IH]; cbn [start_delete_unused_rowset].
  - split; [reflexivity | intros x []].
  - destruct (in_use r) eqn:Hu.
    + destruct (start_delete_unused_rowset rest) as [reg'|reg' r'].
      * destruct IH as [-> Hall]. split; [reflexivity|].
        intros x [<-|Hx]; [exact Hu | now apply Hall].
      * destruct IH as (Hr & before & id' & after & -> & -> & Hbefore).
        split; [exact Hr|]. exists ((id, r) :: before), id', after.
        split_and!; try reflexivity.
        intros x [<-|Hx]; [exact Hu | now apply Hbefore].
    + split; [exact Hu|]. exists [], id, rest.
      split_and!; try reflexivity. intros x [].
Qed.

(** *** Concrete runs *)

Definition index_path (sg : SegmentGroup) (seg_id : nat) : string :=
  String.append "idx_" (String (ascii_of_nat (48 + seg_id)) EmptyString).

Definition data_path (sg : SegmentGroup) (seg_id : nat) : string :=
  String.append "dat_" (String (ascii_of_nat (48 + seg_id)) EmptyString).

Lemma add_unused_index_then_sweep_witness :
  (forall (e : SegmentGroup * list string) l, Permutation (e :: l) (e :: l))
  /\ removed_files
       (start_delete_unused_index
          (add_unused_index (fun _ => 2%nat) index_path data_path
             (fun e l => e :: l)
             [(mkSegmentGroup 1 true, ["a"%string])]
             (mkSegmentGroup 2 false)))
     = ["idx_0"; "dat_0"; "idx_1"; "dat_1"]%string
  /\ forall f,
       In f ["idx_0"; "dat_0"; "idx_1"; "dat_1"]%string ->
       exists seg_id, (seg_id < 2)%nat
                      /\ (f = index_path (mkSegmentGroup 2 false) seg_id
                          \/ f = data_path (mkSegmentGroup 2 false) seg_id).
Proof.
  assert (Hperm : forall (e : SegmentGroup * list string) l,
            Permutation (e :: l) (e :: l)) by reflexivity.
  split; [exact Hperm|]. split; [reflexivity|].
  intros f Hf.
  destruct (add_unused_index_then_sweep (fun _ => 2%nat) index_path data_path
              (fun e l => e :: l) Hperm
              [(mkSegmentGroup 1 true, ["a"%string])]
              (mkSegmentGroup 2 false)) as [_ Hnew].
  destruct (Hnew eq_refl) as (_ & Hfiles & _).
  apply Hfiles in Hf as [[]|(_ & Hseg)]. exact Hseg.
Defined.

Lemma rowset_sweep_removes_first_unused_witness :
  (forall x, In x [(1, mkRowset 1 true)] -> in_use (snd x) = true)
  /\ in_use (mkRowset 2 false) = false
  /\ start_delete_unused_rowset
       ([(1, mkRowset 1 true)] ++ (2, mkRowset 2 false)
          :: [(3, mkRowset 3 false)])
     = IteratorInvalidated ([(1, mkRowset 1 true)] ++ [(3, mkRowset 3 false)])
                           (mkRowset 2 false).
Proof.
  assert (H : forall x, In x [(1, mkRowset 1 true)] -> in_use (snd x) = true).
  { intros x [<-|[]]. reflexivity. }
  split; [exact H|]. split; [reflexivity|].
  exact (rowset_sweep_removes_first_unused [(1, mkRowset 1 true)] 2
           (mkRowset 2 false) [(3, mkRowset 3 false)] H eq_refl).
Defined.

End GcFacts.

(** ** Task execution: locks, calls and status *)
Module TaskExecFacts.

Import TaskExec.

Section Exec.

Variable Env : Type.
Variable get_tablet : Env -> Z -> Z -> option TabletPtr.
Variable get_related_tablets : Env -> list TabletInfo.
Variable prepare : Env -> OLAPStatus * Env.
Variable execute : Env -> OLAPStatus * Env.
Variable finish : Env -> OLAPStatus * Env.

Abbreviation lock_related := (lock_related Env get_tablet).
Abbreviation resolved := (resolved Env get_tablet).
Abbreviation locked_block := (locked_block Env get_tablet get_related_tablets).
Abbreviation execute_task :=
  (execute_task Env get_tablet get_related_tablets prepare execute finish).

(** The tablets a locked block works on in state [env]. *)
Definition related_in (env : Env) : list TabletPtr :=
  resolved env (sort_tablet_infos (get_related_tablets env)).

Lemma resolved_perm env l l' :
  Permutation l l' -> Permutation (resolved env l) (resolved env l').
Proof.
  intros H. induction H as [|x l l' _ IH|x y l|l l' l'' _ IH1 _ IH2].
  - reflexivity.
  - rewrite !resolved_cons. destruct (get_tablet env x.1 x.2); now rewrite IH.
  - rewrite !resolved_cons.
    destruct (get_tablet env x.1 x.2), (get_tablet env y.1 y.2);
      try reflexivity. apply perm_swap.
  - now rewrite IH1.
Qed.

Lemma locked_block_spec step ev env held st env1 held1 tr :
  locked_block step ev env held = Some (st, env1, held1, tr) ->
  st = fst (step env) /\ env1 = snd (step env) /\ held1 = held
  /\ tr = map EvObtainHeaderWrlock (related_in env)
            ++ ev :: map EvReleaseHeaderLock (related_in env).
Proof.
  unfold TaskExec.locked_block.
  destruct (lock_related env _ held) as [[related h]|] eqn:Hlock;
    [|discriminate].
  destruct (step env) as [s e]. intros H. injection H as <- <- <- <-.
  pose proof (lock_then_release Env get_tablet get_related_tablets prepare
                execute finish _ _ _ _ _ Hlock) as Hrel.
  apply (lock_related_spec Env get_tablet get_related_tablets prepare execute
           finish) in Hlock as (-> & _).
  split_and!; auto.
Qed.

Lemma locked_block_goes_through step ev env held :
  NoDup (related_in env) -> (forall t, t ∈ related_in env -> t ∉ held) ->
  is_Some (locked_block step ev env held).
Proof.
  unfold TaskExec.locked_block, related_in. intros Hnd Hfree.
  rewrite (lock_related_total Env get_tablet get_related_tablets prepare
             execute finish _ _ _ Hnd Hfree).
  destruct (step env). eauto.
Qed.

(** No header lock stands in the way of a block in state [env]: the
    related tablets that are in the directory are distinct objects, and
    none of their header locks is held, by this thread or another. *)
Definition lockable (held : gset TabletPtr) (env : Env) : Prop :=
  NoDup (resolved env (get_related_tablets env))
  /\ (forall t, t ∈ resolved env (get_related_tablets env) -> t ∉ held).

Lemma lockable_sorted held env :
  lockable held env ->
  NoDup (related_in env) /\ (forall t, t ∈ related_in env -> t ∉ held).
Proof.
  unfold lockable.
  pose proof (resolved_perm env _ _
                (sort_tablet_infos_perm (get_related_tablets env))) as Hp.
  fold (related_in env) in Hp.
  intros [Hnd Hfree]. split; [now rewrite Hp|].
  intros t Ht. apply Hfree. now rewrite <- Hp.
Qed.

(** X17.  When [execute_task] is sure to return.  If no header lock stands
    in the way in the state the task starts from and, should [prepare] and
    [execute] both succeed, again in the state [execute] leaves, then
    [execute_task] returns: each acquisition goes through at once.  The
    order in which the task lists its tablets plays no part. *)
Theorem execute_task_returns_when_lockable env held :
  lockable held env ->
  (fst (prepare env) = OLAP_SUCCESS ->
   fst (execute (snd (prepare env))) = OLAP_SUCCESS ->
   lockable held (snd (execute (snd (prepare env))))) ->
  is_Some (execute_task env held).
Proof.
  intros H1 H2. apply lockable_sorted in H1 as [Hnd Hfree].
  unfold TaskExec.execute_task.
  destruct (locked_block_goes_through prepare EvPrepare env held Hnd Hfree)
    as [[[[st e1] h1] tr1] Hb1].
  rewrite Hb1. apply locked_block_spec in Hb1 as (-> & -> & -> & _).
  destruct (is_success (fst (prepare env))) eqn:Hp; [|eauto].
  apply is_success_true in Hp.
  destruct (execute (snd (prepare env))) as [xs e2] eqn:Hx. cbn [fst snd] in *.
  destruct (is_success xs) eqn:Hxs; [|eauto].
  apply is_success_true in Hxs.
  destruct (lockable_sorted _ _ (H2 Hp Hxs)) as [Hnd2 Hfree2].
  destruct (locked_block_goes_through finish EvFinish e2 held Hnd2 Hfree2)
    as [[[[fs e3] h3] tr3] Hb3].
  rewrite Hb3. eauto.
Qed.

(** Every lock obtained in the trace is released in it. *)
Definition balanced (tr : list Event) : Prop :=
  forall t, In (EvObtainHeaderWrlock t) tr -> In (EvReleaseHeaderLock t) tr.

Lemma balanced_block related ev :
  (forall x, ev <> EvObtainHeaderWrlock x) ->
  balanced (map EvObtainHeaderWrlock related
              ++ ev :: map EvReleaseHeaderLock related).
Proof.
  intros Hev t H. apply block_trace_events.
  apply block_trace_events in H as [(x & Hin & H)|[H|(x & _ & H)]].
  - injection H as ->. right. right. eauto.
  - symmetry in H. now apply Hev in H.
  - discriminate.
Qed.

Lemma balanced_app tr1 tr2 :
  balanced tr1 -> balanced tr2 -> balanced (tr1 ++ tr2).
Proof.
  intros H1 H2 t H. apply in_app_iff.
  apply in_app_iff in H as [H|H]; [left; now apply H1 | right; now apply H2].
Qed.

Lemma balanced_execute tr : balanced tr -> balanced (EvExecute :: tr).
Proof.
  intros H1 t [H|H]; [discriminate|]. right. now apply H1.
Qed.

(** X18.  Every run of [execute_task] that returns, with whatever status,
    leaves the set of held header write-locks as it found it, and releases
    every lock it obtained. *)
Theorem returning_task_restores_locks env held r :
  execute_task env held = Some r ->
  held_after r = held
  /\ forall t, In (EvObtainHeaderWrlock t) (trace r) ->
               In (EvReleaseHeaderLock t) (trace r).
Proof.
  unfold TaskExec.execute_task.
  destruct (locked_block prepare EvPrepare env held)
    as [[[[st e1] h1] tr1]|] eqn:Hb1; [|discriminate].
  apply locked_block_spec in Hb1 as (-> & -> & -> & ->).
  assert (B1 : balanced (map EvObtainHeaderWrlock (related_in env)
                           ++ EvPrepare
                              :: map EvReleaseHeaderLock (related_in env)))
    by (apply balanced_block; discriminate).
  destruct (is_success (fst (prepare env))).
  - destruct (execute (snd (prepare env))) as [xs e2].
    destruct (is_success xs).
    + destruct (locked_block finish EvFinish e2 held)
        as [[[[fs e3] h3] tr3]|] eqn:Hb3; [|discriminate].
      apply locked_block_spec in Hb3 as (-> & -> & -> & ->).
      intros H. injection H as <-. cbn [held_after trace].
      split; [reflexivity|].
      apply balanced_app; [exact B1|]. apply balanced_execute.
      apply balanced_block. discriminate.
    + intros H. injection H as <-. cbn [held_after trace].
      split; [reflexivity|].
      apply balanced_app; [exact B1|]. apply balanced_execute. intros t [].
  - intros H. injection H as <-. cbn [held_after trace].
    split; [reflexivity | exact B1].
Qed.

(** X19.  What a returning run of [execute_task] called and what it
    reports.  [prepare] is always called; [execute] is called exactly when
    [prepare] succeeded, and [finish] exactly when both succeeded.  The
    status is that of the first of the three that did not succeed, and that
    of [finish] when all were called; so it is [OLAP_SUCCESS] exactly when
    all three succeeded.  The state is the one the last step called left. *)
Theorem returning_task_calls_and_status env held r :
  execute_task env held = Some r ->
  let p := prepare env in
  let x := execute (snd p) in
  let f := finish (snd x) in
  In EvPrepare (trace r)
  /\ (In EvExecute (trace r) <-> fst p = OLAP_SUCCESS)
  /\ (In EvFinish (trace r) <-> fst p = OLAP_SUCCESS /\ fst x = OLAP_SUCCESS)
  /\ (status r = OLAP_SUCCESS
      <-> fst p = OLAP_SUCCESS /\ fst x = OLAP_SUCCESS
          /\ fst f = OLAP_SUCCESS)
  /\ (fst p <> OLAP_SUCCESS -> status r = fst p /\ env_after r = snd p)
  /\ (fst p = OLAP_SUCCESS -> fst x <> OLAP_SUCCESS ->
      status r = fst x /\ env_after r = snd x)
  /\ (fst p = OLAP_SUCCESS -> fst x = OLAP_SUCCESS ->
      status r = fst f /\ env_after r = snd f).
Proof.
  cbn zeta. unfold TaskExec.execute_task.
  destruct (locked_block prepare EvPrepare env held)
    as [[[[st e1] h1] tr1]|] eqn:Hb1; [|discriminate].
  apply locked_block_spec in Hb1 as (-> & -> & -> & ->).
  assert (Hblock : forall related ev e,
    In e (map EvObtainHeaderWrlock related
            ++ ev :: map EvReleaseHeaderLock related) ->
    (forall t, e <> EvObtainHeaderWrlock t) ->
    (forall t, e <> EvReleaseHeaderLock t) -> e = ev).
  { intros related ev e H N1 N2.
    apply block_trace_events in H as [(t & _ & H)|[H|(t & _ & H)]];
      [now apply N1 in H | exact H | now apply N2 in H]. }
  assert (Hev : forall related ev,
    In ev (map EvObtainHeaderWrlock related
             ++ ev :: map EvReleaseHeaderLock related)).
  { intros related ev. apply in_app_iff. right. now left. }
  destruct (is_success (fst (prepare env))) eqn:Hp.
  - apply is_success_true in Hp.
    destruct (execute (snd (prepare env))) as [xs e2] eqn:Hx. cbn [fst snd].
    destruct (is_success xs) eqn:Hxs.
    + apply is_success_true in Hxs.
      destruct (locked_block finish EvFinish e2 held)
        as [[[[fs e3] h3] tr3]|] eqn:Hb3; [|discriminate].
      apply locked_block_spec in Hb3 as (-> & -> & -> & ->).
      intros H. injection H as <-. cbn [status env_after trace].
      split_and!.
      * apply in_app_iff. left. apply Hev.
      * split; [auto|]. intros _. apply in_app_iff. right. now left.
      * split; [auto|]. intros _. apply in_app_iff. right. right. apply Hev.
      * tauto.
      * intros N. contradiction.
      * intros _ N. contradiction.
      * auto.
    + assert (Nx : xs <> OLAP_SUCCESS)
        by (intros E; subst xs; discriminate).
      intros H. injection H as <-. cbn [status env_after trace].
      split_and!.
      * apply in_app_iff. left. apply Hev.
      * split; [auto|]. intros _. apply in_app_iff. right. now left.
      * split; [|tauto]. intros H. exfalso.
        apply in_app_iff in H as [H|[H|[]]]; [|discriminate].
        apply Hblock in H; discriminate.
      * split; [intros E; contradiction | tauto].
      * intros N. contradiction.
      * auto.
      * intros _ E. contradiction.
  - assert (Np : fst (prepare env) <> OLAP_SUCCESS)
      by (intros E; rewrite E in Hp; discriminate).
    intros H. injection H as <-. cbn [status env_after trace].
    split_and!.
    + apply Hev.
    + split; [|tauto]. intros H. apply Hblock in H; discriminate.
    + split; [|tauto]. intros H. apply Hblock in H; discriminate.
    + split; [intros E; contradiction | tauto].
    + auto.
    + intros E. contradiction.
    + intros E. contradiction.
Qed.

End Exec.

(** *** Concrete tasks *)

Definition failing_step (calls : Z) : OLAPStatus * Z :=
  (OLAP_ERR_OTHER (-1), calls + 1).

(** A task over tablets 7, 3 and 9 whose [execute] fails: it returns the
    status of [execute] after two calls, with no lock held. *)
Lemma returning_task_restores_locks_witness :
  execute_task Z directory_without_3 three_tablets counting_step failing_step
    counting_step 0 ∅
  = Some (mkRun (OLAP_ERR_OTHER (-1)) 2 ∅
            (map EvObtainHeaderWrlock [7; 9]%positive
               ++ EvPrepare :: map EvReleaseHeaderLock [7; 9]%positive
               ++ [EvExecute]))
  /\ held_after (mkRun (OLAP_ERR_OTHER (-1)) 2 (∅ : gset TabletPtr)
                  (map EvObtainHeaderWrlock [7; 9]%positive
                     ++ EvPrepare :: map EvReleaseHeaderLock [7; 9]%positive
                     ++ [EvExecute]))
     = ∅.
Proof.
  split; [reflexivity|].
  exact (proj1 (returning_task_restores_locks Z directory_without_3
           three_tablets counting_step failing_step counting_step 0 ∅ _
           eq_refl)).
Defined.

(** The task over tablets 7, 3 and 9, with no lock held, returns. *)
Lemma execute_task_returns_when_lockable_witness :
  (forall e, lockable Z directory_without_3 three_tablets ∅ e)
  /\ is_Some (execute_task Z directory_without_3 three_tablets counting_step
                counting_step counting_step 0 ∅).
Proof.
  assert (H : forall e, lockable Z directory_without_3 three_tablets ∅ e).
  { intros e. split.
    - repeat (constructor; [set_solver|]). constructor.
    - intros t _. set_solver. }
  split; [exact H|].
  apply (execute_task_returns_when_lockable Z directory_without_3
           three_tablets counting_step counting_step counting_step 0 ∅);
    [apply H | intros _ _; apply H].
Defined.

Lemma returning_task_calls_and_status_witness :
  execute_task Z directory_without_3 three_tablets counting_step failing_step
    counting_step 0 ∅
  = Some (mkRun (OLAP_ERR_OTHER (-1)) 2 ∅
            (map EvObtainHeaderWrlock [7; 9]%positive
               ++ EvPrepare :: map EvReleaseHeaderLock [7; 9]%positive
               ++ [EvExecute]))
  /\ (In EvFinish
        (map EvObtainHeaderWrlock [7; 9]%positive
           ++ EvPrepare :: map EvReleaseHeaderLock [7; 9]%positive
           ++ [EvExecute])
      <-> fst (counting_step 0) = OLAP_SUCCESS
          /\ fst (failing_step (snd (counting_step 0))) = OLAP_SUCCESS).
Proof.
  split; [reflexivity|].
  exact (proj1 (proj2 (proj2
    (returning_task_calls_and_status Z directory_without_3 three_tablets
       counting_step failing_step counting_step 0 ∅ _ eq_refl)))).
Defined.

End TaskExecFacts.

(** ** The directory sweep: status and file-system effects *)
Module TrashFacts.

Import Trash.

Section DirectorySweep.

Variable FS : Type.
Variable check_dir_existed : FS -> string -> bool.
Variable directory_entries : FS -> string -> list DirEntry * bool.
Variable remove_all_dir : FS -> string -> OLAPStatus * FS.
Variable tm : Type.
Variable mktime : tm -> Z.
Variable strptime : string -> option tm.

Abbreviation sweep_entries := (sweep_entries FS remove_all_dir tm mktime strptime).
Abbreviation _do_sweep :=
  (_do_sweep FS check_dir_existed directory_entries remove_all_dir tm mktime
     strptime).
Abbreviation aged_at_least := (aged_at_least tm mktime strptime).

(** The file system after [remove_all_dir] on each of [paths] in turn. *)
Definition after_removals (f : FS) (paths : list string) : FS :=
  fold_left (fun g p => snd (remove_all_dir g p)) paths f.

Lemma sweep_entries_fs f items local_now expire r :
  snd (fst (sweep_entries f items local_now expire r))
  = after_removals f (snd (sweep_entries f items local_now expire r)).
Proof.
  revert f r. induction items as [|item rest IH]; intros f r; [reflexivity|].
  cbn [Trash.sweep_entries].
  destruct (strptime (before_dot (dir_name item))) as [c|]; [|apply IH].
  destruct (local_now - mktime c >=? expire); [|apply IH].
  destruct (remove_all_dir f (path_name item)) as [st f1] eqn:Hrm.
  specialize (IH f1 (if is_success st then r else OLAP_ERR_OS_ERROR)).
  destruct (sweep_entries f1 rest local_now expire
              (if is_success st then r else OLAP_ERR_OS_ERROR))
    as [[r' f2] removed].
  cbn [fst snd] in *. unfold after_removals. cbn [fold_left].
  now rewrite Hrm.
Qed.

(** The status of the loop: a failure, once recorded, stays; an item whose
    name does not parse records one. *)
Lemma sweep_entries_status f items local_now expire r :
  let st := fst (fst (sweep_entries f items local_now expire r)) in
  (st = r \/ st = OLAP_ERR_OS_ERROR)
  /\ (r = OLAP_ERR_OS_ERROR -> st = OLAP_ERR_OS_ERROR)
  /\ ((exists item, In item items
                    /\ strptime (before_dot (dir_name item)) = None) ->
      st = OLAP_ERR_OS_ERROR)
  /\ ((forall item, In item items ->
         strptime (before_dot (dir_name item)) <> None) ->
      (forall g p, fst (remove_all_dir g p) = OLAP_SUCCESS) -> st = r).
Proof.
  cbn zeta. revert f r. induction items as [|item rest IH]; intros f r.
  - cbn. split_and!; auto. intros (item & [] & _).
  - cbn [Trash.sweep_entries].
    destruct (strptime (before_dot (dir_name item))) as [c|] eqn:Hparse.
    + assert (Hrest : (exists x, In x (item :: rest)
                         /\ strptime (before_dot (dir_name x)) = None) ->
                      exists x, In x rest
                         /\ strptime (before_dot (dir_name x)) = None).
      { intros (x & [<-|Hx] & Hn); [congruence | eauto]. }
      destruct (local_now - mktime c >=? expire).
      * destruct (remove_all_dir f (path_name item)) as [st f1] eqn:Hrm.
        specialize (IH f1 (if is_success st then r else OLAP_ERR_OS_ERROR)).
        destruct (sweep_entries f1 rest local_now expire
                    (if is_success st then r else OLAP_ERR_OS_ERROR))
          as [[r' f2] removed].
        cbn [fst snd] in *. destruct IH as (I1 & I2 & I3 & I4).
        split_and!.
        -- destruct (is_success st); tauto.
        -- intros ->. destruct (is_success st); auto.
        -- intros H. apply I3, Hrest, H.
        -- intros Hp Hok. pose proof (Hok f (path_name item)) as E.
           rewrite Hrm in E. cbn in E. subst st. cbn [is_success] in I4.
           apply I4; [|exact Hok]. intros x Hx. apply Hp. now right.
      * destruct (IH f r) as (I1 & I2 & I3 & I4). split_and!; auto.
        intros Hp Hok. apply I4; [|exact Hok].
        intros x Hx. apply Hp. now right.
    + destruct (IH f OLAP_ERR_OS_ERROR) as (I1 & I2 & _).
      rewrite (I2 eq_refl). split_and!; auto.
      intros Hp. exfalso. apply (Hp item); [now left | exact Hparse].
Qed.

(** X20.  One sweep of a directory.  A directory that does not exist is
    left alone and is no error.  Otherwise every item whose timestamp
    parses and is old enough is handed to [remove_all_dir], whatever
    happened to the items before it, and the file system is changed by
    these removals only.  An iteration that throws gives
    [OLAP_ERR_IO_ERROR]; one that completes gives [OLAP_ERR_OS_ERROR] as
    soon as one item's name does not parse, [OLAP_SUCCESS] when all names
    parse and no removal fails, and never any other status. *)
Theorem do_sweep_outcome f scan_root local_now expire :
  let r := _do_sweep f scan_root local_now expire in
  (check_dir_existed f scan_root = false -> r = (OLAP_SUCCESS, f, []))
  /\ (check_dir_existed f scan_root = true ->
      let items := fst (directory_entries f scan_root) in
      let completes := snd (directory_entries f scan_root) in
      snd r = map path_name (List.filter (aged_at_least local_now expire) items)
      /\ snd (fst r) = after_removals f (snd r)
      /\ (completes = false -> fst (fst r) = OLAP_ERR_IO_ERROR)
      /\ (completes = true ->
          (fst (fst r) = OLAP_SUCCESS \/ fst (fst r) = OLAP_ERR_OS_ERROR)
          /\ ((exists item, In item items
                 /\ strptime (before_dot (dir_name item)) = None) ->
              fst (fst r) = OLAP_ERR_OS_ERROR)
          /\ ((forall item, In item items ->
                 strptime (before_dot (dir_name item)) <> None) ->
              (forall g p, fst (remove_all_dir g p) = OLAP_SUCCESS) ->
              fst (fst r) = OLAP_SUCCESS))).
Proof.
  cbn zeta. split.
  - intros H. unfold Trash._do_sweep. now rewrite H.
  - intros H.
    pose proof (do_sweep_removed FS check_dir_existed directory_entries
                  remove_all_dir tm mktime strptime f scan_root local_now
                  expire) as Hrm.
    rewrite H in Hrm. unfold Trash._do_sweep in *. rewrite H in *.
    destruct (directory_entries f scan_root) as [items completes].
    pose proof (sweep_entries_fs f items local_now expire OLAP_SUCCESS) as Hfs.
    pose proof (sweep_entries_status f items local_now expire OLAP_SUCCESS)
      as (S1 & _ & S3 & S4).
    destruct (sweep_entries f items local_now expire OLAP_SUCCESS)
      as [[r f'] removed].
    cbn [fst snd] in *. split_and!; auto.
    + intros ->. reflexivity.
    + intros ->. split_and!.
      * tauto.
      * exact S3.
      * exact S4.
Qed.

End DirectorySweep.

Section WholeSweep.

Variable double : Type.
Variable d_of_int : Z -> double.
Variable ddiv : double -> double -> double.
Variable dgt : double -> double -> bool.
Variable FS : Type.
Variable check_dir_existed : FS -> string -> bool.
Variable directory_entries : FS -> string -> list DirEntry * bool.
Variable remove_all_dir : FS -> string -> OLAPStatus * FS.
Variable tm : Type.
Variable localtime_r : Z -> option tm.
Variable mktime : tm -> Z.
Variable strptime : string -> option tm.
Variable snapshot_expire_time_sec : Z.
Variable trash_file_expire_time_sec : Z.
Variable disk_capacity_insufficient_percentage : Z.
Variable SNAPSHOT_PREFIX : string.
Variable TRASH_PREFIX : string.
Variable update_root_path_info :
  list (string * DataDirInfo) -> list (string * DataDirInfo).
Variable space_available : string -> option Z.

Abbreviation sweep_volume :=
  (sweep_volume double d_of_int ddiv dgt FS check_dir_existed
     directory_entries remove_all_dir tm mktime strptime
     snapshot_expire_time_sec trash_file_expire_time_sec
     disk_capacity_insufficient_percentage SNAPSHOT_PREFIX TRASH_PREFIX).
Abbreviation start_trash_sweep :=
  (start_trash_sweep double d_of_int ddiv dgt FS check_dir_existed
     directory_entries remove_all_dir tm localtime_r mktime strptime
     snapshot_expire_time_sec trash_file_expire_time_sec
     disk_capacity_insufficient_percentage SNAPSHOT_PREFIX TRASH_PREFIX
     update_root_path_info space_available).
Abbreviation do_sweep :=
  (Trash._do_sweep FS check_dir_existed directory_entries remove_all_dir tm
     mktime strptime).
Abbreviation removed_from := (after_removals FS remove_all_dir).

Lemma do_sweep_fs f scan_root local_now expire :
  snd (fst (do_sweep f scan_root local_now expire))
  = removed_from f (snd (do_sweep f scan_root local_now expire)).
Proof.
  unfold Trash._do_sweep.
  destruct (check_dir_existed f scan_root); [|reflexivity].
  destruct (directory_entries f scan_root) as [items completes].
  pose proof (sweep_entries_fs FS remove_all_dir tm mktime strptime f items
                local_now expire OLAP_SUCCESS) as H.
  destruct (Trash.sweep_entries _ _ _ _ _ f items local_now expire OLAP_SUCCESS)
    as [[r f'] removed]. exact H.
Qed.

Lemma removed_from_app f l1 l2 :
  removed_from f (l1 ++ l2) = removed_from (removed_from f l1) l2.
Proof. unfold after_removals. apply fold_left_app. Qed.

Lemma sweep_volume_fs f0 local_now s info :
  fs s = removed_from f0 (removals s) ->
  fs (sweep_volume local_now s info)
  = removed_from f0 (removals (sweep_volume local_now s info)).
Proof.
  intros Hs. unfold Trash.sweep_volume.
  destruct (is_used info); [|exact Hs].
  match goal with
  | |- context [Trash._do_sweep _ _ _ _ _ _ _ (fs s) ?p local_now ?e] =>
      pose proof (do_sweep_fs (fs s) p local_now e) as H1;
      destruct (Trash._do_sweep _ _ _ _ _ _ _ (fs s) p local_now e)
        as [[r1 f1] rm1]
  end.
  match goal with
  | |- context [Trash._do_sweep _ _ _ _ _ _ _ f1 ?p local_now ?e] =>
      pose proof (do_sweep_fs f1 p local_now e) as H2;
      destruct (Trash._do_sweep _ _ _ _ _ _ _ f1 p local_now e)
        as [[r2 f2] rm2]
  end.
  cbn [fst snd fs removals] in *.
  rewrite !removed_from_app, <- Hs, <- H1. exact H2.
Qed.

Abbreviation get_all_data_dir_info :=
  (Trash.get_all_data_dir_info update_root_path_info space_available).

(** *** What the whole sweep removes *)

(** Modelled from the spec: the entries of the directory [scan_root] that a
    sweep with expiry [expire] removes in the file system [f]: those whose
    name carries a timestamp that parses and whose age at [local_now] is at
    least [expire]; none when the directory does not exist. *)
Definition expired_entries (f : FS) (scan_root : string)
    (local_now expire : Z) : list string :=
  if check_dir_existed f scan_root then
    map path_name
      (List.filter
         (fun item =>
            match strptime (before_dot (dir_name item)) with
            | Some local_tm_create =>
                local_now - mktime local_tm_create >=? expire
            | None => false
            end)
         (fst (directory_entries f scan_root)))
  else [].

(** Modelled from the spec: the paths the sweeper removes, volume by
    volume.  An unused volume is passed over.  For a used volume the
    snapshot directory is swept with the snapshot expiry, and then the trash
    directory with expiry 0 when the usage fraction
    [(capacity - available) / capacity] exceeds the guard fraction
    [percentage / 100], and with the trash expiry otherwise; each sweep sees
    the file system as the removals before it left it. *)
Fixpoint swept_paths (local_now : Z) (infos : list DataDirInfo) (f : FS)
    : list string :=
  match infos with
  | [] => []
  | info :: rest =>
      if is_used info then
        let usage_fraction :=
          ddiv (d_of_int (capacity info - available info))
               (d_of_int (capacity info)) in
        let guard_fraction :=
          ddiv (d_of_int disk_capacity_insufficient_percentage)
               (d_of_int 100) in
        let from_snapshot :=
          expired_entries f (String.append (path info) SNAPSHOT_PREFIX)
            local_now (wrap32 snapshot_expire_time_sec) in
        let f1 := removed_from f from_snapshot in
        let from_trash :=
          expired_entries f1 (String.append (path info) TRASH_PREFIX)
            local_now
            (if dgt usage_fraction guard_fraction then 0
             else wrap32 trash_file_expire_time_sec) in
        from_snapshot ++ from_trash
          ++ swept_paths local_now rest (removed_from f1 from_trash)
      else swept_paths local_now rest f
  end.

Lemma do_sweep_expired g scan_root local_now expire :
  snd (do_sweep g scan_root local_now expire)
  = expired_entries g scan_root local_now expire.
Proof.
  rewrite (do_sweep_removed FS check_dir_existed directory_entries
             remove_all_dir tm mktime strptime).
  reflexivity.
Qed.

Lemma sweep_volume_removals local_now s info :
  removals (sweep_volume local_now s info)
  = removals s ++ swept_paths local_now [info] (fs s)
  /\ fs (sweep_volume local_now s info)
     = removed_from (fs s) (swept_paths local_now [info] (fs s)).
Proof.
  unfold Trash.sweep_volume. cbn [swept_paths].
  destruct (is_used info); [|now rewrite app_nil_r].
  match goal with
  | |- context [Trash._do_sweep _ _ _ _ _ _ _ (fs s) ?p local_now ?e] =>
      pose proof (do_sweep_fs (fs s) p local_now e) as F1;
      pose proof (do_sweep_expired (fs s) p local_now e) as E1;
      destruct (Trash._do_sweep _ _ _ _ _ _ _ (fs s) p local_now e)
        as [[r1 f1] rm1]
  end.
  cbn [fst snd] in F1, E1. subst f1 rm1.
  match goal with
  | |- context [Trash._do_sweep _ _ _ _ _ _ _ ?g ?p local_now ?e] =>
      pose proof (do_sweep_fs g p local_now e) as F2;
      pose proof (do_sweep_expired g p local_now e) as E2;
      destruct (Trash._do_sweep _ _ _ _ _ _ _ g p local_now e)
        as [[r2 f2] rm2]
  end.
  cbn [fst snd] in F2, E2. subst f2 rm2.
  cbn [removals fs]. rewrite !app_nil_r, !removed_from_app.
  split; reflexivity.
Qed.

Lemma swept_paths_cons local_now info rest f :
  swept_paths local_now (info :: rest) f
  = swept_paths local_now [info] f
      ++ swept_paths local_now rest
           (removed_from f (swept_paths local_now [info] f)).
Proof.
  cbn [swept_paths]. destruct (is_used info); [|reflexivity].
  now rewrite !app_nil_r, removed_from_app, <- !app_assoc.
Qed.

Lemma loop_removals local_now infos s :
  removals (fold_left (sweep_volume local_now) infos s)
  = removals s ++ swept_paths local_now infos (fs s).
Proof.
  revert s. induction infos as [|info rest IH]; intros s.
  - cbn. now rewrite app_nil_r.
  - cbn [fold_left]. rewrite IH, swept_paths_cons.
    destruct (sweep_volume_removals local_now s info) as [-> ->].
    now rewrite app_assoc.
Qed.




(** *** The contracts of the sweeper *)

(** C8, as amended.  When the sweep loop runs, the paths [start_trash_sweep]
    hands to [remove_all_dir] are, for each used volume in turn, the
    expired entries of its snapshot directory and then those of its trash
    directory, where the trash directory is swept with expiry 0 when the
    volume's usage fraction [(capacity - available) / capacity] exceeds the
    guard fraction, and with the fixed trash expiry otherwise; unused
    volumes are passed over, and the file system is left as these removals
    leave it.  An entry is expired under expiry [e] when its name carries a
    timestamp that parses and its age is at least [e]: with expiry 0 every
    entry stamped no later than now, with the fixed expiry every entry of
    at least that age (equal age included). *)
Theorem trash_sweep_expiry _store_map usage0 f now local_tm_now :
  localtime_r now = Some local_tm_now ->
  removals (start_trash_sweep _store_map usage0 f now)
  = swept_paths (mktime local_tm_now)
                (snd (get_all_data_dir_info _store_map)) f
  /\ fs (start_trash_sweep _store_map usage0 f now)
     = removed_from f (removals (start_trash_sweep _store_map usage0 f now))
  /\ sweeps (start_trash_sweep _store_map usage0 f now)
     = flat_map
         (fun info =>
            [(String.append (path info) SNAPSHOT_PREFIX,
              wrap32 snapshot_expire_time_sec);
             (String.append (path info) TRASH_PREFIX,
              if dgt (ddiv (d_of_int (capacity info - available info))
                           (d_of_int (capacity info)))
                     (ddiv (d_of_int disk_capacity_insufficient_percentage)
                           (d_of_int 100))
              then 0 else wrap32 trash_file_expire_time_sec)])
         (List.filter is_used (snd (get_all_data_dir_info _store_map)))
  /\ forall f' scan_root expire,
       check_dir_existed f' scan_root = true ->
       snd (do_sweep f' scan_root (mktime local_tm_now) expire)
       = map path_name
           (List.filter
              (fun item =>
                 match strptime (before_dot (dir_name item)) with
                 | Some local_tm_create =>
                     mktime local_tm_now - mktime local_tm_create >=? expire
                 | None => false
                 end)
              (fst (directory_entries f' scan_root))).
Proof.
  intros Hnow.
  rewrite (start_trash_sweep_loop double d_of_int ddiv dgt FS
             check_dir_existed directory_entries remove_all_dir tm
             localtime_r mktime strptime snapshot_expire_time_sec
             trash_file_expire_time_sec disk_capacity_insufficient_percentage
             SNAPSHOT_PREFIX TRASH_PREFIX update_root_path_info
             space_available _ _ _ _ _ Hnow).
  set (infos := snd (get_all_data_dir_info _store_map)).
  set (s0 := mkSweep OLAP_SUCCESS usage0 f [] []).
  assert (Hrm : removals (fold_left (sweep_volume (mktime local_tm_now))
                                    infos s0)
                = swept_paths (mktime local_tm_now) infos f)
    by (rewrite loop_removals; reflexivity).
  split_and!.
  - exact Hrm.
  - assert (H : forall l s,
      fs s = removed_from f (removals s) ->
      fs (fold_left (sweep_volume (mktime local_tm_now)) l s)
      = removed_from f
          (removals (fold_left (sweep_volume (mktime local_tm_now)) l s))).
    { induction l as [|info rest IH]; intros s Hs; [exact Hs|].
      cbn [fold_left]. apply IH. now apply sweep_volume_fs. }
    apply H. reflexivity.
  - rewrite (loop_sweeps double d_of_int ddiv dgt FS check_dir_existed
               directory_entries remove_all_dir tm mktime strptime).
    reflexivity.
  - intros f' scan_root expire Hdir. rewrite do_sweep_expired.
    unfold expired_entries. now rewrite Hdir.
Qed.

(** The running maximum over values of a set [D] that [>] orders: it is in
    [D], above the start and every value, it is one of them, and it is one
    of the values as soon as the start is not above some of them. *)
Lemma keep_larger_fold (D : double -> Prop) vals u0 :
  D u0 -> (forall v, In v vals -> D v) ->
  (forall a b, D a -> D b -> dgt a b = true -> dgt b a = false) ->
  (forall a b c, D a -> D b -> D c ->
     dgt a b = false -> dgt b c = false -> dgt a c = false) ->
  let r := fold_left (fun u v => if dgt u v then u else v) vals u0 in
  D r
  /\ dgt u0 r = false
  /\ (forall v, In v vals -> dgt v r = false)
  /\ (r = u0 \/ In r vals)
  /\ ((exists v, In v vals /\ dgt u0 v = false) -> In r vals).
Proof.
  intros Hu0 Hvals Hasym Htrans. cbn zeta.
  assert (Hirr : forall a, D a -> dgt a a = false).
  { intros a Ha. destruct (dgt a a) eqn:E; [|reflexivity].
    pose proof (Hasym a a Ha Ha E). congruence. }
  revert u0 Hu0. induction vals as [|v vs IH]; intros u0 Hu0;
    cbn [fold_left].
  - split_and!; [exact Hu0 | now apply Hirr | intros v [] | now left
                | intros (v & [] & _)].
  - assert (Hv : D v) by (apply Hvals; now left).
    assert (Hvs : forall w, In w vs -> D w)
      by (intros w Hw; apply Hvals; now right).
    destruct (dgt u0 v) eqn:E.
    + destruct (IH Hvs u0 Hu0) as (I0 & I1 & I2 & I3 & I4).
      split_and!.
      * exact I0.
      * exact I1.
      * intros w [<-|Hw]; [|now apply I2].
        apply (Htrans _ u0); auto.
      * destruct I3 as [I3|I3]; [now left | right; now right].
      * intros (w & [<-|Hw] & Hle); [congruence|].
        right. apply I4. eauto.
    + destruct (IH Hvs v Hv) as (I0 & I1 & I2 & I3 & I4).
      split_and!.
      * exact I0.
      * now apply (Htrans _ v).
      * intros w [<-|Hw]; [exact I1 | now apply I2].
      * right. destruct I3 as [I3|I3]; [now left | now right].
      * intros _. destruct I3 as [I3|I3]; [now left | now right].
Qed.

(** C10, as amended.  When the sweep loop runs, the value
    [start_trash_sweep] leaves behind its [usage] pointer is the running
    maximum, taken with the code's [>], of the incoming value and the usage
    fractions [(capacity - available) / capacity] of the used volumes, in
    order; unused volumes do not take part.  Provided [>] orders the
    values at hand -- the incoming value and these fractions, none of them
    a NaN -- the output is not below any of them and is one of them; and as
    soon as the incoming value is not above the usage of some used volume,
    it is the usage of a used volume, hence the maximum usage over all used
    volumes. *)
Theorem usage_output_is_maximum _store_map usage0 f now local_tm_now :
  localtime_r now = Some local_tm_now ->
  forall fractions out,
    fractions
    = map (fun info =>
             ddiv (d_of_int (capacity info - available info))
                  (d_of_int (capacity info)))
          (List.filter is_used (snd (get_all_data_dir_info _store_map))) ->
    out = usage (start_trash_sweep _store_map usage0 f now) ->
    out = fold_left (fun u v => if dgt u v then u else v) fractions usage0
    /\ ((forall a b, In a (usage0 :: fractions) -> In b (usage0 :: fractions) ->
           dgt a b = true -> dgt b a = false) ->
        (forall a b c,
           In a (usage0 :: fractions) -> In b (usage0 :: fractions) ->
           In c (usage0 :: fractions) ->
           dgt a b = false -> dgt b c = false -> dgt a c = false) ->
        dgt usage0 out = false
        /\ (forall v, In v fractions -> dgt v out = false)
        /\ (out = usage0 \/ In out fractions)
        /\ ((exists v, In v fractions /\ dgt usage0 v = false) ->
            In out fractions)).
Proof.
  intros Hnow fractions out -> ->.
  rewrite (start_trash_sweep_loop double d_of_int ddiv dgt FS
             check_dir_existed directory_entries remove_all_dir tm
             localtime_r mktime strptime snapshot_expire_time_sec
             trash_file_expire_time_sec disk_capacity_insufficient_percentage
             SNAPSHOT_PREFIX TRASH_PREFIX update_root_path_info
             space_available _ _ _ _ _ Hnow).
  rewrite (loop_usage double d_of_int ddiv dgt FS check_dir_existed
             directory_entries remove_all_dir tm mktime strptime).
  cbn [usage].
  set (fractions := map _ (List.filter is_used _)).
  split; [reflexivity|].
  intros Hasym Htrans.
  destruct (keep_larger_fold (fun x => In x (usage0 :: fractions)) fractions
              usage0 (or_introl eq_refl) (fun v Hv => or_intror Hv)
              Hasym Htrans) as (_ & K1 & K2 & K3 & K4).
  split_and!; assumption.
Qed.


End WholeSweep.

(** *** IEEE doubles over the concrete disk *)

(** [(double) z] for an [int64_t] [z] other than the least one. *)
Definition double_of_int64 (z : Z) : PrimFloat.float :=
  if z <? 0 then PrimFloat.opp (PrimFloat.of_uint63 (Uint63.of_Z (- z)))
  else PrimFloat.of_uint63 (Uint63.of_Z z).

(** [a > b] on doubles. *)
Definition double_gt (a b : PrimFloat.float) : bool := PrimFloat.ltb b a.

(** [start_trash_sweep] over binary64 doubles and the concrete disk, with
    the default settings: snapshot expiry 172800 s, trash expiry 259200 s,
    guard 90 percent. *)
Definition sweep_on_disk (_store_map : list (string * DataDir))
    (usage0 : PrimFloat.float) (f : Disk) (now : Z)
    : Sweep PrimFloat.float Disk :=
  Trash.start_trash_sweep PrimFloat.float double_of_int64 PrimFloat.div
    double_gt Disk disk_has_dir disk_items disk_remove Z Some (fun t => t)
    parse_stamp 172800 259200 90 "/snapshot" "/trash" (fun m => m)
    (fun _ => None) _store_map usage0 f now.

(** The usage fraction of a volume, as a double. *)
Definition fraction_of (capacity available : Z) : PrimFloat.float :=
  PrimFloat.div (double_of_int64 (capacity - available))
                (double_of_int64 capacity).

(** The guard fraction under these settings, [90 / 100.0]. *)
Definition guard_fraction : PrimFloat.float :=
  PrimFloat.div (double_of_int64 90) (double_of_int64 100).

(** Three trash directories.  On /data1: an entry stamped exactly three
    days (259200 s) before [jan_4] and one stamped a day before.  On
    /data2: an entry stamped a day before [jan_4] and one stamped a day
    after it.  On /data3: an entry a year old. *)
Definition three_trash_directories : Disk :=
  [("/data1/trash"%string,
    [mkDirEntry "/data1/trash/20190101000000.10" "20190101000000.10";
     mkDirEntry "/data1/trash/20190103000000.11" "20190103000000.11"]);
   ("/data2/trash"%string,
    [mkDirEntry "/data2/trash/20190103000000.12" "20190103000000.12";
     mkDirEntry "/data2/trash/20190105000000.13" "20190105000000.13"]);
   ("/data3/trash"%string,
    [mkDirEntry "/data3/trash/20180101000000.14" "20180101000000.14"])].

(** The witness of C8: a half-full volume, a volume at 95 percent and an
    unused one, swept on [jan_4].  On the first the trash entry of age equal
    to the expiry goes and the younger one stays; on the second, above the
    guard, the entry a day old goes as well and the one stamped after now
    stays; the unused volume keeps its year-old entry. *)
Lemma trash_sweep_expiry_witness :
  Some jan_4 = Some jan_4
  /\ removals (sweep_on_disk [volume "/data1" 1000 500 true;
                              volume "/data2" 1000 50 true;
                              volume "/data3" 1000 10 false]
                             (double_of_int64 0) three_trash_directories jan_4)
     = ["/data1/trash/20190101000000.10";
        "/data2/trash/20190103000000.12"]%string.
Proof.
  split; [reflexivity|].
  unfold sweep_on_disk.
  rewrite (proj1 (trash_sweep_expiry PrimFloat.float double_of_int64
                    PrimFloat.div double_gt Disk disk_has_dir disk_items
                    disk_remove Z Some (fun t => t) parse_stamp 172800 259200
                    90 "/snapshot" "/trash" (fun m => m) (fun _ => None)
                    [volume "/data1" 1000 500 true;
                     volume "/data2" 1000 50 true;
                     volume "/data3" 1000 10 false]
                    (double_of_int64 0) three_trash_directories jan_4 jan_4
                    eq_refl)).
  reflexivity.
Defined.

(** The counterexample of C8 as worded.  Usage one half, below the guard
    fraction: the entry stamped exactly 259200 s ago is no older than the
    fixed expiry, and it is removed.  Usage 95 percent, above the guard
    fraction: the entry stamped after now, of age -86400 s, is kept. *)
Lemma entry_of_exact_expiry_age_is_removed :
  (double_gt (fraction_of 1000 500) guard_fraction = false
   /\ option_map (fun created => jan_4 - created)
                 (parse_stamp (before_dot "20190101000000.10")) = Some 259200
   /\ removals (sweep_on_disk [volume "/data1" 1000 500 true]
                              (double_of_int64 0) three_trash_directories
                              jan_4)
      = ["/data1/trash/20190101000000.10"%string])
  /\ (double_gt (fraction_of 1000 50) guard_fraction = true
      /\ option_map (fun created => jan_4 - created)
                    (parse_stamp (before_dot "20190105000000.13"))
         = Some (-86400)
      /\ removals (sweep_on_disk [volume "/data2" 1000 50 true]
                                 (double_of_int64 0) three_trash_directories
                                 jan_4)
         = ["/data2/trash/20190103000000.12"%string]).
Proof. split_and!; reflexivity. Qed.

Definition three_volumes : list (string * DataDir) :=
  [volume "/data1" 1000 500 true; volume "/data2" 1000 50 true;
   volume "/data3" 1000 10 false].

(** The witness of C10: volumes at 50 and 95 percent, an unused one that
    would be at 99 percent, incoming value 0.  The three values at hand
    are ordered by [>]; the output is the usage of the second volume. *)
Lemma usage_output_is_maximum_witness :
  Some jan_4 = Some jan_4
  /\ (forall a b,
        In a [double_of_int64 0; fraction_of 1000 500; fraction_of 1000 50] ->
        In b [double_of_int64 0; fraction_of 1000 500; fraction_of 1000 50] ->
        double_gt a b = true -> double_gt b a = false)
  /\ (forall a b c,
        In a [double_of_int64 0; fraction_of 1000 500; fraction_of 1000 50] ->
        In b [double_of_int64 0; fraction_of 1000 500; fraction_of 1000 50] ->
        In c [double_of_int64 0; fraction_of 1000 500; fraction_of 1000 50] ->
        double_gt a b = false -> double_gt b c = false ->
        double_gt a c = false)
  /\ usage (sweep_on_disk three_volumes (double_of_int64 0) [] jan_4)
     = fraction_of 1000 50
  /\ In (fraction_of 1000 50) [fraction_of 1000 500; fraction_of 1000 50].
Proof.
  assert (Hasym : forall a b,
    In a [double_of_int64 0; fraction_of 1000 500; fraction_of 1000 50] ->
    In b [double_of_int64 0; fraction_of 1000 500; fraction_of 1000 50] ->
    double_gt a b = true -> double_gt b a = false).
  { intros a b Ha Hb.
    repeat (destruct Ha as [<-|Ha]; [|]); try destruct Ha;
      repeat (destruct Hb as [<-|Hb]; [|]); try destruct Hb;
      vm_compute; intros H; (reflexivity || discriminate H). }
  assert (Htrans : forall a b c,
    In a [double_of_int64 0; fraction_of 1000 500; fraction_of 1000 50] ->
    In b [double_of_int64 0; fraction_of 1000 500; fraction_of 1000 50] ->
    In c [double_of_int64 0; fraction_of 1000 500; fraction_of 1000 50] ->
    double_gt a b = false -> double_gt b c = false -> double_gt a c = false).
  { intros a b c Ha Hb Hc.
    repeat (destruct Ha as [<-|Ha]; [|]); try destruct Ha;
      repeat (destruct Hb as [<-|Hb]; [|]); try destruct Hb;
      repeat (destruct Hc as [<-|Hc]; [|]); try destruct Hc;
      vm_compute; intros H1 H2;
      (reflexivity || discriminate H1 || discriminate H2). }
  split; [reflexivity|]. split; [exact Hasym|]. split; [exact Htrans|].
  split; [reflexivity|].
  destruct (usage_output_is_maximum PrimFloat.float double_of_int64
              PrimFloat.div double_gt Disk disk_has_dir disk_items
              disk_remove Z Some (fun t => t) parse_stamp 172800 259200
              90 "/snapshot" "/trash" (fun m => m) (fun _ => None)
              three_volumes (double_of_int64 0) [] jan_4 jan_4 eq_refl
              [fraction_of 1000 500; fraction_of 1000 50]
              (fraction_of 1000 50) eq_refl eq_refl) as [_ H].
  destruct (H Hasym Htrans) as (_ & _ & _ & K).
  apply K. exists (fraction_of 1000 500). split; [now left | reflexivity].
Defined.

(** The counterexample of C10 as worded.  Three used volumes: the first at
    90 percent, the second with capacity 0, whose usage fraction 0/0 is a
    NaN, the third at 50 percent.  No value is above a NaN and a NaN is
    above none, so the running value passes from 0.9 to the NaN and on to
    0.5: the output is the usage of the third volume, below that of the
    first. *)
Lemma zero_capacity_volume_hides_larger_usage :
  usage (sweep_on_disk [volume "/data1" 1000 100 true;
                        volume "/data2" 0 0 true;
                        volume "/data3" 1000 500 true]
                       (double_of_int64 0) [] jan_4)
  = fraction_of 1000 500
  /\ double_gt (fraction_of 1000 100) (fraction_of 1000 500) = true
  /\ fraction_of 0 0 = PrimFloat.nan
  /\ double_gt (fraction_of 1000 100) (fraction_of 0 0) = false
  /\ double_gt (fraction_of 0 0) (fraction_of 1000 500) = false.
Proof. split_and!; reflexivity. Qed.

(** A trash directory with an item whose name carries no timestamp between
    two items of January 1st. *)
Definition trash_with_stray_item : Disk :=
  [("/data1/trash"%string,
    [mkDirEntry "/data1/trash/20190101000000.10" "20190101000000.10";
     mkDirEntry "/data1/trash/lost+found" "lost+found";
     mkDirEntry "/data1/trash/20190101000000.11" "20190101000000.11"])].

(** Swept on [jan_4] with the trash expiry: the stray item makes the sweep
    report [OLAP_ERR_OS_ERROR], and both stamped items are removed. *)
Lemma do_sweep_outcome_witness :
  disk_has_dir trash_with_stray_item "/data1/trash" = true
  /\ snd (disk_items trash_with_stray_item "/data1/trash") = true
  /\ (exists item,
        In item (fst (disk_items trash_with_stray_item "/data1/trash"))
        /\ parse_stamp (before_dot (dir_name item)) = None)
  /\ fst (fst (_do_sweep Disk disk_has_dir disk_items disk_remove Z
                 (fun t => t) parse_stamp trash_with_stray_item
                 "/data1/trash" jan_4 259200))
     = OLAP_ERR_OS_ERROR
  /\ snd (_do_sweep Disk disk_has_dir disk_items disk_remove Z
            (fun t => t) parse_stamp trash_with_stray_item
            "/data1/trash" jan_4 259200)
     = ["/data1/trash/20190101000000.10";
        "/data1/trash/20190101000000.11"]%string.
Proof.
  assert (Hstray : exists item,
            In item (fst (disk_items trash_with_stray_item "/data1/trash"))
            /\ parse_stamp (before_dot (dir_name item)) = None).
  { exists (mkDirEntry "/data1/trash/lost+found" "lost+found").
    split; [right; now left | reflexivity]. }
  split; [reflexivity|]. split; [reflexivity|]. split; [exact Hstray|].
  split; [|reflexivity].
  destruct (do_sweep_outcome Disk disk_has_dir disk_items disk_remove Z
              (fun t => t) parse_stamp trash_with_stray_item "/data1/trash"
              jan_4 259200) as [_ H].
  destruct (H eq_refl) as (_ & _ & _ & Hc).
  destruct (Hc eq_refl) as (_ & Hbad & _).
  exact (Hbad Hstray).
Defined.

End TrashFacts.

(** ** Loading a volume: the gate, the traversals and the conversion *)
Module LoaderFacts.

Import Loader.

Section Load.

Context {C : Collaborators}.

(** *** Traversals *)

Lemma visit_all {K S : Type} (func : K -> S -> bool * S) entries s :
  (forall e x, fst (func e x) = true) ->
  visit_until_stop func entries s
  = fold_left (fun x e => snd (func e x)) entries s.
Proof.
  intros Hgo. revert s. induction entries as [|e rest IH]; intros s;
    [reflexivity|].
  cbn [visit_until_stop fold_left]. specialize (Hgo e s).
  destruct (func e s) as [go_on s']. cbn in *. subst go_on. apply IH.
Qed.

Lemma visit_stops {K S : Type} (func : K -> S -> bool * S) before e after s :
  (forall b1 x b2, before = b1 ++ x :: b2 ->
     fst (func x (fold_left (fun y k => snd (func k y)) b1 s)) = true) ->
  fst (func e (fold_left (fun y k => snd (func k y)) before s)) = false ->
  visit_until_stop func (before ++ e :: after) s
  = snd (func e (fold_left (fun y k => snd (func k y)) before s)).
Proof.
  revert s. induction before as [|b rest IH]; intros s Hgo Hstop.
  - cbn in *. destruct (func e s) as [go_on s']. cbn in *. now subst go_on.
  - cbn [app visit_until_stop fold_left] in *.
    pose proof (Hgo [] b rest eq_refl) as Hb. cbn in Hb.
    destruct (func b s) as [go_on s'] eqn:Hf. cbn in Hb. subst go_on.
    apply IH.
    + intros b1 x b2 E. specialize (Hgo (b :: b1) x b2).
      cbn [app fold_left] in Hgo. rewrite Hf in Hgo. apply Hgo.
      now rewrite E.
    + rewrite ?Hf in Hstop. exact Hstop.
Qed.

Lemma omap_step {A B : Type} (f : A -> option B) x l :
  omap f (x :: l)
  = match f x with Some y => y :: omap f l | None => omap f l end.
Proof. reflexivity. Qed.

Lemma collect_from entries acc :
  visit_until_stop load_rowset_func entries acc
  = acc ++ omap (fun e => parse_rowset_meta (snd e)) entries.
Proof.
  revert acc. induction entries as [|e rest IH]; intros acc.
  - cbn. now rewrite app_nil_r.
  - rewrite omap_step. cbn [visit_until_stop]. unfold load_rowset_func at 1.
    destruct (parse_rowset_meta (snd e)); rewrite IH; [|reflexivity].
    now rewrite <- app_assoc.
Qed.

Lemma load_tablets_from m entries t evs :
  visit_until_stop (load_tablet_func m) entries (t, evs)
  = (fold_left
       (fun d e =>
          snd (load_tablet_from_meta m d (fst (fst e)) (snd (fst e)) (snd e)))
       entries t,
     evs ++ map (fun e => EvLoadTabletFromMeta (fst (fst e)) (snd (fst e)))
              entries).
Proof.
  revert t evs. induction entries as [|[[id sh] value] rest IH]; intros t evs.
  - cbn. now rewrite app_nil_r.
  - cbn [visit_until_stop fold_left map fst snd].
    unfold load_tablet_func at 1. cbn [fst snd].
    destruct (load_tablet_from_meta m t id sh value) as [st t'].
    rewrite IH. cbn [snd]. now rewrite <- app_assoc.
Qed.

(** X22.  The two traversals of a load visit every entry.  The rowset
    metas collected are those that parse, in the order of the meta store; a
    meta that does not parse is skipped and does not stop the traversal.
    Every tablet meta is handed to [load_tablet_from_meta] once, in order,
    each on the directory the previous one left, whether or not earlier
    tablets failed to load. *)
Theorem load_visits_every_entry w :
  collect_rowset_metas (meta w)
  = omap (fun e => parse_rowset_meta (snd e)) (rowset_meta_entries (meta w))
  /\ snd (load_tablets w)
     = map (fun e => EvLoadTabletFromMeta (fst (fst e)) (snd (fst e)))
           (header_entries (meta w) HEADER_PREFIX)
  /\ fst (load_tablets w)
     = fold_left
         (fun d e =>
            snd (load_tablet_from_meta (meta w) d (fst (fst e)) (snd (fst e))
                                       (snd e)))
         (header_entries (meta w) HEADER_PREFIX) (tablet_mgr w).
Proof.
  unfold collect_rowset_metas, load_tablets, traverse_rowset_metas,
    traverse_headers. cbn [snd].
  rewrite collect_from, load_tablets_from. split_and!; reflexivity.
Qed.

(** X23.  The legacy conversion stops at the first tablet that fails to
    convert: when the old headers before [entry] all convert and [entry]
    does not, the meta store is left as the conversion of [entry] left it,
    and no header after [entry] is looked at.  An old header that does not
    parse is such a failure and writes nothing. *)
Theorem conversion_stops_at_first_failure m before entry after :
  header_entries m OLD_HEADER_PREFIX = before ++ entry :: after ->
  (forall b1 x b2, before = b1 ++ x :: b2 ->
     fst (convert_tablet_func x
            (fold_left (fun y k => snd (convert_tablet_func k y)) b1 m))
     = true) ->
  let reached :=
    fold_left (fun y k => snd (convert_tablet_func k y)) before m in
  fst (convert_tablet_func entry reached) = false ->
  snd (_convert_old_tablet m) = snd (convert_tablet_func entry reached)
  /\ (parse_olap_header (snd entry) = None ->
      snd (_convert_old_tablet m) = reached).
Proof.
  intros Hentries Hbefore reached Hstop.
  unfold _convert_old_tablet, traverse_headers. cbn [snd].
  rewrite Hentries, (visit_stops _ _ _ _ _ Hbefore Hstop).
  split; [reflexivity|]. intros Hparse. unfold convert_tablet_func at 1.
  now rewrite Hparse.
Qed.

(** *** The gate *)

(** X24.  A load that does not succeed has failed at the conversion gate:
    it leaves the tablet directory and the transaction reconciler as they
    were, and has loaded no tablet and reconciled no rowset.  The flag is
    written only after the conversion traversal succeeded, and the status
    reported is that of the step that failed. *)
Theorem failed_load_stops_at_the_gate w :
  fst (fst (_load_data_dir w)) <> OLAP_SUCCESS ->
  tablet_mgr (snd (fst (_load_data_dir w))) = tablet_mgr w
  /\ txn_mgr (snd (fst (_load_data_dir w))) = txn_mgr w
  /\ (forall e, In e (snd (_load_data_dir w)) -> conversion_event e = true)
  /\ (In EvSetTabletConvertFinished (snd (_load_data_dir w)) ->
      fst (_convert_old_tablet
             (snd (_clean_unfinished_converting_data (meta w))))
      = OLAP_SUCCESS)
  /\ (fst (fst (_load_data_dir w)) = fst (get_tablet_convert_finished (meta w))
      \/ fst (fst (_load_data_dir w))
         = fst (_convert_old_tablet
                  (snd (_clean_unfinished_converting_data (meta w))))
      \/ fst (fst (_load_data_dir w))
         = fst (set_tablet_convert_finished
                  (snd (_convert_old_tablet
                          (snd (_clean_unfinished_converting_data
                                  (meta w))))))).
Proof.
  unfold _load_data_dir.
  destruct (get_tablet_convert_finished (meta w)) as [res finished].
  cbn [fst]. destruct (is_success res) eqn:Hres.
  - destruct finished.
    + rewrite load_from_meta_spec. cbn [fst]. intros H. contradiction.
    + destruct (_clean_unfinished_converting_data (meta w)) as [? m1].
      cbn [snd]. destruct (_convert_old_tablet m1) as [res2 m2].
      cbn [fst snd]. destruct (is_success res2) eqn:H2.
      * apply is_success_true in H2. subst res2.
        destruct (set_tablet_convert_finished m2) as [res3 m3].
        cbn [fst snd]. destruct (is_success res3) eqn:H3.
        -- rewrite load_from_meta_spec. cbn [fst]. intros H. contradiction.
        -- intros _. cbn [fst snd tablet_mgr txn_mgr].
           split_and!; [reflexivity | reflexivity | | reflexivity | auto].
           intros e [<-|[<-|[<-|[]]]]; reflexivity.
      * intros _. cbn [fst snd tablet_mgr txn_mgr].
        split_and!; [reflexivity | reflexivity | | | auto].
        -- intros e [<-|[<-|[]]]; reflexivity.
        -- intros [H|[H|[]]]; discriminate.
  - intros _. cbn [fst snd].
    split_and!; [reflexivity | reflexivity | intros e [] | intros [] | auto].
Qed.

(** X25.  The conversion runs at most once.  Provided the meta store
    reports the flag as set once it has been written, a load of an
    unconverted volume that succeeds runs the clean-up and the conversion,
    writes the flag, and leaves a meta store on which a further load --
    from any directory and reconciler -- succeeds without running any
    conversion step and without changing the meta store. *)
Theorem conversion_runs_at_most_once w t x :
  (forall m m', set_tablet_convert_finished m = (OLAP_SUCCESS, m') ->
                get_tablet_convert_finished m' = (OLAP_SUCCESS, true)) ->
  get_tablet_convert_finished (meta w) = (OLAP_SUCCESS, false) ->
  fst (fst (_load_data_dir w)) = OLAP_SUCCESS ->
  let m' := meta (snd (fst (_load_data_dir w))) in
  (exists evs,
     snd (_load_data_dir w)
     = EvCleanUnfinishedConvertingData :: EvConvertOldTablet
         :: EvSetTabletConvertFinished :: evs
     /\ forall e, In e evs -> conversion_event e = false)
  /\ fst (fst (_load_data_dir (mkWorld m' t x))) = OLAP_SUCCESS
  /\ (forall e, In e (snd (_load_data_dir (mkWorld m' t x))) ->
        conversion_event e = false)
  /\ meta (snd (fst (_load_data_dir (mkWorld m' t x)))) = m'.
Proof.
  intros Hset Hflag Hok. cbn zeta.
  assert (H1 : exists m3 evs,
            get_tablet_convert_finished m3 = (OLAP_SUCCESS, true)
            /\ meta (snd (fst (_load_data_dir w))) = m3
            /\ snd (_load_data_dir w)
               = EvCleanUnfinishedConvertingData :: EvConvertOldTablet
                   :: EvSetTabletConvertFinished :: evs
            /\ forall e, In e evs -> conversion_event e = false).
  { revert Hok. unfold _load_data_dir. rewrite Hflag. cbn [is_success].
    destruct (_clean_unfinished_converting_data (meta w)) as [? m1].
    destruct (_convert_old_tablet m1) as [res2 m2].
    destruct (is_success res2) eqn:H2;
      [|cbn [fst]; intros ->; discriminate].
    destruct (set_tablet_convert_finished m2) as [res3 m3] eqn:Hs.
    destruct (is_success res3) eqn:H3;
      [|cbn [fst]; intros ->; discriminate].
    apply is_success_true in H3. subst res3. apply Hset in Hs.
    pose proof (load_from_meta_keeps_meta
                  (mkWorld m3 (tablet_mgr w) (txn_mgr w))) as Hkeep.
    pose proof (load_from_meta_events
                  (mkWorld m3 (tablet_mgr w) (txn_mgr w))) as Hevs.
    destruct (load_from_meta (mkWorld m3 (tablet_mgr w) (txn_mgr w)))
      as [[st w'] evs].
    cbn [fst snd meta] in *. intros _. exists m3, evs. auto. }
  destruct H1 as (m3 & evs & Hget & -> & Hev & Hconv).
  assert (Hagain : _load_data_dir (mkWorld m3 t x)
                   = load_from_meta (mkWorld m3 t x))
    by (apply load_data_dir_converted; exact Hget).
  rewrite Hagain. split_and!.
  - exists evs. split; [exact Hev | exact Hconv].
  - now rewrite load_from_meta_spec.
  - apply load_from_meta_events.
  - apply load_from_meta_keeps_meta.
Qed.

End Load.

(** *** Loading twice *)

Section Reload.

Context {C : Collaborators}.

(** Modelled from the spec: the tablet directory is a registry mapping
    tablet identity to tablet, and each tablet owns its rowset set.
    [TabletManager::load_tablet_from_meta] and [Tablet::add_inc_rowset] are
    not part of this file; the two predicates and the laws below say what a
    registry is: a tablet meta it has taken in and a rowset it has attached
    are remembered, taking them in again changes nothing, and attaching a
    rowset leaves the lookup of tablets as it was.  As the interface of the
    loader has it, neither of the two writes the meta store of the volume. *)
Variable loaded : TM -> Z -> Z -> string -> Prop.
Variable attached : TM -> Tablet -> Rowset -> Prop.

Hypothesis load_records : forall m t id sh v,
  loaded (snd (load_tablet_from_meta m t id sh v)) id sh v.
Hypothesis load_absorbed : forall m t id sh v,
  loaded t id sh v -> snd (load_tablet_from_meta m t id sh v) = t.
Hypothesis load_keeps_loaded : forall m t id sh v id' sh' v',
  loaded t id' sh' v' ->
  loaded (snd (load_tablet_from_meta m t id sh v)) id' sh' v'.
Hypothesis attach_keeps_loaded : forall t tablet rowset id sh v,
  loaded t id sh v -> loaded (snd (add_inc_rowset t tablet rowset)) id sh v.
Hypothesis attach_records : forall t tablet rowset,
  attached (snd (add_inc_rowset t tablet rowset)) tablet rowset.
Hypothesis attach_absorbed : forall t tablet rowset,
  attached t tablet rowset -> snd (add_inc_rowset t tablet rowset) = t.
Hypothesis attach_keeps_attached : forall t tablet rowset tablet' rowset',
  attached t tablet' rowset' ->
  attached (snd (add_inc_rowset t tablet rowset)) tablet' rowset'.
Hypothesis attach_keeps_tablets : forall t tablet rowset id sh,
  get_tablet (snd (add_inc_rowset t tablet rowset)) id sh = get_tablet t id sh.










End Reload.

(** *** Concrete volumes *)

(** A volume that was never converted, with one old header. *)
Definition unconverted_volume : @World simple :=
  @mkWorld simple
    (mkSimpleMeta false [(10, 1, "old tablet 10"%string)] [] []) [] [].

(** A volume whose second old header does not parse. *)
Definition volume_with_bad_header : SimpleMeta :=
  mkSimpleMeta false
    [(1, 1, "a"%string); (2, 1, ""%string); (3, 1, "c"%string)] [] [].

(** Modelled from the spec: the collaborators of [simple], over a meta
    store whose flag cannot be read. *)
Definition unreadable : Collaborators := {|
  M := @M simple;
  TM := @TM simple;
  XM := @XM simple;
  Tablet := @Tablet simple;
  Rowset := @Rowset simple;
  OLAPHeaderMessage := @OLAPHeaderMessage simple;
  TabletMetaPB := @TabletMetaPB simple;
  RowsetMetaPB := @RowsetMetaPB simple;
  get_tablet_convert_finished := fun _ => (OLAP_ERR_IO_ERROR, false);
  set_tablet_convert_finished := @set_tablet_convert_finished simple;
  header_entries := @header_entries simple;
  headers_status := @headers_status simple;
  TabletMetaManager_save := @TabletMetaManager_save simple;
  TabletMetaManager_remove := @TabletMetaManager_remove simple;
  rowset_meta_entries := @rowset_meta_entries simple;
  rowset_metas_status := @rowset_metas_status simple;
  RowsetMetaManager_save := @RowsetMetaManager_save simple;
  RowsetMetaManager_remove := @RowsetMetaManager_remove simple;
  parse_olap_header := @parse_olap_header simple;
  to_new_snapshot := @to_new_snapshot simple;
  rowset_pb_id := @rowset_pb_id simple;
  serialize_rowset_pb := @serialize_rowset_pb simple;
  tablet_pb_id := @tablet_pb_id simple;
  serialize_tablet_pb := @serialize_tablet_pb simple;
  parse_rowset_meta := @parse_rowset_meta simple;
  load_tablet_from_meta := @load_tablet_from_meta simple;
  get_tablet := @get_tablet simple;
  load_rowset := @load_rowset simple;
  commit_txn := @commit_txn simple;
  add_inc_rowset := @add_inc_rowset simple
|}.

(** Modelled from the spec: the collaborators of [simple] with the tablet
    directory as a registry -- the set of the tablets registered and the
    set of the rowsets attached to them.  Loading a tablet that is
    registered, or attaching a rowset that is attached, is refused and
    changes nothing. *)
Definition registry : Collaborators := {|
  M := @M simple;
  TM := gset (Z * Z) * gset (Z * Z * Z);
  XM := @XM simple;
  Tablet := (Z * Z)%type;
  Rowset := Z;
  OLAPHeaderMessage := @OLAPHeaderMessage simple;
  TabletMetaPB := @TabletMetaPB simple;
  RowsetMetaPB := @RowsetMetaPB simple;
  get_tablet_convert_finished := @get_tablet_convert_finished simple;
  set_tablet_convert_finished := @set_tablet_convert_finished simple;
  header_entries := @header_entries simple;
  headers_status := @headers_status simple;
  TabletMetaManager_save := @TabletMetaManager_save simple;
  TabletMetaManager_remove := @TabletMetaManager_remove simple;
  rowset_meta_entries := @rowset_meta_entries simple;
  rowset_metas_status := @rowset_metas_status simple;
  RowsetMetaManager_save := @RowsetMetaManager_save simple;
  RowsetMetaManager_remove := @RowsetMetaManager_remove simple;
  parse_olap_header := @parse_olap_header simple;
  to_new_snapshot := @to_new_snapshot simple;
  rowset_pb_id := @rowset_pb_id simple;
  serialize_rowset_pb := @serialize_rowset_pb simple;
  tablet_pb_id := @tablet_pb_id simple;
  serialize_tablet_pb := @serialize_tablet_pb simple;
  parse_rowset_meta := @parse_rowset_meta simple;
  load_tablet_from_meta := fun _ t id sh _ =>
    if decide ((id, sh) ∈ fst t) then (OLAP_ERR_OTHER (-1), t)
    else (OLAP_SUCCESS, ({[(id, sh)]} ∪ fst t, snd t));
  get_tablet := fun t id sh =>
    if decide ((id, sh) ∈ fst t) then Some (id, sh) else None;
  load_rowset := @load_rowset simple;
  commit_txn := @commit_txn simple;
  add_inc_rowset := fun t tablet rowset =>
    if decide ((tablet, rowset) ∈ snd t) then (OLAP_ERR_OTHER (-1), t)
    else (OLAP_SUCCESS, (fst t, {[(tablet, rowset)]} ∪ snd t))
|}.



Lemma conversion_stops_at_first_failure_witness :
  @header_entries simple volume_with_bad_header OLD_HEADER_PREFIX
  = [(1, 1, "a"%string)] ++ (2, 1, ""%string) :: [(3, 1, "c"%string)]
  /\ headers (snd (@_convert_old_tablet simple volume_with_bad_header))
     = [(1, 1, "a"%string)].
Proof.
  split; [reflexivity|].
  assert (Hbefore : forall b1 x b2,
    [(1, 1, "a"%string)] = b1 ++ x :: b2 ->
    fst (@convert_tablet_func simple x
           (fold_left (fun y k => snd (@convert_tablet_func simple k y)) b1
                      volume_with_bad_header))
    = true).
  { intros b1 x b2 E. destruct b1 as [|y [|z b1]].
    - injection E as <- _. reflexivity.
    - discriminate E.
    - discriminate E. }
  destruct (@conversion_stops_at_first_failure simple volume_with_bad_header
              [(1, 1, "a"%string)] (2, 1, ""%string) [(3, 1, "c"%string)]
              eq_refl Hbefore eq_refl) as [_ H].
  rewrite (H eq_refl). reflexivity.
Defined.

Lemma failed_load_stops_at_the_gate_witness :
  fst (fst (@_load_data_dir unreadable
              (@mkWorld unreadable (meta (converted_volume five_metas))
                 [(10, 1, [])] [])))
  <> OLAP_SUCCESS
  /\ @tablet_mgr unreadable
       (snd (fst (@_load_data_dir unreadable
                    (@mkWorld unreadable (meta (converted_volume five_metas))
                       [(10, 1, [])] []))))
     = [(10, 1, [])].
Proof.
  assert (H : fst (fst (@_load_data_dir unreadable
                          (@mkWorld unreadable
                             (meta (converted_volume five_metas))
                             [(10, 1, [])] [])))
              <> OLAP_SUCCESS) by discriminate.
  split; [exact H|].
  exact (proj1 (@failed_load_stops_at_the_gate unreadable _ H)).
Defined.

Lemma conversion_runs_at_most_once_witness :
  (forall m m',
     @set_tablet_convert_finished simple m = (OLAP_SUCCESS, m') ->
     @get_tablet_convert_finished simple m' = (OLAP_SUCCESS, true))
  /\ @get_tablet_convert_finished simple (meta unconverted_volume)
     = (OLAP_SUCCESS, false)
  /\ fst (fst (@_load_data_dir simple unconverted_volume)) = OLAP_SUCCESS
  /\ forall e,
       In e (snd (@_load_data_dir simple
                    (@mkWorld simple
                       (meta (snd (fst (@_load_data_dir simple
                                          unconverted_volume))))
                       [] []))) ->
       conversion_event e = false.
Proof.
  assert (Hset : forall m m',
            @set_tablet_convert_finished simple m = (OLAP_SUCCESS, m') ->
            @get_tablet_convert_finished simple m' = (OLAP_SUCCESS, true)).
  { intros m m' H. injection H as <-. reflexivity. }
  split; [exact Hset|]. split; [reflexivity|]. split; [reflexivity|].
  exact (proj1 (proj2 (proj2
    (@conversion_runs_at_most_once simple unconverted_volume [] [] Hset
       eq_refl eq_refl)))).
Defined.

End LoaderFacts.

(** ** The store map: used volumes, media and the store lock *)
Module StoreMap.

Import Trash(TStorageMedium, HDD, SSD).

Record DataDir : Type := mkDataDir {
  path : string;
  is_used : bool;
  storage_medium : TStorageMedium
}.

(** [_store_map] in iteration order (by path), the count of storage media
    in use (a [uint32_t]), and whether [_store_lock] is held. *)
Record Engine : Type := mkEngine {
  _store_map : list (string * DataDir);
  _available_storage_medium_type_count : Z;
  _store_lock : bool
}.

Definition wrap32 (z : Z) : Z := z mod 2 ^ 32.

Definition TStorageMedium_eq_dec (a b : TStorageMedium) : {a = b} + {a <> b}.
Proof. decide equality. Defined.

(** A scope guarded by [std::lock_guard<std::mutex> l(_store_lock)].
    Locking a [std::mutex] that the caller already holds has no defined
    behaviour (it blocks for ever on the usual implementations): [None]. *)
Definition with_store_lock {A : Type} (e : Engine)
    (body : Engine -> option (A * Engine)) : option (A * Engine) :=
  if _store_lock e then None
  else
    match body (mkEngine (_store_map e)
                         (_available_storage_medium_type_count e) true) with
    | Some (a, e') =>
        Some (a, mkEngine (_store_map e')
                          (_available_storage_medium_type_count e') false)
    | None => None
    end.

(** [std::set::insert]: an element already present is not added again. *)
Definition set_insert (x : TStorageMedium) (s : list TStorageMedium)
    : list TStorageMedium :=
  if in_dec TStorageMedium_eq_dec x s then s else x :: s.

(** The loop of [_update_storage_medium_type_count] filling
    [available_storage_medium_types], a [std::set]. *)
Fixpoint insert_used_media (stores : list (string * DataDir))
    (available_storage_medium_types : list TStorageMedium)
    : list TStorageMedium :=
  match stores with
  | [] => available_storage_medium_types
  | (_, d) :: rest =>
      insert_used_media rest
        (if is_used d
         then set_insert (storage_medium d) available_storage_medium_types
         else available_storage_medium_types)
  end.

(** [_update_storage_medium_type_count]; the count is also passed on to
    [TabletManager::update_storage_medium_type_count]. *)
Definition _update_storage_medium_type_count (e : Engine)
    : option (unit * Engine) :=
  with_store_lock e (fun e1 =>
    let available_storage_medium_types :=
      insert_used_media (_store_map e1) [] in
    Some (tt,
          mkEngine (_store_map e1)
            (wrap32 (Z.of_nat (length available_storage_medium_types)))
            (_store_lock e1))).

(** [_store_map.find(path)]. *)
Fixpoint find_store (stores : list (string * DataDir)) (p : string)
    : option DataDir :=
  match stores with
  | [] => None
  | (k, d) :: rest => if String.eqb k p then Some d else find_store rest p
  end.

Fixpoint set_is_used (stores : list (string * DataDir)) (p : string)
    (used : bool) : list (string * DataDir) :=
  match stores with
  | [] => []
  | (k, d) :: rest =>
      if String.eqb k p
      then (k, mkDataDir (path d) used (storage_medium d)) :: rest
      else (k, d) :: set_is_used rest p used
  end.

(** How a call of [set_store_used_flag] ends, with the engine as it is at
    that point: a normal return; the guard of the function finding
    [_store_lock] held; the dereference of the end iterator for a path that
    is not in the map; or the guard of the nested
    [_update_storage_medium_type_count] finding the lock held, after the
    store's flag has been written. *)
Inductive FlagOutcome : Type :=
  | FlagReturned (e : Engine)
  | LockHeldOnEntry (e : Engine)
  | EndDereferenced (e : Engine)
  | RelockedAfterWrite (e : Engine).

(** [set_store_used_flag]: under its guard it looks the path up, logs a
    path that is not in the map and dereferences the iterator all the same,
    sets the store's flag, and calls [_update_storage_medium_type_count]
    with the lock still held. *)
Definition set_store_used_flag (e : Engine) (p : string) (used : bool)
    : FlagOutcome :=
  if _store_lock e then LockHeldOnEntry e
  else
    let e1 :=
      mkEngine (_store_map e) (_available_storage_medium_type_count e) true in
    match find_store (_store_map e1) p with
    | None => EndDereferenced e1
    | Some _ =>
        let e2 :=
          mkEngine (set_is_used (_store_map e1) p used)
                   (_available_storage_medium_type_count e1)
                   (_store_lock e1) in
        match _update_storage_medium_type_count e2 with
        | Some (_, e3) =>
            FlagReturned
              (mkEngine (_store_map e3)
                        (_available_storage_medium_type_count e3) false)
        | None => RelockedAfterWrite e2
        end
    end.

Definition get_all_available_root_path (e : Engine)
    : option (list string * Engine) :=
  with_store_lock e (fun e1 =>
    Some (map fst (List.filter (fun it => is_used (snd it)) (_store_map e1)),
          e1)).

(** [get_stores<include_unused>]. *)
Definition get_stores (include_unused : bool) (e : Engine)
    : option (list DataDir * Engine) :=
  with_store_lock e (fun e1 =>
    Some (if include_unused then map snd (_store_map e1)
          else List.filter is_used (map snd (_store_map e1)),
          e1)).

Definition get_store (e : Engine) (p : string)
    : option (option DataDir * Engine) :=
  with_store_lock e (fun e1 => Some (find_store (_store_map e1) p, e1)).

(** The test a store passes to be offered for a new tablet. *)
Definition offered (e : Engine) (medium : TStorageMedium) (d : DataDir)
    : bool :=
  is_used d
  && ((_available_storage_medium_type_count e =? 1)
      || (if TStorageMedium_eq_dec (storage_medium d) medium
          then true else false)).

(** *** The medium count *)

(** Some used store is on [m]. *)
Definition medium_in_use (stores : list (string * DataDir))
    (m : TStorageMedium) : Prop :=
  exists k d, In (k, d) stores /\ is_used d = true /\ storage_medium d = m.

(** The used stores are all on one medium, and there is one at least. *)
Definition single_medium (stores : list (string * DataDir)) : Prop :=
  exists m, medium_in_use stores m
            /\ forall m', medium_in_use stores m' -> m' = m.

Lemma insert_used_media_spec stores acc :
  NoDup acc ->
  NoDup (insert_used_media stores acc)
  /\ (forall m, In m (insert_used_media stores acc)
                <-> In m acc \/ medium_in_use stores m)
  /\ (length (insert_used_media stores acc)
      <= length acc + length stores)%nat.
Proof.
  revert acc. induction stores as [|[k d] rest IH]; intros acc Hnd.
  - cbn. split_and!; [exact Hnd | | lia].
    intros m. split; [auto|]. intros [H|(? & ? & [] & _)]. exact H.
  - cbn [insert_used_media].
    assert (Hcons : forall m, medium_in_use ((k, d) :: rest) m
                    <-> (is_used d = true /\ storage_medium d = m)
                        \/ medium_in_use rest m).
    { intros m. unfold medium_in_use. split.
      - intros (k' & d' & [E|Hin] & Hu & Hm).
        + injection E as <- <-. now left.
        + right. eauto.
      - intros [[Hu Hm]|(k' & d' & Hin & Hu & Hm)].
        + exists k, d. split_and!; auto. now left.
        + exists k', d'. split_and!; auto. now right. }
    destruct (is_used d) eqn:Hu.
    + unfold set_insert.
      destruct (in_dec TStorageMedium_eq_dec (storage_medium d) acc)
        as [Hin|Hnotin].
      * destruct (IH acc Hnd) as (I1 & I2 & I3).
        split_and!; [exact I1 | | cbn [length]; lia].
        intros m. rewrite I2, Hcons. split; [tauto|].
        intros [H|[[_ <-]|H]]; auto.
      * destruct (IH (storage_medium d :: acc)) as (I1 & I2 & I3).
        { constructor; [|exact Hnd]. now rewrite list_elem_of_In. }
        split_and!; [exact I1 | | cbn [length] in *; lia].
        intros m. rewrite I2, Hcons. cbn [In]. split.
        -- intros [[<-|H]|H]; auto.
        -- intros [H|[[_ <-]|H]]; auto.
    + destruct (IH acc Hnd) as (I1 & I2 & I3).
      split_and!; [exact I1 | | cbn [length]; lia].
      intros m. rewrite I2, Hcons. split; [tauto|].
      intros [H|[[Hf _]|H]]; auto. discriminate.
Qed.

Lemma count_fits z : 0 <= z < 2 ^ 32 -> wrap32 z = z.
Proof. unfold wrap32. intros H. now apply Z.mod_small. Qed.

Lemma update_count_spec e :
  _store_lock e = false ->
  Z.of_nat (length (_store_map e)) < 2 ^ 32 ->
  exists n,
    _update_storage_medium_type_count e
    = Some (tt, mkEngine (_store_map e) n false)
    /\ (n = 0 <-> forall m, ~ medium_in_use (_store_map e) m)
    /\ (n = 1 <-> single_medium (_store_map e)).
Proof.
  intros Hlock Hlen. unfold _update_storage_medium_type_count, with_store_lock.
  rewrite Hlock. cbn [_store_map _available_storage_medium_type_count
                      _store_lock].
  destruct (insert_used_media_spec (_store_map e) [] NoDup_nil_2)
    as (Hnd & Hin & Hle).
  cbn [length] in Hle.
  set (types := insert_used_media (_store_map e) []) in *.
  exists (wrap32 (Z.of_nat (length types))).
  split; [reflexivity|]. rewrite count_fits by lia.
  assert (Hin' : forall m, In m types <-> medium_in_use (_store_map e) m).
  { intros m. rewrite Hin. cbn [In]. tauto. }
  split.
  - split.
    + intros H0 m Hm. apply Hin' in Hm. destruct types; [destruct Hm|].
      cbn [length] in H0. lia.
    + intros Hnone. destruct types as [|m ?]; [reflexivity|].
      exfalso. apply (Hnone m), Hin'. now left.
  - split.
    + intros H1. destruct types as [|m [|m' ?]]; cbn [length] in H1; try lia.
      exists m. split; [apply Hin'; now left|].
      intros m' Hm'. apply Hin' in Hm' as [<-|[]]. reflexivity.
    + intros (m & Hm & Hall). destruct types as [|a [|b rest]].
      * apply Hin' in Hm. destruct Hm.
      * reflexivity.
      * exfalso. assert (a = m) by (apply Hall, Hin'; now left).
        assert (b = m) by (apply Hall, Hin'; right; now left).
        subst. apply NoDup_cons in Hnd as [Hnotin _].
        apply Hnotin, list_elem_of_In. now left.
Qed.

Lemma set_is_used_found stores p used d :
  find_store stores p = Some d ->
  find_store (set_is_used stores p used) p
  = Some (mkDataDir (path d) used (storage_medium d))
  /\ (forall q, q <> p ->
        find_store (set_is_used stores p used) q = find_store stores q)
  /\ map fst (set_is_used stores p used) = map fst stores.
Proof.
  induction stores as [|[k x] rest IH]; [discriminate|].
  cbn [find_store set_is_used].
  destruct (String.eqb_spec k p) as [->|Hne].
  - intros H. injection H as ->. cbn [find_store map fst].
    rewrite String.eqb_refl. split_and!; try reflexivity.
    intros q Hq. destruct (String.eqb_spec p q); [congruence | reflexivity].
  - intros H. destruct (IH H) as (I1 & I2 & I3).
    cbn [find_store map fst].
    destruct (String.eqb_spec k p); [contradiction|].
    split_and!; [exact I1 | | now rewrite I3].
    intros q Hq. destruct (String.eqb k q); [reflexivity | now apply I2].
Qed.

(** X26.  [set_store_used_flag] never returns normally, whatever path and
    flag it is given.  With the store lock free and a path of the map, it
    sets the used flag of that store -- of no other -- and then stops at the
    guard of [_update_storage_medium_type_count], which takes the lock the
    function still holds: the medium count is not refreshed and the lock
    stays held.  With a path that is not in the map it goes on to
    dereference the end iterator, the stores unchanged. *)
Theorem set_store_used_flag_never_returns e p used :
  (forall e', set_store_used_flag e p used <> FlagReturned e')
  /\ (_store_lock e = false ->
      find_store (_store_map e) p = None ->
      set_store_used_flag e p used
      = EndDereferenced
          (mkEngine (_store_map e) (_available_storage_medium_type_count e)
                    true))
  /\ (_store_lock e = false ->
      forall d, find_store (_store_map e) p = Some d ->
      exists e2,
        set_store_used_flag e p used = RelockedAfterWrite e2
        /\ _store_lock e2 = true
        /\ _available_storage_medium_type_count e2
           = _available_storage_medium_type_count e
        /\ find_store (_store_map e2) p
           = Some (mkDataDir (path d) used (storage_medium d))
        /\ (forall q, q <> p ->
              find_store (_store_map e2) q = find_store (_store_map e) q)
        /\ map fst (_store_map e2) = map fst (_store_map e)).
Proof.
  unfold set_store_used_flag, _update_storage_medium_type_count,
    with_store_lock.
  cbn [_store_map _store_lock _available_storage_medium_type_count].
  split_and!.
  - intros e'. destruct (_store_lock e); [discriminate|].
    destruct (find_store (_store_map e) p); discriminate.
  - intros -> ->. reflexivity.
  - intros -> d Hd. rewrite Hd. eexists. split; [reflexivity|].
    cbn [_store_map _store_lock _available_storage_medium_type_count].
    destruct (set_is_used_found _ _ used _ Hd) as (F1 & F2 & F3).
    split_and!; auto.
Qed.

(** X27.  Called with the store lock free (and fewer than 2^32 stores),
    [_update_storage_medium_type_count] returns, leaves the stores as they
    are and the lock free, and sets the count to the number of distinct
    media among the used stores: it is 0 exactly when no store is used, and
    1 exactly when there are used stores and they are all on one medium.
    Called by a holder of the lock it does not return. *)
Theorem medium_count_update e :
  (_store_lock e = true -> _update_storage_medium_type_count e = None)
  /\ (_store_lock e = false ->
      Z.of_nat (length (_store_map e)) < 2 ^ 32 ->
      exists e',
        _update_storage_medium_type_count e = Some (tt, e')
        /\ _store_map e' = _store_map e
        /\ _store_lock e' = false
        /\ (_available_storage_medium_type_count e' = 0
            <-> forall k d, In (k, d) (_store_map e) -> is_used d = false)
        /\ (_available_storage_medium_type_count e' = 1
            <-> single_medium (_store_map e))).
Proof.
  split.
  - intros H. unfold _update_storage_medium_type_count, with_store_lock.
    now rewrite H.
  - intros Hlock Hlen.
    destruct (update_count_spec e Hlock Hlen) as (n & Hup & H0 & H1).
    eexists. split; [exact Hup|].
    cbn [_store_map _store_lock _available_storage_medium_type_count].
    split_and!; auto. rewrite H0. split.
    + intros Hnone k d Hin. destruct (is_used d) eqn:Hu; [|reflexivity].
      exfalso. apply (Hnone (storage_medium d)). exists k, d. auto.
    + intros Hall m (k & d & Hin & Hu & _). rewrite (Hall k d Hin) in Hu.
      discriminate.
Qed.

(** *** The accessors *)

Lemma unlocked_eta e :
  _store_lock e = false ->
  mkEngine (_store_map e) (_available_storage_medium_type_count e) false = e.
Proof. destruct e. cbn. now intros ->. Qed.

(** Keys of a [std::map] are unique: [find] gives the one store filed
    under a path. *)
Lemma find_store_In stores p d :
  NoDup (map fst stores) ->
  find_store stores p = Some d <-> In (p, d) stores.
Proof.
  induction stores as [|[k x] rest IH]; intros Hnd; cbn [find_store].
  - split; [discriminate | intros []].
  - cbn [map fst] in Hnd. apply NoDup_cons in Hnd as [Hnotin Hnd].
    destruct (String.eqb_spec k p) as [->|Hne].
    + split.
      * intros H. injection H as ->. now left.
      * intros [H|H]; [now injection H as -> |].
        exfalso. apply Hnotin, list_elem_of_In, in_map_iff.
        exists (p, d). auto.
    + rewrite (IH Hnd). split; [now right|].
      intros [H|H]; [injection H as -> _; contradiction | exact H].
Qed.

(** X29.  The accessors agree.  With the store lock free and the engine
    unchanged by the calls, a path is reported by
    [get_all_available_root_path] exactly when [get_store] finds a used
    store under it, [get_stores<false>] returns exactly the stores found so,
    as many as there are available paths, and [get_stores<true>] returns
    every store of the map. *)
Theorem available_paths_are_used_stores e :
  _store_lock e = false ->
  NoDup (map fst (_store_map e)) ->
  exists paths stores,
    get_all_available_root_path e = Some (paths, e)
    /\ get_stores false e = Some (stores, e)
    /\ get_stores true e = Some (map snd (_store_map e), e)
    /\ length paths = length stores
    /\ (forall p, In p paths
                  <-> exists d, get_store e p = Some (Some d, e)
                                /\ is_used d = true)
    /\ (forall d, In d stores
                  <-> exists p, get_store e p = Some (Some d, e)
                                /\ is_used d = true).
Proof.
  intros Hlock Hnd.
  unfold get_all_available_root_path, get_stores, get_store, with_store_lock.
  rewrite Hlock.
  cbn [_store_map _available_storage_medium_type_count _store_lock].
  rewrite (unlocked_eta e Hlock).
  eexists. eexists. split; [reflexivity|]. split; [reflexivity|].
  split; [reflexivity|].
  assert (Hfilter : forall l : list (string * DataDir),
            List.filter is_used (map snd l)
            = map snd (List.filter (fun it => is_used (snd it)) l)).
  { induction l as [|[k d] l IH]; [reflexivity|].
    cbn [map List.filter snd]. destruct (is_used d); cbn [map snd];
      now rewrite IH. }
  split_and!.
  - now rewrite Hfilter, !length_map.
  - intros p. rewrite in_map_iff. split.
    + intros ([k d] & <- & Hin). apply filter_In in Hin as [Hin Hu].
      exists d. split; [|exact Hu]. f_equal. f_equal.
      now apply find_store_In.
    + intros (d & Hget & Hu). injection Hget as Hget.
      apply find_store_In in Hget; [|exact Hnd].
      exists (p, d). split; [reflexivity|]. apply filter_In. auto.
  - intros d. rewrite Hfilter, in_map_iff. split.
    + intros ([k x] & <- & Hin). apply filter_In in Hin as [Hin Hu].
      exists k. split; [|exact Hu]. f_equal. f_equal.
      now apply find_store_In.
    + intros (p & Hget & Hu). injection Hget as Hget.
      apply find_store_In in Hget; [|exact Hnd].
      exists (p, d). split; [reflexivity|]. apply filter_In. auto.
Qed.

Section Shuffle.

(** [std::random_shuffle]: some rearrangement of the vector. *)
Variable random_shuffle : list DataDir -> list DataDir.
Hypothesis random_shuffle_perm :
  forall l, Permutation (random_shuffle l) l.

Definition get_stores_for_create_tablet (e : Engine)
    (storage_medium : TStorageMedium) : option (list DataDir * Engine) :=
  match
    with_store_lock e (fun e1 =>
      Some (List.filter (offered e1 storage_medium) (map snd (_store_map e1)),
            e1))
  with
  | Some (stores, e') => Some (random_shuffle stores, e')
  | None => None
  end.

(** X28.  Which stores are offered for a new tablet once the medium
    count is up to date.  Only used stores are offered.  When the used
    stores are all on one medium, all of them are offered whatever medium
    is requested; otherwise exactly the used stores on the requested medium
    are.  The order is that of the shuffle. *)
Theorem stores_offered_after_count_update e medium :
  _store_lock e = false ->
  Z.of_nat (length (_store_map e)) < 2 ^ 32 ->
  exists e' stores,
    _update_storage_medium_type_count e = Some (tt, e')
    /\ get_stores_for_create_tablet e' medium = Some (stores, e')
    /\ (forall d, In d stores -> is_used d = true)
    /\ (single_medium (_store_map e) ->
        Permutation stores (List.filter is_used (map snd (_store_map e))))
    /\ (~ single_medium (_store_map e) ->
        Permutation stores
          (List.filter
             (fun d => is_used d
                       && (if TStorageMedium_eq_dec (storage_medium d) medium
                           then true else false))
             (map snd (_store_map e)))).
Proof.
  intros Hlock Hlen.
  destruct (update_count_spec e Hlock Hlen) as (n & Hup & _ & H1).
  exists (mkEngine (_store_map e) n false).
  exists (random_shuffle
            (List.filter (offered (mkEngine (_store_map e) n true) medium)
                         (map snd (_store_map e)))).
  split; [exact Hup|]. split; [reflexivity|].
  split_and!.
  - intros d Hd.
    apply (Permutation_in _ (random_shuffle_perm _)), filter_In in Hd
      as [_ Hd].
    unfold offered in Hd. now apply andb_true_iff in Hd as [Hd _].
  - intros Hs. rewrite random_shuffle_perm.
    apply H1 in Hs. subst n.
    erewrite filter_ext; [reflexivity|].
    intros d. unfold offered. cbn. now rewrite andb_true_r.
  - intros Hs. rewrite random_shuffle_perm.
    assert (Hn : (n =? 1) = false)
      by (apply Z.eqb_neq; intros E; now apply Hs, H1).
    erewrite filter_ext; [reflexivity|].
    intros d. unfold offered. cbn [_available_storage_medium_type_count].
    now rewrite Hn.
Qed.

End Shuffle.

(** *** Concrete stores *)

Definition two_hdd_stores : Engine :=
  mkEngine [("/data1"%string, mkDataDir "/data1" true HDD);
            ("/data2"%string, mkDataDir "/data2" false SSD);
            ("/data3"%string, mkDataDir "/data3" true HDD)] 0 false.

Lemma rev_perm (l : list DataDir) : Permutation (rev l) l.
Proof. symmetry. apply Permutation_rev. Qed.

(** The used stores are both disks: a request for the other medium still
    gets both. *)
Lemma stores_offered_after_count_update_witness :
  _store_lock two_hdd_stores = false
  /\ Z.of_nat (length (_store_map two_hdd_stores)) < 2 ^ 32
  /\ exists e' stores,
       _update_storage_medium_type_count two_hdd_stores = Some (tt, e')
       /\ get_stores_for_create_tablet (@rev DataDir) e' SSD
          = Some (stores, e')
       /\ stores = [mkDataDir "/data3" true HDD; mkDataDir "/data1" true HDD].
Proof.
  split; [reflexivity|]. split; [reflexivity|].
  destruct (stores_offered_after_count_update (@rev DataDir) rev_perm
              two_hdd_stores SSD eq_refl eq_refl)
    as (e' & stores & Hup & Hget & _).
  exists e', stores. split; [exact Hup|]. split; [exact Hget|].
  injection Hup as <-. injection Hget as <-. reflexivity.
Defined.

(** Marking the unused second store as used: its flag is set, and the call
    stops with the count still at its old value and the lock held. *)
Lemma set_store_used_flag_never_returns_witness :
  _store_lock two_hdd_stores = false
  /\ find_store (_store_map two_hdd_stores) "/data2"
     = Some (mkDataDir "/data2" false SSD)
  /\ set_store_used_flag two_hdd_stores "/data2" true
     = RelockedAfterWrite
         (mkEngine [("/data1"%string, mkDataDir "/data1" true HDD);
                    ("/data2"%string, mkDataDir "/data2" true SSD);
                    ("/data3"%string, mkDataDir "/data3" true HDD)] 0 true)
  /\ forall e',
       set_store_used_flag two_hdd_stores "/data2" true <> FlagReturned e'.
Proof.
  split; [reflexivity|]. split; [reflexivity|]. split; [reflexivity|].
  exact (proj1 (set_store_used_flag_never_returns two_hdd_stores "/data2"
                  true)).
Defined.

Lemma medium_count_update_witness :
  _store_lock two_hdd_stores = false
  /\ Z.of_nat (length (_store_map two_hdd_stores)) < 2 ^ 32
  /\ exists e',
       _update_storage_medium_type_count two_hdd_stores = Some (tt, e')
       /\ _available_storage_medium_type_count e' = 1.
Proof.
  split; [reflexivity|]. split; [reflexivity|].
  destruct (medium_count_update two_hdd_stores) as [_ H].
  destruct (H eq_refl eq_refl) as (e' & Hup & _).
  exists e'. split; [exact Hup|]. injection Hup as <-. reflexivity.
Defined.

Lemma available_paths_are_used_stores_witness :
  _store_lock two_hdd_stores = false
  /\ NoDup (map fst (_store_map two_hdd_stores))
  /\ exists paths stores,
       get_all_available_root_path two_hdd_stores
       = Some (paths, two_hdd_stores)
       /\ get_stores false two_hdd_stores = Some (stores, two_hdd_stores)
       /\ paths = ["/data1"; "/data3"]%string
       /\ length paths = length stores.
Proof.
  assert (Hnd : NoDup (map fst (_store_map two_hdd_stores))).
  { apply NoDup_ListNoDup. repeat constructor; cbn; intros H;
      repeat (destruct H as [H|H]; [discriminate H|]); exact H. }
  split; [reflexivity|]. split; [exact Hnd|].
  destruct (available_paths_are_used_stores two_hdd_stores eq_refl Hnd)
    as (paths & stores & Hp & Hs & _ & Hlen & _).
  exists paths, stores. split_and!; auto.
  injection Hp as <-. reflexivity.
Defined.

End StoreMap.
